(** * A shallow embedding of [solver.py] (class [solverSudoku])

    The board is a Python list of nine lists of nine integers, [0] meaning
    empty.  Cell values are modelled as [Z], indices as [nat] (every index
    the program uses comes from [range(9)] or from a box range, so it is
    never negative), the possibility matrix as a list of lists of finite
    sets of integers.  Instance state ([board], [steps], [backtracks]) is
    threaded explicitly. *)

From stdpp Require Import base list gmap sets relations.

Open Scope Z_scope.
Open Scope nat_scope.

#[local] Set Warnings "-clear-no-such-hyp".

(** ** Two-dimensional lists *)

Section matrix.
Context {A : Type}.
Implicit Types (m : list (list A)).

(** [m[i][j]]; Python raises [IndexError] where this returns [None]. *)
Definition lookup2 m (i j : nat) : option A :=
  m !! i ≫= λ row, row !! j.

(** An in-place change of the element [m[i][j]]. *)
Definition alter2 (f : A → A) m (i j : nat) : list (list A) :=
  alter (alter f j) i m.

(** [m[i][j] = v]. *)
Definition set2 m (i j : nat) (v : A) : list (list A) :=
  alter (λ row, <[j:=v]> row) i m.

(** Nine rows of nine entries. *)
Definition wf m : Prop :=
  length m = 9 ∧ Forall (λ row, length row = 9) m.

#[global] Instance wf_dec m : Decision (wf m).
Proof. unfold wf. apply _. Defined.
End matrix.

(** ** The board *)

Abbreviation grid := (list (list Z)).
Abbreviation cands := (list (list (gset Z))).

(** [self.board[i][j]] *)
Definition cell (b : grid) (i j : nat) : Z := default 0%Z (lookup2 b i j).

(** [possibilities[i][j]] *)
Definition pset (p : cands) (i j : nat) : gset Z := default ∅ (lookup2 p i j).

(** [range(1, 10)] *)
Definition digits : list Z := seqZ 1 9.

Record solverSudoku := Solver {
  board : grid;
  steps : nat;
  backtracks : nat
}.

(** [__init__]: the rows are copied, the counters start at zero. *)
Definition init (input : grid) : solverSudoku :=
  {| board := (λ row, row) <$> input; steps := 0; backtracks := 0 |}.

Definition with_board (s : solverSudoku) (b : grid) : solverSudoku :=
  {| board := b; steps := steps s; backtracks := backtracks s |}.

(** ** [is_valid] *)

Definition is_valid (b : grid) (row col : nat) (num : Z) : bool :=
  if existsb (λ j, Z.eqb (cell b row j) num) (seq 0 9) then false
  else if existsb (λ i, Z.eqb (cell b i col) num) (seq 0 9) then false
  else
    let box_row := 3 * (row / 3) in
    let box_col := 3 * (col / 3) in
    if existsb (λ i, existsb (λ j, Z.eqb (cell b i j) num) (seq box_col 3))
         (seq box_row 3)
    then false
    else true.

(** ** Possibility sets *)

(** [initialize_possibilities] *)
Definition initialize_possibilities (b : grid) : cands :=
  foldl (λ p i,
    foldl (λ p j,
      if Z.eqb (cell b i j) 0 then
        foldl (λ p num,
          if is_valid b i j num then alter2 (λ s, {[num]} ∪ s) p i j else p)
          p digits
      else p) p (seq 0 9))
    (replicate 9 (replicate 9 ∅)) (seq 0 9).

(** [update_possibilities]; [discard] removes the element when present. *)
Definition update_possibilities (p : cands) (row col : nat) (num : Z) : cands :=
  let p := foldl (λ p j, alter2 (λ s, s ∖ {[num]}) p row j) p (seq 0 9) in
  let p := foldl (λ p i, alter2 (λ s, s ∖ {[num]}) p i col) p (seq 0 9) in
  let box_row := 3 * (row / 3) in
  let box_col := 3 * (col / 3) in
  let p :=
    foldl (λ p i,
      foldl (λ p j, alter2 (λ s, s ∖ {[num]}) p i j) p (seq box_col 3))
      p (seq box_row 3) in
  alter2 (λ _, ∅) p row col.

(** ** [solve_greedy] *)

(** The local state of the propagation loop, with the step counter. *)
Record gstate := GState {
  g_board : grid;
  g_poss : cands;
  g_progress : bool;
  g_steps : nat
}.

(** The four statements that follow every detection of a single:
    [self.board[i][j] = num], [update_possibilities], [progress = True],
    [self.steps += 1]. *)
Definition place (s : gstate) (i j : nat) (num : Z) : gstate :=
  {| g_board := set2 (g_board s) i j num;
     g_poss := update_possibilities (g_poss s) i j num;
     g_progress := true;
     g_steps := S (g_steps s) |}.

(** [next(iter(s))], used on sets of length one only. *)
Definition next_iter (s : gset Z) : Z := hd 0%Z (elements s).

Definition naked_singles (s : gstate) : gstate :=
  foldl (λ s i,
    foldl (λ s j,
      if Z.eqb (cell (g_board s) i j) 0 && Nat.eqb (size (pset (g_poss s) i j)) 1
      then place s i j (next_iter (pset (g_poss s) i j))
      else s) s (seq 0 9)) s (seq 0 9).

(** [board[i][j] == 0 and num in possibilities[i][j]] *)
Definition candidate (s : gstate) (num : Z) (i j : nat) : bool :=
  Z.eqb (cell (g_board s) i j) 0 && bool_decide (num ∈ pset (g_poss s) i j).

Definition hidden_rows (s : gstate) : gstate :=
  foldl (λ s i,
    foldl (λ s num,
      let candidates := filter (λ j, candidate s num i j = true) (seq 0 9) in
      match candidates with
      | [j] => place s i j num
      | _ => s
      end) s digits) s (seq 0 9).

Definition hidden_cols (s : gstate) : gstate :=
  foldl (λ s j,
    foldl (λ s num,
      let candidates := filter (λ i, candidate s num i j = true) (seq 0 9) in
      match candidates with
      | [i] => place s i j num
      | _ => s
      end) s digits) s (seq 0 9).

Definition hidden_boxes (s : gstate) : gstate :=
  foldl (λ s box,
    let start_row := 3 * (box / 3) in
    let start_col := 3 * (box mod 3) in
    foldl (λ s num,
      let candidates :=
        filter (λ ij : nat * nat, candidate s num ij.1 ij.2 = true)
          (i ← seq start_row 3; j ← seq start_col 3; [(i, j)]) in
      match candidates with
      | [(i, j)] => place s i j num
      | _ => s
      end) s digits) s (seq 0 9).

Definition clear_progress (s : gstate) : gstate :=
  {| g_board := g_board s; g_poss := g_poss s; g_progress := false;
     g_steps := g_steps s |}.

(** One iteration of the [while progress] loop. *)
Definition pass (s : gstate) : gstate :=
  hidden_boxes (hidden_cols (hidden_rows (naked_singles (clear_progress s)))).

(** [while progress: ...]; [progress] is [True] on entry, so the body runs
    at least once.  [None] stands for a loop cut off by the fuel. *)
Fixpoint greedy_loop (fuel : nat) (s : gstate) : option gstate :=
  match fuel with
  | 0 => None
  | S fuel =>
      let s' := pass s in
      if g_progress s' then greedy_loop fuel s' else Some s'
  end.

(** [all(self.board[i][j] != 0 for i in range(9) for j in range(9))] *)
Definition all_filled (b : grid) : bool :=
  forallb (λ i, forallb (λ j, negb (Z.eqb (cell b i j) 0)) (seq 0 9)) (seq 0 9).

Definition greedy_start (s : solverSudoku) : gstate :=
  {| g_board := board s; g_poss := initialize_possibilities (board s);
     g_progress := true; g_steps := steps s |}.

Definition solve_greedy (fuel : nat) (s : solverSudoku)
    : option (bool * solverSudoku) :=
  g ← greedy_loop fuel (greedy_start s);
  Some (all_filled (g_board g),
        {| board := g_board g; steps := g_steps g; backtracks := backtracks s |}).

(** ** [find_most_constrained_cell] *)

(** [sum(1 for num in range(1, 10) if self.is_valid(i, j, num))] *)
Definition count_valid (b : grid) (i j : nat) : nat :=
  length (filter (λ num, is_valid b i j num = true) digits).

Definition mcv_step (b : grid) (i j : nat) (acc : nat * option (nat * nat))
    : nat * option (nat * nat) :=
  if Z.eqb (cell b i j) 0 then
    let possibilities := count_valid b i j in
    if Nat.ltb possibilities acc.1 then (possibilities, Some (i, j)) else acc
  else acc.

Definition find_most_constrained_cell (b : grid) : option (nat * nat) :=
  (foldl (λ acc i, foldl (λ acc j, mcv_step b i j acc) acc (seq 0 9))
     (10, None) (seq 0 9)).2.

(** ** [solve_smart_backtracking] *)

(** The loop [for num in range(1, 10)] of one invocation, over the digits
    still to be tried; [rec] is the recursive call. *)
Fixpoint try_digits (rec : solverSudoku → option (bool * solverSudoku))
    (row col : nat) (nums : list Z) (s : solverSudoku)
    : option (bool * solverSudoku) :=
  match nums with
  | [] => Some (false, s)
  | num :: nums =>
      if is_valid (board s) row col num then
        match rec (with_board s (set2 (board s) row col num)) with
        | None => None
        | Some (true, s') => Some (true, s')
        | Some (false, s') =>
            try_digits rec row col nums
              {| board := set2 (board s') row col 0%Z;
                 steps := steps s';
                 backtracks := S (backtracks s') |}
        end
      else try_digits rec row col nums s
  end.

(** [None] stands for a recursion cut off by the fuel. *)
Fixpoint solve_smart_backtracking (fuel : nat) (s : solverSudoku)
    : option (bool * solverSudoku) :=
  match fuel with
  | 0 => None
  | S fuel =>
      let s := {| board := board s; steps := S (steps s);
                  backtracks := backtracks s |} in
      match find_most_constrained_cell (board s) with
      | None => Some (true, s)
      | Some (row, col) =>
          try_digits (solve_smart_backtracking fuel) row col digits s
      end
  end.

(** ** [solve_combined] *)

Definition solve_combined (fuel : nat) (s : solverSudoku)
    : option (bool * solverSudoku) :=
  match solve_greedy fuel s with
  | None => None
  | Some (true, s') => Some (true, s')
  | Some (false, s') => solve_smart_backtracking fuel s'
  end.

(** * Facts about two-dimensional lists *)

Section matrix_facts.
Context {A : Type}.
Implicit Types (m : list (list A)).

Lemma lookup2_alter2 f m i j i' j' :
  lookup2 (alter2 f m i j) i' j' =
    if decide (i = i' ∧ j = j') then f <$> lookup2 m i' j' else lookup2 m i' j'.
Proof.
  unfold lookup2, alter2.
  destruct (decide (i = i')) as [<-|Hi].
  - rewrite list_lookup_alter_eq. destruct (m !! i) as [row|]; simpl.
    + destruct (decide (j = j')) as [<-|Hj].
      * rewrite list_lookup_alter_eq. by rewrite decide_True.
      * rewrite list_lookup_alter_ne by done. rewrite decide_False; [done|tauto].
    + by case_decide.
  - rewrite list_lookup_alter_ne by done. rewrite decide_False; [done|tauto].
Qed.

Lemma lookup2_set2 m i j v i' j' :
  lookup2 (set2 m i j v) i' j' =
    if decide (i = i' ∧ j = j') then (λ _, v) <$> lookup2 m i' j'
    else lookup2 m i' j'.
Proof.
  unfold lookup2, set2.
  destruct (decide (i = i')) as [<-|Hi].
  - rewrite list_lookup_alter_eq. destruct (m !! i) as [row|]; simpl.
    + destruct (decide (j = j')) as [<-|Hj].
      * rewrite decide_True by done.
        destruct (row !! j) eqn:E; simpl.
        -- apply list_lookup_insert_eq. by eapply lookup_lt_Some.
        -- apply lookup_ge_None. rewrite length_insert.
           by apply lookup_ge_None.
      * rewrite list_lookup_insert_ne by done.
        rewrite decide_False; [done|tauto].
    + by case_decide.
  - rewrite list_lookup_alter_ne by done. rewrite decide_False; [done|tauto].
Qed.

Lemma wf_alter2 f m i j : wf m → wf (alter2 f m i j).
Proof.
  intros [Hl Hr]. split; unfold alter2.
  - by rewrite length_alter.
  - apply Forall_lookup. intros k row Hk.
    destruct (decide (i = k)) as [<-|Hne].
    + rewrite list_lookup_alter_eq in Hk.
      destruct (m !! i) as [row'|] eqn:E; simplify_eq/=.
      rewrite length_alter. by eapply (Forall_lookup_1 _ _ _ _ Hr).
    + rewrite list_lookup_alter_ne in Hk by done.
      by eapply (Forall_lookup_1 _ _ _ _ Hr).
Qed.

Lemma wf_set2 m i j v : wf m → wf (set2 m i j v).
Proof.
  intros [Hl Hr]. split; unfold set2.
  - by rewrite length_alter.
  - apply Forall_lookup. intros k row Hk.
    destruct (decide (i = k)) as [<-|Hne].
    + rewrite list_lookup_alter_eq in Hk.
      destruct (m !! i) as [row'|] eqn:E; simplify_eq/=.
      rewrite length_insert. by eapply (Forall_lookup_1 _ _ _ _ Hr).
    + rewrite list_lookup_alter_ne in Hk by done.
      by eapply (Forall_lookup_1 _ _ _ _ Hr).
Qed.

(** On a nine by nine matrix no index below nine is out of range. *)
Lemma wf_lookup2 m i j : wf m → i < 9 → j < 9 → is_Some (lookup2 m i j).
Proof.
  intros [Hl Hr] Hi Hj. unfold lookup2.
  destruct (lookup_lt_is_Some_2 m i) as [row Hrow]; [lia|].
  rewrite Hrow. simpl. apply lookup_lt_is_Some_2.
  rewrite (Forall_lookup_1 _ _ _ _ Hr Hrow). done.
Qed.

Lemma wf_ext m1 m2 :
  wf m1 → wf m2 →
  (∀ i j, i < 9 → j < 9 → lookup2 m1 i j = lookup2 m2 i j) →
  m1 = m2.
Proof.
  intros [Hl1 Hr1] [Hl2 Hr2] Heq. apply list_eq. intros i.
  destruct (decide (i < 9)) as [Hi|Hi].
  - destruct (lookup_lt_is_Some_2 m1 i) as [r1 E1]; [lia|].
    destruct (lookup_lt_is_Some_2 m2 i) as [r2 E2]; [lia|].
    rewrite E1, E2. f_equal. apply list_eq. intros j.
    pose proof (Forall_lookup_1 _ _ _ _ Hr1 E1) as L1.
    pose proof (Forall_lookup_1 _ _ _ _ Hr2 E2) as L2.
    simpl in L1, L2.
    destruct (decide (j < 9)) as [Hj|Hj].
    + specialize (Heq i j Hi Hj). unfold lookup2 in Heq.
      by rewrite E1, E2 in Heq.
    + rewrite !lookup_ge_None_2 by lia. done.
  - rewrite !lookup_ge_None_2 by lia. done.
Qed.
End matrix_facts.

(** On a nine by nine board the read [self.board[i][j]] with indices
    below nine is within range: it yields the value [cell] stands for. *)
Lemma lookup2_cell (b : grid) i j :
  wf b → i < 9 → j < 9 → lookup2 b i j = Some (cell b i j).
Proof.
  intros Hwf Hi Hj. unfold cell.
  by destruct (wf_lookup2 b i j Hwf Hi Hj) as [x ->].
Qed.

Lemma cell_set2 b i j v i' j' :
  wf b → i < 9 → j < 9 →
  cell (set2 b i j v) i' j' = if decide (i = i' ∧ j = j') then v else cell b i' j'.
Proof.
  intros Hwf Hi Hj. unfold cell. rewrite lookup2_set2.
  case_decide as H; [|done]. destruct H as [<- <-].
  by destruct (wf_lookup2 b i j Hwf Hi Hj) as [x ->].
Qed.

Lemma pset_alter2 f p i j i' j' :
  wf p → i < 9 → j < 9 →
  pset (alter2 f p i j) i' j' =
    if decide (i = i' ∧ j = j') then f (pset p i' j') else pset p i' j'.
Proof.
  intros Hwf Hi Hj. unfold pset. rewrite lookup2_alter2.
  case_decide as H; [|done]. destruct H as [<- <-].
  by destruct (wf_lookup2 p i j Hwf Hi Hj) as [x ->].
Qed.

(** Writing back the value a cell already holds changes nothing. *)
Lemma set2_cell_id b i j :
  wf b → i < 9 → j < 9 → set2 b i j (cell b i j) = b.
Proof.
  intros Hwf Hi Hj. apply wf_ext; [by apply wf_set2|done|].
  intros i' j' Hi' Hj'. rewrite lookup2_set2.
  case_decide as H; [|done]. destruct H as [<- <-]. unfold cell.
  by destruct (wf_lookup2 b i j Hwf Hi Hj) as [x ->].
Qed.

Lemma set2_set2 (b : grid) i j v w :
  wf b → set2 (set2 b i j v) i j w = set2 b i j w.
Proof.
  intros Hwf. apply wf_ext; [by do 2 apply wf_set2|by apply wf_set2|].
  intros i' j' Hi' Hj'. rewrite !lookup2_set2.
  case_decide as H; [|done]. by destruct (lookup2 b i' j').
Qed.

(** * [is_valid] scans the row, the column and the box *)

Lemma existsb_seq_false (f : nat → bool) a n :
  existsb f (seq a n) = false ↔ ∀ k, a ≤ k < a + n → f k = false.
Proof.
  split.
  - intros H k Hk. destruct (f k) eqn:E; [|done].
    assert (existsb f (seq a n) = true) as Ht; [|congruence].
    apply existsb_exists. exists k. split; [|done]. apply in_seq. lia.
  - intros H. destruct (existsb f (seq a n)) eqn:E; [|done].
    apply existsb_exists in E as (k & Hin & Hk). apply in_seq in Hin.
    rewrite H in Hk by lia. done.
Qed.

Lemma existsb_seq_true (f : nat → bool) a n :
  existsb f (seq a n) = true ↔ ∃ k, a ≤ k < a + n ∧ f k = true.
Proof.
  rewrite existsb_exists. split; intros (k & Hk & Hf); exists k.
  - apply in_seq in Hk. split; [lia|done].
  - split; [|done]. apply in_seq. lia.
Qed.

(** The cells of the box of [(r, c)], whose origin is
    [(3 * (r / 3), 3 * (c / 3))]. *)
Definition in_box (r c i j : nat) : Prop :=
  3 * (r / 3) ≤ i < 3 * (r / 3) + 3 ∧ 3 * (c / 3) ≤ j < 3 * (c / 3) + 3.

Lemma is_valid_false_iff b r c d :
  is_valid b r c d = false ↔
    (∃ j, j < 9 ∧ cell b r j = d) ∨
    (∃ i, i < 9 ∧ cell b i c = d) ∨
    (∃ i j, in_box r c i j ∧ cell b i j = d).
Proof.
  unfold is_valid, in_box.
  destruct (existsb _ (seq 0 9)) eqn:Er.
  { apply existsb_seq_true in Er as (j & Hj & E%Z.eqb_eq).
    split; [|done]. intros _. left. exists j. split; [lia|done]. }
  destruct (existsb (λ i, Z.eqb (cell b i c) d) (seq 0 9)) eqn:Ec.
  { apply existsb_seq_true in Ec as (i & Hi & E%Z.eqb_eq).
    split; [|done]. intros _. right. left. exists i. split; [lia|done]. }
  destruct (existsb _ (seq (3 * (r / 3)) 3)) eqn:Eb.
  { apply existsb_seq_true in Eb as (i & Hi & Eb).
    apply existsb_seq_true in Eb as (j & Hj & E%Z.eqb_eq).
    split; [|done]. intros _. right. right. exists i, j. done. }
  split; [done|]. intros [(j & Hj & E)|[(i & Hi & E)|(i & j & [Hi Hj] & E)]].
  - rewrite existsb_seq_false in Er. specialize (Er j). cbv beta in Er.
    rewrite (proj2 (Z.eqb_eq _ _) E) in Er. apply Er. lia.
  - rewrite existsb_seq_false in Ec. specialize (Ec i). cbv beta in Ec.
    rewrite (proj2 (Z.eqb_eq _ _) E) in Ec. apply Ec. lia.
  - rewrite existsb_seq_false in Eb. specialize (Eb i Hi). cbv beta in Eb.
    rewrite existsb_seq_false in Eb. specialize (Eb j Hj). cbv beta in Eb.
    rewrite (proj2 (Z.eqb_eq _ _) E) in Eb. done.
Qed.

(** Two cells share a row, a column or a box. *)
Definition peer (r c i j : nat) : Prop :=
  i = r ∨ j = c ∨ (i / 3 = r / 3 ∧ j / 3 = c / 3).

#[global] Instance peer_dec r c i j : Decision (peer r c i j).
Proof. unfold peer. apply _. Defined.

Lemma in_box_div r c i j : in_box r c i j ↔ i / 3 = r / 3 ∧ j / 3 = c / 3.
Proof.
  unfold in_box.
  pose proof (Nat.div_mod_eq i 3). pose proof (Nat.div_mod_eq j 3).
  pose proof (Nat.mod_upper_bound i 3). pose proof (Nat.mod_upper_bound j 3).
  lia.
Qed.

Lemma peer_sym r c i j : peer r c i j → peer i j r c.
Proof. unfold peer. intros [->|[->|[-> ->]]]; auto. Qed.

Lemma is_valid_true_iff b r c d :
  r < 9 → c < 9 →
  is_valid b r c d = true ↔ ∀ i j, i < 9 → j < 9 → peer r c i j → cell b i j ≠ d.
Proof.
  intros Hr Hc. rewrite <-not_false_iff_true, is_valid_false_iff. split.
  - intros Hn i j Hi Hj [->|[->|Hb%in_box_div]] E; apply Hn; eauto 10.
  - intros H [(j & Hj & E)|[(i & Hi & E)|(i & j & Hb & E)]].
    + apply (H r j); unfold peer; auto.
    + apply (H i c); unfold peer; auto.
    + pose proof Hb as Hb'. apply in_box_div in Hb.
      destruct Hb' as [Hi Hj].
      pose proof (Nat.div_mod_eq r 3). pose proof (Nat.div_mod_eq c 3).
      pose proof (Nat.mod_upper_bound r 3). pose proof (Nat.mod_upper_bound c 3).
      apply (H i j); unfold peer; auto; lia.
Qed.

(** * [update_possibilities] cell by cell *)

Section alter_loops.
Context {A : Type} (f : A → A).
Implicit Types (m : list (list A)).

Lemma wf_foldl_alter2 {B} (g : B → nat * nat) m (l : list B) :
  wf m → wf (foldl (λ m x, alter2 f m (g x).1 (g x).2) m l).
Proof.
  revert m. induction l as [|x l IH]; intros m Hwf; simpl; [done|].
  apply IH. by apply wf_alter2.
Qed.

Lemma lookup2_foldl_row m r a n i j :
  lookup2 (foldl (λ m j, alter2 f m r j) m (seq a n)) i j =
    if decide (i = r ∧ a ≤ j < a + n) then f <$> lookup2 m i j
    else lookup2 m i j.
Proof.
  revert m a. induction n as [|n IH]; intros m a; simpl.
  - rewrite decide_False by lia. done.
  - rewrite IH, lookup2_alter2.
    repeat case_decide; try done; try lia; destruct_and?; subst; lia.
Qed.

Lemma lookup2_foldl_col m c a n i j :
  lookup2 (foldl (λ m i, alter2 f m i c) m (seq a n)) i j =
    if decide (j = c ∧ a ≤ i < a + n) then f <$> lookup2 m i j
    else lookup2 m i j.
Proof.
  revert m a. induction n as [|n IH]; intros m a; simpl.
  - rewrite decide_False by lia. done.
  - rewrite IH, lookup2_alter2.
    repeat case_decide; try done; try lia; destruct_and?; subst; lia.
Qed.

Lemma lookup2_foldl_box m a n b k i j :
  lookup2 (foldl (λ m i, foldl (λ m j, alter2 f m i j) m (seq b k)) m (seq a n))
    i j =
    if decide (a ≤ i < a + n ∧ b ≤ j < b + k) then f <$> lookup2 m i j
    else lookup2 m i j.
Proof.
  revert m a. induction n as [|n IH]; intros m a; simpl.
  - rewrite decide_False by lia. done.
  - rewrite IH, lookup2_foldl_row.
    repeat case_decide; try done; try lia; destruct_and?; subst; lia.
Qed.

Lemma wf_foldl_row m r l : wf m → wf (foldl (λ m j, alter2 f m r j) m l).
Proof. apply (wf_foldl_alter2 (λ j, (r, j))). Qed.

Lemma wf_foldl_col m c l : wf m → wf (foldl (λ m i, alter2 f m i c) m l).
Proof. apply (wf_foldl_alter2 (λ i, (i, c))). Qed.

Lemma wf_foldl_box m l k :
  wf m → wf (foldl (λ m i, foldl (λ m j, alter2 f m i j) m k) m l).
Proof.
  revert m. induction l as [|x l IH]; intros m Hwf; simpl; [done|].
  apply IH. by apply wf_foldl_row.
Qed.
End alter_loops.

Lemma wf_update_possibilities p r c d : wf p → wf (update_possibilities p r c d).
Proof.
  intros Hwf. unfold update_possibilities.
  apply wf_alter2, wf_foldl_box, wf_foldl_col, wf_foldl_row, Hwf.
Qed.

Lemma box_origin_bound r : r < 9 → 3 * (r / 3) + 3 ≤ 9.
Proof.
  intros Hr. pose proof (Nat.div_mod_eq r 3).
  pose proof (Nat.mod_upper_bound r 3). lia.
Qed.

Lemma lookup2_update_possibilities p r c d i j :
  lookup2 (update_possibilities p r c d) i j =
    if decide (i = r ∧ j = c) then (λ _, ∅) <$> lookup2 p i j
    else if decide ((i = r ∧ j < 9) ∨ (j = c ∧ i < 9) ∨ in_box r c i j)
    then (λ s, s ∖ {[d]}) <$> lookup2 p i j
    else lookup2 p i j.
Proof.
  unfold update_possibilities, in_box.
  rewrite lookup2_alter2, lookup2_foldl_box, lookup2_foldl_col,
    lookup2_foldl_row.
  destruct (lookup2 p i j) as [s|]; simpl; [|by repeat case_decide].
  repeat case_decide; simpl; try done; try (exfalso; lia);
    try (f_equal; set_solver).
  all: exfalso; intuition lia.
Qed.

Lemma pset_update_possibilities p r c d i j :
  wf p → r < 9 → c < 9 → i < 9 → j < 9 →
  pset (update_possibilities p r c d) i j =
    if decide (i = r ∧ j = c) then ∅
    else if decide (peer r c i j) then pset p i j ∖ {[d]}
    else pset p i j.
Proof.
  intros Hwf Hr Hc Hi Hj. unfold pset.
  rewrite lookup2_update_possibilities.
  destruct (wf_lookup2 p i j Hwf Hi Hj) as [s ->]. simpl.
  case_decide; [done|].
  destruct (decide (_ ∨ _ ∨ in_box r c i j)) as [H2|H2];
    destruct (decide (peer r c i j)) as [H3|H3]; try done; exfalso.
  - apply H3. unfold peer.
    destruct H2 as [[-> _]|[[-> _]|Hb%in_box_div]]; auto.
  - apply H2. destruct H3 as [->|[->|Hb%in_box_div]]; auto.
Qed.

(** * The propagation loop as a sequence of placements *)

(** One placement of the propagation loop: an empty cell of the board
    receives one of the digits of its possibility set. *)
Definition gstep (s s' : gstate) : Prop :=
  ∃ i j num, i < 9 ∧ j < 9 ∧ cell (g_board s) i j = 0%Z ∧
    num ∈ pset (g_poss s) i j ∧ s' = place s i j num.

Lemma rtc_foldl {S B} (R : relation S) (f : S → B → S) (l : list B) s :
  (∀ s x, x ∈ l → rtc R s (f s x)) → rtc R s (foldl f s l).
Proof.
  revert s. induction l as [|x l IH]; intros s H; simpl; [done|].
  etrans; [apply H; left|]. apply IH. intros s' y Hy. apply H. by right.
Qed.

Lemma next_iter_elem (X : gset Z) : size X = 1 → next_iter X ∈ X.
Proof.
  unfold next_iter, size, set_size. simpl. intros Hlen.
  destruct (elements X) as [|x [|y l]] eqn:E; simplify_eq/=.
  apply elem_of_elements. rewrite E. left.
Qed.

Lemma candidate_true s num i j :
  candidate s num i j = true ↔
    cell (g_board s) i j = 0%Z ∧ num ∈ pset (g_poss s) i j.
Proof.
  unfold candidate. rewrite andb_true_iff, Z.eqb_eq, bool_decide_eq_true. done.
Qed.

Lemma naked_singles_steps s : rtc gstep s (naked_singles s).
Proof.
  unfold naked_singles. apply rtc_foldl. intros s1 i Hi%elem_of_seq.
  apply rtc_foldl. intros s2 j Hj%elem_of_seq.
  destruct (_ && _) eqn:E; [|done].
  apply andb_true_iff in E as [E1%Z.eqb_eq E2%Nat.eqb_eq].
  apply rtc_once. exists i, j, (next_iter (pset (g_poss s2) i j)).
  repeat split; try lia; try done. by apply next_iter_elem.
Qed.

Lemma hidden_rows_steps s : rtc gstep s (hidden_rows s).
Proof.
  unfold hidden_rows. apply rtc_foldl. intros s1 i Hi%elem_of_seq.
  apply rtc_foldl. intros s2 num _. cbv beta zeta.
  destruct (filter _ _) as [|j [|??]] eqn:E; try done.
  assert (j ∈ filter (λ j, candidate s2 num i j = true) (seq 0 9)) as Hin.
  { rewrite E. left. }
  apply list_elem_of_filter in Hin as [[Hc Hp]%candidate_true Hj%elem_of_seq].
  apply rtc_once. exists i, j, num. repeat split; try lia; done.
Qed.

Lemma hidden_cols_steps s : rtc gstep s (hidden_cols s).
Proof.
  unfold hidden_cols. apply rtc_foldl. intros s1 j Hj%elem_of_seq.
  apply rtc_foldl. intros s2 num _. cbv beta zeta.
  destruct (filter _ _) as [|i [|??]] eqn:E; try done.
  assert (i ∈ filter (λ i, candidate s2 num i j = true) (seq 0 9)) as Hin.
  { rewrite E. left. }
  apply list_elem_of_filter in Hin as [[Hc Hp]%candidate_true Hi%elem_of_seq].
  apply rtc_once. exists i, j, num. repeat split; try lia; done.
Qed.

Lemma hidden_boxes_steps s : rtc gstep s (hidden_boxes s).
Proof.
  unfold hidden_boxes. apply rtc_foldl. intros s1 box Hbox%elem_of_seq.
  apply rtc_foldl. intros s2 num _. cbv beta zeta.
  destruct (filter _ _) as [|[i j] [|??]] eqn:E; try done.
  match type of E with filter ?P ?l = _ => assert ((i, j) ∈ filter P l) as Hin end.
  { rewrite E. left. }
  apply list_elem_of_filter in Hin as [[Hc Hp]%candidate_true Hin].
  apply list_elem_of_bind in Hin as (i' & Hin & Hi%elem_of_seq).
  apply list_elem_of_bind in Hin as (j' & Hin & Hj%elem_of_seq).
  apply list_elem_of_singleton in Hin. injection Hin as Hi' Hj'. subst i' j'.
  pose proof (Nat.div_mod_eq box 3). pose proof (Nat.mod_upper_bound box 3).
  apply rtc_once. exists i, j, num. repeat split; try lia; done.
Qed.

Lemma pass_steps s : rtc gstep (clear_progress s) (pass s).
Proof.
  unfold pass.
  etrans; [apply naked_singles_steps|].
  etrans; [apply hidden_rows_steps|].
  etrans; [apply hidden_cols_steps|].
  apply hidden_boxes_steps.
Qed.

(** * Invariants of the propagation loop *)

Lemma foldl_inv {S B} (P : S → Prop) (f : S → B → S) (l : list B) s :
  P s → (∀ s x, x ∈ l → P s → P (f s x)) → P (foldl f s l).
Proof.
  revert s. induction l as [|x l IH]; intros s Hs H; simpl; [done|].
  apply IH; [apply H; [left|done]|]. intros s' y Hy. apply H. by right.
Qed.

(** The cells in row-major order. *)
Definition all_cells : list (nat * nat) := i ← seq 0 9; j ← seq 0 9; [(i, j)].

Lemma elem_of_all_cells i j : (i, j) ∈ all_cells ↔ i < 9 ∧ j < 9.
Proof.
  unfold all_cells. rewrite list_elem_of_bind. split.
  - intros (i' & (j' & Hin & Hj%elem_of_seq)%list_elem_of_bind & Hi%elem_of_seq).
    apply list_elem_of_singleton in Hin. simplify_eq. lia.
  - intros [Hi Hj]. exists i. split; [|apply elem_of_seq; lia].
    apply list_elem_of_bind. exists j. split; [left|apply elem_of_seq; lia].
Qed.

Lemma NoDup_all_cells : NoDup all_cells.
Proof. apply (bool_decide_unpack _). by vm_compute. Qed.

(** The number of empty cells of the board. *)
Definition count_empty (b : grid) : nat :=
  length (filter (λ ij : nat * nat, cell b ij.1 ij.2 = 0%Z) all_cells).

Lemma count_empty_le b : count_empty b ≤ 81.
Proof. unfold count_empty. etrans; [apply length_filter|]. done. Qed.

Lemma filter_ext_elem {B} (P Q : B → Prop)
    `{!∀ x, Decision (P x)} `{!∀ x, Decision (Q x)} (l : list B) :
  (∀ y, y ∈ l → (P y ↔ Q y)) → filter P l = filter Q l.
Proof.
  induction l as [|y l IH]; intros Hext; [done|].
  rewrite !filter_cons. rewrite IH by (intros z Hz; apply Hext; by right).
  destruct (decide (P y)) as [Py|Py]; destruct (decide (Q y)) as [Qy|Qy];
    try done; exfalso; [apply Qy|apply Py]; apply (Hext y); by left || done.
Qed.

Lemma length_filter_remove {B} (P Q : B → Prop)
    `{!∀ x, Decision (P x)} `{!∀ x, Decision (Q x)} (l : list B) x :
  NoDup l → x ∈ l → P x → ¬ Q x → (∀ y, y ∈ l → y ≠ x → (P y ↔ Q y)) →
  length (filter P l) = S (length (filter Q l)).
Proof.
  induction l as [|y l IH]; intros Hnd Hin HP HQ Hrest.
  { by apply elem_of_nil in Hin. }
  apply NoDup_cons in Hnd as [Hy Hnd].
  apply elem_of_cons in Hin as [->|Hin].
  - rewrite filter_cons_True by done. rewrite filter_cons_False by done.
    simpl. do 2 f_equal. apply filter_ext_elem.
    intros z Hz. apply Hrest; [by right|]. intros ->. done.
  - assert (y ≠ x) as Hne by (intros ->; done).
    assert (length (filter P l) = S (length (filter Q l))) as IH'.
    { apply IH; try done. intros z Hz. apply Hrest. by right. }
    destruct (decide (P y)) as [Py|Py].
    + rewrite filter_cons_True by done.
      rewrite (filter_cons_True Q) by (apply Hrest; [left|done|done]).
      simpl. by rewrite IH'.
    + rewrite filter_cons_False by done.
      rewrite (filter_cons_False Q); [done|].
      intros Qy. apply Py, Hrest; [left|done|done].
Qed.

Lemma count_empty_set2 b i j v :
  wf b → i < 9 → j < 9 → cell b i j = 0%Z → v ≠ 0%Z →
  count_empty b = S (count_empty (set2 b i j v)).
Proof.
  intros Hwf Hi Hj Hc Hv. unfold count_empty.
  apply (length_filter_remove _ _ _ (i, j)).
  - apply NoDup_all_cells.
  - by apply elem_of_all_cells.
  - done.
  - simpl. rewrite cell_set2 by done. by rewrite decide_True.
  - intros [i' j'] _ Hne. simpl. rewrite cell_set2 by done.
    rewrite decide_False; [done|]. intros [-> ->]. done.
Qed.

(** Shape of the loop state: both matrices are nine by nine and the
    possibility sets hold digits only. *)
Definition ginv (s : gstate) : Prop :=
  wf (g_board s) ∧ wf (g_poss s) ∧
  ∀ i j d, i < 9 → j < 9 → d ∈ pset (g_poss s) i j → (1 ≤ d ≤ 9)%Z.

Lemma pset_update_subseteq p r c d i j :
  wf p → r < 9 → c < 9 → i < 9 → j < 9 →
  pset (update_possibilities p r c d) i j ⊆ pset p i j.
Proof.
  intros Hwf Hr Hc Hi Hj. rewrite pset_update_possibilities by done.
  repeat case_decide; set_solver.
Qed.

Lemma gstep_ginv s s' : ginv s → gstep s s' → ginv s'.
Proof.
  intros (Hb & Hp & Hd) (i & j & num & Hi & Hj & Hc & Hnum & ->). simpl.
  split; [by apply wf_set2|]. split; [by apply wf_update_possibilities|].
  intros i' j' d Hi' Hj' Hin. apply (Hd i' j'); [done..|].
  by apply (pset_update_subseteq (g_poss s) i j num i' j' Hp Hi Hj Hi' Hj').
Qed.

Lemma gstep_count s s' :
  ginv s → gstep s s' →
  count_empty (g_board s) = S (count_empty (g_board s')) ∧
  g_steps s' = S (g_steps s) ∧ g_progress s' = true.
Proof.
  intros (Hb & Hp & Hd) (i & j & num & Hi & Hj & Hc & Hnum & ->). simpl.
  split; [|done]. apply count_empty_set2; try done.
  specialize (Hd i j num Hi Hj Hnum). lia.
Qed.

Lemma rtc_gstep_ginv s s' : ginv s → rtc gstep s s' → ginv s'.
Proof. intros Hs Hr. induction Hr; eauto using gstep_ginv. Qed.

(** Every placement fills one empty cell and counts one step. *)
Lemma rtc_gstep_count s s' :
  ginv s → rtc gstep s s' →
  g_steps s' + count_empty (g_board s') = g_steps s + count_empty (g_board s) ∧
  (s' = s ∨ (g_progress s' = true ∧ g_steps s < g_steps s')).
Proof.
  intros Hs Hr. induction Hr as [s|s s1 s2 H1 H2 IH].
  - split; [done|by left].
  - destruct (gstep_count s s1 Hs H1) as (Hc & Hst & Hp).
    destruct (IH (gstep_ginv _ _ Hs H1)) as [IH1 IH2].
    split; [lia|]. right. destruct IH2 as [->|[? ?]]; [split; [done|lia]|].
    split; [done|lia].
Qed.

Lemma elem_of_digits d : d ∈ digits ↔ (1 ≤ d ≤ 9)%Z.
Proof. unfold digits. rewrite elem_of_seqZ. lia. Qed.

Lemma pset_replicate i j : pset (replicate 9 (replicate 9 ∅)) i j = ∅.
Proof.
  unfold pset, lookup2.
  destruct (replicate 9 (replicate 9 (∅ : gset Z)) !! i) as [row|] eqn:E;
    [|done].
  apply lookup_replicate in E as [-> _].
  change (default ∅ (replicate 9 (∅ : gset Z) !! j) = ∅).
  destruct (replicate 9 (∅ : gset Z) !! j) as [x|] eqn:E; [|done].
  by apply lookup_replicate in E as [-> _].
Qed.

(** What [initialize_possibilities] puts into a set: digits that pass
    [is_valid] at an empty cell. *)
Lemma initialize_possibilities_spec b :
  wf (initialize_possibilities b) ∧
  ∀ i j d, i < 9 → j < 9 → d ∈ pset (initialize_possibilities b) i j →
    cell b i j = 0%Z ∧ is_valid b i j d = true ∧ (1 ≤ d ≤ 9)%Z.
Proof.
  unfold initialize_possibilities.
  set (P := λ p : cands, wf p ∧
    ∀ i j d, i < 9 → j < 9 → d ∈ pset p i j →
      cell b i j = 0%Z ∧ is_valid b i j d = true ∧ (1 ≤ d ≤ 9)%Z).
  apply (foldl_inv P).
  { split; [by apply (bool_decide_unpack _)|]. intros i j d _ _.
    rewrite pset_replicate. set_solver. }
  intros p i Hi%elem_of_seq Hp. apply (foldl_inv P); [done|].
  clear p Hp. intros p j Hj%elem_of_seq Hp.
  destruct (Z.eqb_spec (cell b i j) 0) as [Hz|Hz]; [|done].
  apply (foldl_inv P); [done|].
  clear p Hp. intros p num Hnum%elem_of_digits [Hwf Hp].
  destruct (is_valid b i j num) eqn:Hv; [|done].
  split; [by apply wf_alter2|]. intros i' j' d Hi' Hj'.
  rewrite pset_alter2 by (done || lia).
  case_decide as Heq; [|by apply Hp]. destruct Heq as [<- <-].
  intros [->%elem_of_singleton|Hin]%elem_of_union; [done|by apply Hp].
Qed.

Lemma ginv_greedy_start s : wf (board s) → ginv (greedy_start s).
Proof.
  intros Hwf. destruct (initialize_possibilities_spec (board s)) as [Hp Hd].
  split; [done|]. split; [done|]. intros i j d Hi Hj Hin.
  by apply (Hd i j).
Qed.

Lemma ginv_clear_progress s : ginv s → ginv (clear_progress s).
Proof. done. Qed.

Lemma gstep_progress s s' : gstep s s' → g_progress s' = true.
Proof. by intros (i & j & num & _ & _ & _ & _ & ->). Qed.

Lemma rtc_gstep_progress s s' :
  rtc gstep s s' → g_progress s' = false → s' = s.
Proof.
  intros Hr Hp. apply rtc_inv_r in Hr as [->|(s1 & _ & Hs)]; [done|].
  apply gstep_progress in Hs. congruence.
Qed.

Lemma pass_clear_progress s : pass (clear_progress s) = pass s.
Proof.
  unfold pass.
  change (clear_progress (clear_progress s)) with (clear_progress s).
  reflexivity.
Qed.

(** A pass without progress has changed nothing, and the state it leaves
    is a fixed point of [pass]. *)
Lemma pass_no_progress s :
  g_progress (pass s) = false →
  pass s = clear_progress s ∧ pass (pass s) = pass s.
Proof.
  intros Hp. pose proof (rtc_gstep_progress _ _ (pass_steps s) Hp) as E.
  split; [exact E|]. rewrite E. rewrite pass_clear_progress. exact E.
Qed.

Lemma pass_ginv s : ginv s → ginv (pass s).
Proof.
  intros Hs. eapply rtc_gstep_ginv; [|apply pass_steps].
  by apply ginv_clear_progress.
Qed.

Lemma pass_count s :
  ginv s →
  g_steps (pass s) + count_empty (g_board (pass s)) =
    g_steps s + count_empty (g_board s) ∧
  (g_progress (pass s) = true → g_steps s < g_steps (pass s)).
Proof.
  intros Hs.
  destruct (rtc_gstep_count _ _ (ginv_clear_progress s Hs) (pass_steps s))
    as [Hc Hd].
  split; [exact Hc|]. intros Hp. destruct Hd as [E|[_ Hlt]]; [|exact Hlt].
  rewrite E in Hp. discriminate Hp.
Qed.

Lemma greedy_loop_S fuel s :
  greedy_loop (S fuel) s =
    if g_progress (pass s) then greedy_loop fuel (pass s) else Some (pass s).
Proof. reflexivity. Qed.

(** The fixed point is reached: with fuel above the number of empty cells
    the loop ends, in a state where a further pass changes nothing. *)
Lemma greedy_loop_terminates fuel s :
  ginv s → count_empty (g_board s) < fuel →
  ∃ s', greedy_loop fuel s = Some s' ∧ ginv s' ∧
    g_progress s' = false ∧ pass s' = s' ∧
    g_steps s' + count_empty (g_board s') = g_steps s + count_empty (g_board s).
Proof.
  revert s. induction fuel as [|fuel IH]; intros s Hs Hlt; [lia|].
  rewrite greedy_loop_S.
  destruct (pass_count s Hs) as [Hc Hd].
  destruct (g_progress (pass s)) eqn:Hp.
  - destruct (IH (pass s)) as (s' & E & Hi & Hp' & Hfix & Hc').
    { by apply pass_ginv. }
    { specialize (Hd eq_refl). lia. }
    exists s'. split; [exact E|]. split; [exact Hi|]. split; [exact Hp'|].
    split; [exact Hfix|]. lia.
  - exists (pass s). destruct (pass_no_progress s Hp) as [E Hfix].
    split; [reflexivity|]. split; [by apply pass_ginv|].
    split; [exact Hp|]. split; [exact Hfix|]. exact Hc.
Qed.

Lemma greedy_loop_fuel_mono fuel fuel' s s' :
  greedy_loop fuel s = Some s' → fuel ≤ fuel' → greedy_loop fuel' s = Some s'.
Proof.
  revert fuel' s. induction fuel as [|fuel IH]; intros fuel' s.
  { intros E. discriminate E. }
  intros E Hle. destruct fuel' as [|fuel']; [lia|].
  rewrite greedy_loop_S in E. rewrite greedy_loop_S.
  destruct (g_progress (pass s)); [|exact E]. apply IH; [exact E|lia].
Qed.

(** * Consistent boards *)

(** No two distinct cells of a row, a column or a box hold the same
    non-zero value. *)
Definition consistent (b : grid) : Prop :=
  ∀ i j i' j', i < 9 → j < 9 → i' < 9 → j' < 9 →
    peer i j i' j' → (i, j) ≠ (i', j') →
    cell b i j ≠ 0%Z → cell b i j ≠ cell b i' j'.

(** Every entry is in [{0, ..., 9}]. *)
Definition entries_ok (b : grid) : Prop :=
  ∀ i j, i < 9 → j < 9 → (0 ≤ cell b i j ≤ 9)%Z.

(** [b'] keeps every given of [b]. *)
Definition extends (b b' : grid) : Prop :=
  ∀ i j, i < 9 → j < 9 → cell b i j ≠ 0%Z → cell b' i j = cell b i j.

Lemma extends_refl b : extends b b.
Proof. by intros i j _ _ _. Qed.

Lemma extends_set2 b0 b r c d :
  wf b → r < 9 → c < 9 → cell b r c = 0%Z →
  extends b0 b → extends b0 (set2 b r c d).
Proof.
  intros Hwf Hr Hc Hz He i j Hi Hj Hne.
  rewrite cell_set2 by done. case_decide as Heq; [|by apply He].
  destruct Heq as [-> ->]. rewrite <-(He i j) in Hne by done. done.
Qed.

Lemma entries_ok_set2 b r c d :
  wf b → r < 9 → c < 9 → (0 ≤ d ≤ 9)%Z →
  entries_ok b → entries_ok (set2 b r c d).
Proof.
  intros Hwf Hr Hc Hd He i j Hi Hj. rewrite cell_set2 by done.
  case_decide; [done|by apply He].
Qed.

(** Placing a digit that passes [is_valid] into an empty cell keeps the
    board consistent. *)
Lemma consistent_set2 b r c d :
  wf b → r < 9 → c < 9 → is_valid b r c d = true →
  consistent b → consistent (set2 b r c d).
Proof.
  intros Hwf Hr Hc Hv Hcons i j i' j' Hi Hj Hi' Hj' Hpeer Hne.
  rewrite (is_valid_true_iff b r c d Hr Hc) in Hv.
  rewrite !cell_set2 by done.
  destruct (decide (r = i ∧ c = j)) as [[<- <-]|H1];
    destruct (decide (r = i' ∧ c = j')) as [[<- <-]|H2].
  - done.
  - intros _ E. by apply (Hv i' j').
  - intros _ E. apply (Hv i j); [done..|by apply peer_sym|done].
  - by apply Hcons.
Qed.

(** What the propagation loop keeps true of a board that started from
    [b0]: the board stays consistent, within range, an extension of [b0],
    and every digit still in the set of an empty cell passes [is_valid]. *)
Definition sinv (b0 : grid) (s : gstate) : Prop :=
  consistent (g_board s) ∧ entries_ok (g_board s) ∧ extends b0 (g_board s) ∧
  ∀ i j d, i < 9 → j < 9 → cell (g_board s) i j = 0%Z →
    d ∈ pset (g_poss s) i j → is_valid (g_board s) i j d = true.

Lemma gstep_sinv b0 s s' : ginv s → sinv b0 s → gstep s s' → sinv b0 s'.
Proof.
  intros (Hb & Hp & Hd) (Hcons & Hent & Hext & Hval)
    (i & j & num & Hi & Hj & Hc & Hnum & ->).
  unfold sinv, place. cbn [g_board g_poss].
  pose proof (Hd i j num Hi Hj Hnum) as Hrange.
  pose proof (Hval i j num Hi Hj Hc Hnum) as Hv.
  split; [by apply consistent_set2|].
  split; [apply entries_ok_set2; [done..|lia|done]|].
  split; [by apply extends_set2|].
  intros i' j' d Hi' Hj'. rewrite cell_set2 by done.
  rewrite pset_update_possibilities by done.
  destruct (decide (i = i' ∧ j = j')) as [[-> ->]|Hne]; [lia|].
  rewrite decide_False by (intros [-> ->]; by apply Hne).
  intros Hz Hin.
  assert (d ∈ pset (g_poss s) i' j' ∧ (peer i j i' j' → d ≠ num)) as [Hin' Hdn].
  { case_decide; [|done]. set_solver. }
  clear Hin. specialize (Hval i' j' d Hi' Hj' Hz Hin').
  rewrite (is_valid_true_iff (g_board s) i' j' d Hi' Hj') in Hval.
  rewrite (is_valid_true_iff _ i' j' d Hi' Hj').
  intros x y Hx Hy Hpeer. rewrite cell_set2 by done.
  case_decide as Heq; [|by apply Hval].
  destruct Heq as [<- <-]. intros ->. apply Hdn; [by apply peer_sym|done].
Qed.

Lemma rtc_gstep_sinv b0 s s' :
  ginv s → sinv b0 s → rtc gstep s s' → sinv b0 s'.
Proof.
  intros Hg Hs Hr. induction Hr; eauto using gstep_sinv, gstep_ginv.
Qed.

Lemma sinv_greedy_start s :
  consistent (board s) → entries_ok (board s) →
  sinv (board s) (greedy_start s).
Proof.
  intros Hc He. split; [done|]. split; [done|]. split; [apply extends_refl|].
  intros i j d Hi Hj _ Hin.
  by destruct (proj2 (initialize_possibilities_spec (board s)) i j d Hi Hj Hin)
    as (_ & ? & _).
Qed.

Lemma pass_sinv b0 s : ginv s → sinv b0 s → sinv b0 (pass s).
Proof.
  intros Hg Hs.
  apply (rtc_gstep_sinv b0 (clear_progress s)); [exact Hg|exact Hs|].
  apply pass_steps.
Qed.

Lemma greedy_loop_sinv b0 fuel s s' :
  ginv s → sinv b0 s → greedy_loop fuel s = Some s' → sinv b0 s'.
Proof.
  revert s. induction fuel as [|fuel IH]; intros s Hg Hs E.
  { discriminate E. }
  rewrite greedy_loop_S in E.
  destruct (g_progress (pass s)).
  - apply (IH (pass s)); [by apply pass_ginv|by apply pass_sinv|exact E].
  - apply (inj Some) in E. subst s'. by apply pass_sinv.
Qed.

Lemma greedy_loop_ginv fuel s s' :
  ginv s → greedy_loop fuel s = Some s' → ginv s'.
Proof.
  revert s. induction fuel as [|fuel IH]; intros s Hg E.
  { discriminate E. }
  rewrite greedy_loop_S in E.
  destruct (g_progress (pass s)).
  - apply (IH (pass s)); [by apply pass_ginv|exact E].
  - apply (inj Some) in E. subst s'. by apply pass_ginv.
Qed.

(** * [find_most_constrained_cell] keeps the first minimum *)

Lemma count_valid_le b i j : count_valid b i j ≤ 9.
Proof. unfold count_valid. etrans; [apply length_filter|]. done. Qed.

(** The state of the scan once the cells of row-major index below [k] have
    been visited. *)
Definition mcv_inv (b : grid) (k : nat) (acc : nat * option (nat * nat)) : Prop :=
  match acc.2 with
  | None => acc.1 = 10 ∧ ∀ i j, j < 9 → 9 * i + j < k → cell b i j ≠ 0%Z
  | Some (r, c) =>
      r < 9 ∧ c < 9 ∧ 9 * r + c < k ∧ cell b r c = 0%Z ∧
      acc.1 = count_valid b r c ∧
      ∀ i j, j < 9 → 9 * i + j < k → cell b i j = 0%Z →
        count_valid b r c ≤ count_valid b i j ∧
        (count_valid b i j = count_valid b r c → 9 * r + c ≤ 9 * i + j)
  end.

Lemma mcv_step_inv b i j acc :
  i < 9 → j < 9 →
  mcv_inv b (9 * i + j) acc → mcv_inv b (9 * i + j + 1) (mcv_step b i j acc).
Proof.
  intros Hi Hj. destruct acc as [m best]. unfold mcv_inv, mcv_step. cbn [fst snd].
  pose proof (count_valid_le b i j) as Hle.
  assert (∀ i' j', j' < 9 → 9 * i' + j' < 9 * i + j + 1 →
    9 * i' + j' < 9 * i + j ∨ (i' = i ∧ j' = j)) as Hsplit by (intros; lia).
  destruct (Z.eqb_spec (cell b i j) 0) as [Hz|Hz].
  - destruct (Nat.ltb_spec (count_valid b i j) m) as [Hlt|Hge]; cbn [fst snd].
    + intros Hinv. split; [done|]. split; [done|]. split; [lia|].
      split; [done|]. split; [done|]. intros i' j' Hj' Hk Hz'.
      destruct (Hsplit i' j' Hj' Hk) as [Hold|[-> ->]]; [|lia].
      destruct best as [[r c]|].
      * destruct Hinv as (_ & _ & Hrc & _ & -> & Hmin).
        destruct (Hmin i' j' Hj' Hold Hz') as [H1 H2]. lia.
      * destruct Hinv as [_ Hnone]. by destruct (Hnone i' j' Hj' Hold).
    + destruct best as [[r c]|].
      * intros (Hr & Hc & Hrc & Hz0 & -> & Hmin).
        repeat (split; [done || lia|]). intros i' j' Hj' Hk Hz'.
        destruct (Hsplit i' j' Hj' Hk) as [Hold|[-> ->]]; [by apply Hmin|lia].
      * intros [-> _]. lia.
  - destruct best as [[r c]|].
    + intros (Hr & Hc & Hrc & Hz0 & -> & Hmin).
      repeat (split; [done || lia|]). intros i' j' Hj' Hk Hz'.
      destruct (Hsplit i' j' Hj' Hk) as [Hold|[-> ->]]; [by apply Hmin|done].
    + intros [-> Hnone]. split; [done|]. intros i' j' Hj' Hk.
      destruct (Hsplit i' j' Hj' Hk) as [Hold|[-> ->]]; [by apply Hnone|done].
Qed.

Lemma foldl_seq_S {S} (f : S → nat → S) x a n :
  foldl f x (seq a (Datatypes.S n)) = foldl f (f x a) (seq (Datatypes.S a) n).
Proof. reflexivity. Qed.

Lemma mcv_row_inv b i a n acc :
  i < 9 → a + n ≤ 9 →
  mcv_inv b (9 * i + a) acc →
  mcv_inv b (9 * i + a + n) (foldl (λ acc j, mcv_step b i j acc) acc (seq a n)).
Proof.
  intros Hi. revert a acc. induction n as [|n IH]; intros a acc Han Hinv.
  { by rewrite Nat.add_0_r. }
  rewrite foldl_seq_S. replace (9 * i + a + S n) with (9 * i + S a + n) by lia.
  apply IH; [lia|]. replace (9 * i + S a) with (9 * i + a + 1) by lia.
  apply mcv_step_inv; [done|lia|done].
Qed.

Lemma mcv_rows_inv b a n acc :
  a + n ≤ 9 →
  mcv_inv b (9 * a) acc →
  mcv_inv b (9 * (a + n))
    (foldl (λ acc i, foldl (λ acc j, mcv_step b i j acc) acc (seq 0 9)) acc
       (seq a n)).
Proof.
  revert a acc. induction n as [|n IH]; intros a acc Han Hinv.
  { by rewrite Nat.add_0_r. }
  rewrite foldl_seq_S. replace (a + S n) with (S a + n) by lia.
  apply IH; [lia|]. replace (9 * S a) with (9 * a + 0 + 9) by lia.
  apply (mcv_row_inv b a 0 9 acc); [lia|lia|]. by rewrite Nat.add_0_r.
Qed.

Lemma find_most_constrained_cell_inv b :
  ∃ m, mcv_inv b 81 (m, find_most_constrained_cell b).
Proof.
  unfold find_most_constrained_cell.
  pose proof (mcv_rows_inv b 0 9 (10, None)) as H.
  destruct (foldl _ _ _) as [m best]. exists m. apply H; [lia|].
  split; [done|]. intros i j _ Hk. lia.
Qed.

Lemma find_most_constrained_cell_None b :
  find_most_constrained_cell b = None ↔
    ∀ i j, i < 9 → j < 9 → cell b i j ≠ 0%Z.
Proof.
  destruct (find_most_constrained_cell_inv b) as [m Hinv].
  unfold mcv_inv in Hinv. cbn [fst snd] in Hinv.
  destruct (find_most_constrained_cell b) as [[r c]|].
  - destruct Hinv as (Hr & Hc & _ & Hz & _). split; [done|].
    intros H. by destruct (H r c Hr Hc).
  - destruct Hinv as [_ H]. split; [|done]. intros _ i j Hi Hj.
    apply H; lia.
Qed.

Lemma find_most_constrained_cell_Some b r c :
  find_most_constrained_cell b = Some (r, c) →
  r < 9 ∧ c < 9 ∧ cell b r c = 0%Z ∧
  ∀ i j, i < 9 → j < 9 → cell b i j = 0%Z →
    count_valid b r c ≤ count_valid b i j ∧
    (count_valid b i j = count_valid b r c → 9 * r + c ≤ 9 * i + j).
Proof.
  intros E. destruct (find_most_constrained_cell_inv b) as [m Hinv].
  rewrite E in Hinv. destruct Hinv as (Hr & Hc & _ & Hz & _ & Hmin).
  repeat (split; [done|]). intros i j Hi Hj. apply Hmin; lia.
Qed.

(** * The backtracking search *)

Lemma extends_trans b1 b2 b3 : extends b1 b2 → extends b2 b3 → extends b1 b3.
Proof.
  intros H12 H23 i j Hi Hj Hne. rewrite <-(H12 i j Hi Hj Hne).
  apply H23; [done..|]. by rewrite (H12 i j Hi Hj Hne).
Qed.

(** No cell of the nine by nine board is empty. *)
Definition full (b : grid) : Prop := ∀ i j, i < 9 → j < 9 → cell b i j ≠ 0%Z.

(** What one invocation of the search guarantees about the board [b'] it
    leaves, having started from [b] and returned [r]. *)
Definition bt_post (b : grid) (r : bool) (b' : grid) : Prop :=
  wf b' ∧
  if r then
    extends b b' ∧ full b' ∧
    (consistent b → entries_ok b → consistent b' ∧ entries_ok b')
  else b' = b.

Definition bt_ok (rec : solverSudoku → option (bool * solverSudoku)) : Prop :=
  ∀ s r s', wf (board s) → rec s = Some (r, s') →
    bt_post (board s) r (board s').

Lemma try_digits_cons rec row col num nums s :
  try_digits rec row col (num :: nums) s =
    if is_valid (board s) row col num then
      match rec (with_board s (set2 (board s) row col num)) with
      | None => None
      | Some (true, s') => Some (true, s')
      | Some (false, s') =>
          try_digits rec row col nums
            {| board := set2 (board s') row col 0%Z;
               steps := steps s';
               backtracks := S (backtracks s') |}
      end
    else try_digits rec row col nums s.
Proof. reflexivity. Qed.

Lemma solve_smart_backtracking_S fuel s :
  solve_smart_backtracking (S fuel) s =
    let s1 := {| board := board s; steps := S (steps s);
                 backtracks := backtracks s |} in
    match find_most_constrained_cell (board s) with
    | None => Some (true, s1)
    | Some (row, col) =>
        try_digits (solve_smart_backtracking fuel) row col digits s1
    end.
Proof. reflexivity. Qed.

(** Undoing a placement gives back the board the placement started from. *)
Lemma set2_undo b r c num :
  wf b → r < 9 → c < 9 → cell b r c = 0%Z →
  set2 (set2 b r c num) r c 0%Z = b.
Proof.
  intros Hwf Hr Hc Hz. rewrite set2_set2 by done.
  rewrite <-Hz. by apply set2_cell_id.
Qed.

Lemma try_digits_post rec row col nums s r s' :
  bt_ok rec → row < 9 → col < 9 →
  (∀ num, num ∈ nums → (1 ≤ num ≤ 9)%Z) →
  wf (board s) → cell (board s) row col = 0%Z →
  try_digits rec row col nums s = Some (r, s') →
  bt_post (board s) r (board s').
Proof.
  intros Hrec Hrow Hcol. revert s.
  induction nums as [|num nums IH]; intros s Hnums Hwf Hz E.
  { apply (inj Some) in E. apply pair_equal_spec in E as [<- <-]. by split. }
  rewrite try_digits_cons in E.
  assert (∀ n, n ∈ nums → (1 ≤ n ≤ 9)%Z) as Hnums'.
  { intros n Hn. apply Hnums. by right. }
  destruct (is_valid (board s) row col num) eqn:Hv; [|by apply IH].
  destruct (rec _) as [[[] s1]|] eqn:Erec; [| |done].
  - apply (inj Some) in E. apply pair_equal_spec in E as [<- <-].
    apply Hrec in Erec; [|by apply wf_set2]. cbn [with_board board] in Erec.
    destruct Erec as (Hwf1 & Hext & Hfull & Hcons). split; [done|].
    split.
    { eapply extends_trans; [|exact Hext].
      apply extends_set2; [done..|apply extends_refl]. }
    split; [done|]. intros Hc He. apply Hcons.
    + by apply consistent_set2.
    + apply entries_ok_set2; try done.
      specialize (Hnums num (list_elem_of_here _ _)). lia.
  - apply Hrec in Erec; [|by apply wf_set2]. cbn [with_board board] in Erec.
    destruct Erec as [Hwf1 Eb].
    apply IH in E; [|done|cbn [board]..].
    + cbn [board] in E. rewrite Eb, set2_undo in E by done. done.
    + rewrite Eb, set2_undo by done. done.
    + rewrite Eb, set2_undo by done. done.
Qed.

Lemma solve_smart_backtracking_ok fuel : bt_ok (solve_smart_backtracking fuel).
Proof.
  induction fuel as [|fuel IH]; intros s r s' Hwf E; [done|].
  rewrite solve_smart_backtracking_S in E. cbv zeta in E. cbn [board] in E.
  destruct (find_most_constrained_cell (board s)) as [[row col]|] eqn:Ec.
  - apply find_most_constrained_cell_Some in Ec as (Hrow & Hcol & Hz & _).
    apply (try_digits_post _ row col digits _ r s' IH) in E; try done.
    intros num. apply elem_of_digits.
  - apply (inj Some) in E. apply pair_equal_spec in E as [<- <-].
    cbn [board]. split; [done|]. split; [apply extends_refl|].
    split; [exact (proj1 (find_most_constrained_cell_None _) Ec)|done].
Qed.

(** With fuel above the number of empty cells the search returns. *)
Lemma try_digits_total rec row col nums s fuel :
  bt_ok rec →
  (∀ s, wf (board s) → count_empty (board s) < fuel → is_Some (rec s)) →
  row < 9 → col < 9 →
  (∀ num, num ∈ nums → (1 ≤ num ≤ 9)%Z) →
  wf (board s) → cell (board s) row col = 0%Z →
  count_empty (board s) ≤ fuel →
  is_Some (try_digits rec row col nums s).
Proof.
  intros Hrec Htot Hrow Hcol. revert s.
  induction nums as [|num nums IH]; intros s Hnums Hwf Hz Hc; [by eexists|].
  rewrite try_digits_cons.
  assert (∀ n, n ∈ nums → (1 ≤ n ≤ 9)%Z) as Hnums'.
  { intros n Hn. apply Hnums. by right. }
  destruct (is_valid (board s) row col num) eqn:Hv; [|by apply IH].
  pose proof (Hnums num (list_elem_of_here _ _)) as Hnum.
  destruct (Htot (with_board s (set2 (board s) row col num))) as [[r s1] Erec].
  { by apply wf_set2. }
  { cbn [with_board board].
    rewrite (count_empty_set2 (board s) row col num) in Hc by (done || lia).
    lia. }
  rewrite Erec. destruct r; [by eexists|].
  apply Hrec in Erec; [|by apply wf_set2]. cbn [with_board board] in Erec.
  destruct Erec as [Hwf1 Eb].
  apply IH; [done|cbn [board]; rewrite Eb, set2_undo by done; done..].
Qed.

Lemma solve_smart_backtracking_total fuel s :
  wf (board s) → count_empty (board s) < fuel →
  is_Some (solve_smart_backtracking fuel s).
Proof.
  revert s. induction fuel as [|fuel IH]; intros s Hwf Hc; [lia|].
  rewrite solve_smart_backtracking_S. cbv zeta. cbn [board].
  destruct (find_most_constrained_cell (board s)) as [[row col]|] eqn:Ec;
    [|by eexists].
  apply find_most_constrained_cell_Some in Ec as (Hrow & Hcol & Hz & _).
  apply (try_digits_total _ row col digits _ fuel); try done.
  - apply solve_smart_backtracking_ok.
  - intros num. apply elem_of_digits.
  - cbn [board]. lia.
Qed.

Lemma try_digits_mono rec rec' row col nums s res :
  (∀ s res, rec s = Some res → rec' s = Some res) →
  try_digits rec row col nums s = Some res →
  try_digits rec' row col nums s = Some res.
Proof.
  intros Hrec. revert s. induction nums as [|num nums IH]; intros s E; [done|].
  rewrite try_digits_cons in E. rewrite try_digits_cons.
  destruct (is_valid (board s) row col num); [|by apply IH].
  destruct (rec _) as [[r s1]|] eqn:Erec; [|done].
  rewrite (Hrec _ _ Erec). destruct r; [done|by apply IH].
Qed.

Lemma solve_smart_backtracking_fuel_mono fuel fuel' s res :
  solve_smart_backtracking fuel s = Some res → fuel ≤ fuel' →
  solve_smart_backtracking fuel' s = Some res.
Proof.
  revert fuel' s res. induction fuel as [|fuel IH]; intros fuel' s res E Hle;
    [done|].
  destruct fuel' as [|fuel']; [lia|].
  rewrite solve_smart_backtracking_S in E.
  rewrite solve_smart_backtracking_S. cbv zeta in *.
  destruct (find_most_constrained_cell _) as [[row col]|]; [|done].
  eapply try_digits_mono; [|exact E]. intros s1 res1 E1.
  apply IH; [done|lia].
Qed.

(** * Solved boards *)

Definition row_cells (i : nat) : list (nat * nat) := (λ j, (i, j)) <$> seq 0 9.
Definition col_cells (j : nat) : list (nat * nat) := (λ i, (i, j)) <$> seq 0 9.
Definition box_cells (k : nat) : list (nat * nat) :=
  i ← seq (3 * (k / 3)) 3; j ← seq (3 * (k mod 3)) 3; [(i, j)].

(** The twenty-seven constraint groups. *)
Definition groups : list (list (nat * nat)) :=
  (row_cells <$> seq 0 9) ++ (col_cells <$> seq 0 9) ++ (box_cells <$> seq 0 9).

Definition group_vals (b : grid) (g : list (nat * nat)) : list Z :=
  (λ ij, cell b ij.1 ij.2) <$> g.

(** The number of occurrences of [d] in [l]. *)
Definition count_in (d : Z) (l : list Z) : nat := length (filter (λ x, x = d) l).

(** Every cell holds a digit and every group holds every digit once. *)
Definition solved (b : grid) : Prop :=
  Forall (λ ij : nat * nat, (1 ≤ cell b ij.1 ij.2 ≤ 9)%Z) all_cells ∧
  Forall (λ g, Forall (λ d, count_in d (group_vals b g) = 1) digits) groups.

#[global] Instance solved_dec b : Decision (solved b).
Proof. unfold solved. apply _. Defined.

(** [consistent], [entries_ok] and [full] as checks over the list of
    cells, which makes them decidable. *)
Lemma consistent_Forall b :
  consistent b ↔
  Forall (λ x : nat * nat, Forall (λ y : nat * nat,
    peer x.1 x.2 y.1 y.2 → x ≠ y → cell b x.1 x.2 ≠ 0%Z →
    cell b x.1 x.2 ≠ cell b y.1 y.2) all_cells) all_cells.
Proof.
  rewrite Forall_forall. setoid_rewrite Forall_forall. unfold consistent. split.
  - intros H [i j] [Hi Hj]%elem_of_all_cells [i' j'] [Hi' Hj']%elem_of_all_cells.
    by apply H.
  - intros H i j i' j' Hi Hj Hi' Hj'.
    apply (H (i, j) (proj2 (elem_of_all_cells i j) (conj Hi Hj))
             (i', j') (proj2 (elem_of_all_cells i' j') (conj Hi' Hj'))).
Qed.

Lemma entries_ok_Forall b :
  entries_ok b ↔ Forall (λ x : nat * nat, (0 ≤ cell b x.1 x.2 ≤ 9)%Z) all_cells.
Proof.
  rewrite Forall_forall. unfold entries_ok. split.
  - intros H [i j] [Hi Hj]%elem_of_all_cells. by apply H.
  - intros H i j Hi Hj. apply (H (i, j)). by apply elem_of_all_cells.
Qed.

Lemma full_Forall b :
  full b ↔ Forall (λ x : nat * nat, cell b x.1 x.2 ≠ 0%Z) all_cells.
Proof.
  rewrite Forall_forall. unfold full. split.
  - intros H [i j] [Hi Hj]%elem_of_all_cells. by apply H.
  - intros H i j Hi Hj. apply (H (i, j)). by apply elem_of_all_cells.
Qed.

#[global] Instance consistent_dec b : Decision (consistent b).
Proof.
  refine (cast_if (decide (Forall (λ x : nat * nat, Forall (λ y : nat * nat,
    peer x.1 x.2 y.1 y.2 → x ≠ y → cell b x.1 x.2 ≠ 0%Z →
    cell b x.1 x.2 ≠ cell b y.1 y.2) all_cells) all_cells)));
    by rewrite consistent_Forall.
Defined.

#[global] Instance entries_ok_dec b : Decision (entries_ok b).
Proof.
  refine (cast_if (decide
    (Forall (λ x : nat * nat, (0 ≤ cell b x.1 x.2 ≤ 9)%Z) all_cells)));
    by rewrite entries_ok_Forall.
Defined.

#[global] Instance full_dec b : Decision (full b).
Proof.
  refine (cast_if (decide
    (Forall (λ x : nat * nat, cell b x.1 x.2 ≠ 0%Z) all_cells)));
    by rewrite full_Forall.
Defined.

Lemma all_filled_full b : all_filled b = true ↔ full b.
Proof.
  unfold all_filled, full. rewrite forallb_forall. split.
  - intros H i j Hi Hj. specialize (H i). rewrite forallb_forall in H.
    assert (In i (seq 0 9)) as Hi' by (apply in_seq; lia).
    assert (In j (seq 0 9)) as Hj' by (apply in_seq; lia).
    specialize (H Hi' j Hj'). apply negb_true_iff in H.
    by apply Z.eqb_neq.
  - intros H i Hi%in_seq. apply forallb_forall. intros j Hj%in_seq.
    apply negb_true_iff, Z.eqb_neq, H; lia.
Qed.

(** What the groups are: nine distinct cells of the board each, any two of
    them peers. *)
Lemma groups_shape :
  Forall (λ g : list (nat * nat),
    NoDup g ∧ length g = 9 ∧
    Forall (λ x : nat * nat, x.1 < 9 ∧ x.2 < 9 ∧
      Forall (λ y : nat * nat, peer x.1 x.2 y.1 y.2) g) g) groups.
Proof. apply (bool_decide_unpack _). by vm_compute. Qed.

Lemma count_in_digits : Forall (λ d, count_in d digits = 1) digits.
Proof. apply (bool_decide_unpack _). by vm_compute. Qed.

(** A consistent board without empty cells, all entries within range, is
    solved: nine distinct digits fill each group. *)
Lemma consistent_full_solved b :
  consistent b → entries_ok b → full b → solved b.
Proof.
  intros Hcons Hent Hfull.
  assert (∀ i j, i < 9 → j < 9 → (1 ≤ cell b i j ≤ 9)%Z) as Hdig.
  { intros i j Hi Hj. specialize (Hent i j Hi Hj).
    specialize (Hfull i j Hi Hj). lia. }
  split.
  { apply Forall_forall. intros [i j] [Hi Hj]%elem_of_all_cells.
    by apply Hdig. }
  apply Forall_forall. intros g Hg.
  pose proof (proj1 (Forall_forall _ _) groups_shape g Hg) as (Hnd & Hlen & Hsh).
  rewrite Forall_forall in Hsh.
  assert (group_vals b g ≡ₚ digits) as Hperm.
  { apply submseteq_length_Permutation.
    - apply NoDup_submseteq.
      + apply NoDup_fmap_2_strong; [|done].
        intros [i j] [i' j'] Hx Hy E. cbn [fst snd] in E.
        destruct (decide ((i, j) = (i', j'))) as [|Hne]; [done|exfalso].
        destruct (Hsh _ Hx) as (Hi & Hj & Hp). cbn [fst snd] in *.
        rewrite Forall_forall in Hp. specialize (Hp _ Hy).
        destruct (Hsh _ Hy) as (Hi' & Hj' & _). cbn [fst snd] in *.
        apply (Hcons i j i' j'); try done. specialize (Hdig i j Hi Hj). lia.
      + intros v ([i j] & -> & Hx)%list_elem_of_fmap.
        destruct (Hsh _ Hx) as (Hi & Hj & _). cbn [fst snd] in *.
        apply elem_of_digits. by apply Hdig.
    - unfold group_vals. rewrite length_fmap, Hlen. done. }
  apply Forall_forall. intros d Hd. unfold count_in. rewrite Hperm.
  by apply (proj1 (Forall_forall _ _) count_in_digits).
Qed.

(** * The propagation loop, pass by pass *)

(** The loop runs [k + 1] passes, where [k], the number of passes that
    made progress, is at most the number of empty cells. *)
Lemma greedy_loop_passes n s :
  ginv s → count_empty (g_board s) ≤ n →
  ∃ k g, k ≤ count_empty (g_board s) ∧
    greedy_loop (S k) s = Some g ∧
    (∀ fuel, fuel ≤ k → greedy_loop fuel s = None) ∧
    g_progress g = false ∧ pass g = g ∧
    g_steps g + count_empty (g_board g) = g_steps s + count_empty (g_board s).
Proof.
  revert s. induction n as [|n IH]; intros s Hs Hn.
  all: destruct (pass_count s Hs) as [Hc Hd].
  all: destruct (g_progress (pass s)) eqn:Hp.
  all: try (specialize (Hd eq_refl); lia).
  1,3: exists 0, (pass s); destruct (pass_no_progress s Hp) as [E Hfix];
    split; [lia|]; split; [by rewrite greedy_loop_S, Hp|];
    split; [by intros [|?] ?; [|lia]|]; split; [exact Hp|];
    split; [exact Hfix|exact Hc].
  specialize (Hd eq_refl).
  destruct (IH (pass s)) as (k & g & Hk & E & Hnone & Hpg & Hfix & Hcg).
  { by apply pass_ginv. }
  { lia. }
  exists (S k), g. split; [lia|]. split; [by rewrite greedy_loop_S, Hp|].
  split.
  { intros [|fuel] Hf; [reflexivity|]. rewrite greedy_loop_S, Hp.
    apply Hnone. lia. }
  split; [exact Hpg|]. split; [exact Hfix|]. lia.
Qed.

Lemma board_init b : board (init b) = b.
Proof. unfold init. cbn [board]. apply list_fmap_id. Qed.

Lemma solve_greedy_unfold fuel s g :
  greedy_loop fuel (greedy_start s) = Some g →
  solve_greedy fuel s =
    Some (all_filled (g_board g),
          {| board := g_board g; steps := g_steps g;
             backtracks := backtracks s |}).
Proof. intros E. unfold solve_greedy. rewrite E. reflexivity. Qed.

Lemma solve_greedy_inv fuel s r s' :
  solve_greedy fuel s = Some (r, s') →
  ∃ g, greedy_loop fuel (greedy_start s) = Some g ∧
    r = all_filled (g_board g) ∧ board s' = g_board g ∧
    steps s' = g_steps g ∧ backtracks s' = backtracks s.
Proof.
  unfold solve_greedy. intros E.
  destruct (greedy_loop fuel (greedy_start s)) as [g|]; [|discriminate E].
  exists g. split; [reflexivity|]. cbn [mbind option_bind] in E.
  apply (inj Some) in E. apply pair_equal_spec in E as [<- <-]. done.
Qed.

(** On a board without empty cells no placement is possible. *)
Lemma rtc_gstep_full s s' : full (g_board s) → rtc gstep s s' → s' = s.
Proof.
  intros Hfull Hr. destruct Hr as [|s s1 s2 Hstep _]; [reflexivity|].
  destruct Hstep as (i & j & num & Hi & Hj & Hz & _). by destruct (Hfull i j).
Qed.

Lemma solved_full b : solved b → full b.
Proof.
  intros [Hdig _] i j Hi Hj. rewrite Forall_forall in Hdig.
  specialize (Hdig (i, j) (proj2 (elem_of_all_cells i j) (conj Hi Hj))).
  cbn [fst snd] in Hdig. lia.
Qed.

Lemma not_full_empty_cell b :
  ¬ full b ↔ ∃ i j, i < 9 ∧ j < 9 ∧ cell b i j = 0%Z.
Proof.
  split.
  - rewrite full_Forall. intros H%not_Forall_Exists; [|apply _].
    apply Exists_exists in H as ([i j] & [Hi Hj]%elem_of_all_cells & Hz).
    exists i, j. cbn [fst snd] in Hz.
    destruct (decide (cell b i j = 0%Z)); [done|]. by destruct Hz.
  - intros (i & j & Hi & Hj & Hz) Hfull. by destruct (Hfull i j).
Qed.

(** * Boards used as examples *)

Definition empty_board : grid := replicate 9 (replicate 9 0%Z).

(** A puzzle that propagation alone completes. *)
Definition easy : grid :=
  [[5; 3; 0; 0; 7; 0; 0; 0; 0];
   [6; 0; 0; 1; 9; 5; 0; 0; 0];
   [0; 9; 8; 0; 0; 0; 0; 6; 0];
   [8; 0; 0; 0; 6; 0; 0; 0; 3];
   [4; 0; 0; 8; 0; 3; 0; 0; 1];
   [7; 0; 0; 0; 2; 0; 0; 0; 6];
   [0; 6; 0; 0; 0; 0; 2; 8; 0];
   [0; 0; 0; 4; 1; 9; 0; 0; 5];
   [0; 0; 0; 0; 8; 0; 0; 7; 9]]%Z.

(** Its solution. *)
Definition easy_solved : grid :=
  [[5; 3; 4; 6; 7; 8; 9; 1; 2];
   [6; 7; 2; 1; 9; 5; 3; 4; 8];
   [1; 9; 8; 3; 4; 2; 5; 6; 7];
   [8; 5; 9; 7; 6; 1; 4; 2; 3];
   [4; 2; 6; 8; 5; 3; 7; 9; 1];
   [7; 1; 3; 9; 2; 4; 8; 5; 6];
   [9; 6; 1; 5; 3; 7; 2; 8; 4];
   [2; 8; 7; 4; 1; 9; 6; 3; 5];
   [3; 4; 5; 2; 8; 6; 1; 7; 9]]%Z.

(** A full board that breaks every constraint. *)
Definition fives : grid := replicate 9 (replicate 9 5%Z).

(** Consistent givens without a completion: the last cell of the first
    row can only take 9, which its column already holds. *)
Definition stuck : grid :=
  [[1; 2; 3; 4; 5; 6; 7; 8; 0];
   [0; 0; 0; 0; 0; 0; 0; 0; 9];
   [0; 0; 0; 0; 0; 0; 0; 0; 0];
   [0; 0; 0; 0; 0; 0; 0; 0; 0];
   [0; 0; 0; 0; 0; 0; 0; 0; 0];
   [0; 0; 0; 0; 0; 0; 0; 0; 0];
   [0; 0; 0; 0; 0; 0; 0; 0; 0];
   [0; 0; 0; 0; 0; 0; 0; 0; 0];
   [0; 0; 0; 0; 0; 0; 0; 0; 0]]%Z.

(** Consistent givens on which the search has to undo a placement: the
    last two cells of the first row can both take 8 only.  The search puts
    8 in the first of them, finds the second without a candidate, and
    takes the 8 back. *)
Definition dead_pair : grid :=
  [[1; 2; 3; 4; 5; 6; 7; 0; 0];
   [0; 0; 0; 0; 0; 0; 0; 0; 0];
   [0; 0; 0; 0; 0; 0; 0; 0; 0];
   [0; 0; 0; 0; 0; 0; 0; 0; 9];
   [0; 0; 0; 0; 0; 0; 0; 0; 0];
   [0; 0; 0; 0; 0; 0; 0; 0; 0];
   [0; 0; 0; 0; 0; 0; 0; 9; 0];
   [0; 0; 0; 0; 0; 0; 0; 0; 0];
   [0; 0; 0; 0; 0; 0; 0; 0; 0]]%Z.

(** A solvable board on which the first digit the search tries is wrong:
    the seventh cell of the first row takes 7 or 8, the two after it 7 or
    9, so 7 in the seventh cell leaves both of them 9 only. *)
Definition wrong_first : grid :=
  [[1; 2; 3; 4; 5; 6; 0; 0; 0];
   [0; 0; 0; 0; 0; 0; 0; 0; 0];
   [0; 0; 0; 0; 0; 0; 0; 0; 0];
   [0; 0; 0; 0; 0; 0; 9; 0; 0];
   [0; 0; 0; 0; 0; 0; 0; 8; 0];
   [0; 0; 0; 0; 0; 0; 0; 0; 0];
   [0; 0; 0; 0; 0; 0; 0; 0; 8];
   [0; 0; 0; 0; 0; 0; 0; 0; 0];
   [0; 0; 0; 0; 0; 0; 0; 0; 0]]%Z.

Definition wrong_first_solved : grid :=
  [[1; 2; 3; 4; 5; 6; 8; 7; 9];
   [4; 5; 6; 7; 8; 9; 1; 2; 3];
   [7; 8; 9; 1; 2; 3; 4; 5; 6];
   [5; 3; 7; 6; 4; 8; 9; 1; 2];
   [2; 9; 1; 3; 7; 5; 6; 8; 4];
   [6; 4; 8; 2; 9; 1; 5; 3; 7];
   [3; 6; 5; 9; 1; 2; 7; 4; 8];
   [9; 1; 4; 8; 3; 7; 2; 6; 5];
   [8; 7; 2; 5; 6; 4; 3; 9; 1]]%Z.

Ltac by_compute := apply (bool_decide_unpack _); vm_compute; exact I.

(** * The claims *)

(** C3: on a nine by nine board, for a cell [(r, c)] and a digit [d],
    [is_valid] returns false exactly when [d] occurs in row [r], in column
    [c] or in the box of [(r, c)], whose origin is
    [(3 * (r / 3), 3 * (c / 3))], and true otherwise; on the all-zero board
    [is_valid 0 0 d] is true, and once 5 is placed at [(0, 0)] the digit 5
    is rejected at [(0, 1)], [(1, 0)] and [(1, 1)]. *)
Theorem C3_is_valid (b : grid) (r c : nat) (d : Z) :
  wf b → r < 9 → c < 9 → (1 ≤ d ≤ 9)%Z →
  (is_valid b r c d = false ↔
     (∃ j, j < 9 ∧ cell b r j = d) ∨
     (∃ i, i < 9 ∧ cell b i c = d) ∨
     (∃ i j, in_box r c i j ∧ cell b i j = d)) ∧
  (is_valid b r c d = true ↔
     (∀ j, j < 9 → cell b r j ≠ d) ∧
     (∀ i, i < 9 → cell b i c ≠ d) ∧
     (∀ i j, in_box r c i j → cell b i j ≠ d)) ∧
  is_valid empty_board 0 0 d = true ∧
  is_valid (set2 empty_board 0 0 5%Z) 0 1 5%Z = false ∧
  is_valid (set2 empty_board 0 0 5%Z) 1 0 5%Z = false ∧
  is_valid (set2 empty_board 0 0 5%Z) 1 1 5%Z = false.
Proof.
  intros Hwf Hr Hc Hd. split; [apply is_valid_false_iff|]. split.
  - rewrite <-not_false_iff_true, is_valid_false_iff. split.
    + intros Hn. repeat split; intros; intros E; apply Hn; eauto 10.
    + intros (H1 & H2 & H3) [(j & Hj & E)|[(i & Hi & E)|(i & j & Hb & E)]].
      * by apply (H1 j).
      * by apply (H2 i).
      * by apply (H3 i j).
  - split; [|by vm_compute].
    assert (d ∈ digits) as Hin by by apply elem_of_digits.
    clear Hd. revert d Hin. apply Forall_forall. by_compute.
Qed.

Lemma C3_is_valid_witness :
  wf easy ∧ 0 < 9 ∧ 2 < 9 ∧ (1 ≤ 5 ≤ 9)%Z ∧ is_valid easy 0 2 5%Z = false.
Proof.
  assert (wf easy) as Hwf by by_compute.
  assert (0 < 9) as Hr by lia. assert (2 < 9) as Hc by lia.
  assert (1 ≤ 5 ≤ 9)%Z as Hd by lia.
  repeat (split; [assumption|]).
  apply (proj1 (C3_is_valid easy 0 2 5%Z Hwf Hr Hc Hd)).
  left. exists 0. split; [lia|reflexivity].
Defined.

(** C4: [solve_greedy] returns true exactly when the board on which the
    propagation loop reached its fixed point has no empty cell, and false
    when some cell of that board still holds 0. *)
Theorem C4_solve_greedy_result (s : solverSudoku) (fuel : nat) :
  wf (board s) → count_empty (board s) < fuel →
  ∃ g r s',
    greedy_loop fuel (greedy_start s) = Some g ∧
    pass g = g ∧ g_progress g = false ∧
    solve_greedy fuel s = Some (r, s') ∧ board s' = g_board g ∧
    (r = true ↔ full (g_board g)) ∧
    (r = false ↔ ∃ i j, i < 9 ∧ j < 9 ∧ cell (g_board g) i j = 0%Z).
Proof.
  intros Hwf Hfuel.
  destruct (greedy_loop_terminates fuel (greedy_start s))
    as (g & E & _ & Hp & Hfix & _); [by apply ginv_greedy_start|done|].
  exists g, (all_filled (g_board g)),
    {| board := g_board g; steps := g_steps g; backtracks := backtracks s |}.
  split; [exact E|]. split; [exact Hfix|]. split; [exact Hp|].
  split; [by apply solve_greedy_unfold|]. split; [reflexivity|].
  split; [apply all_filled_full|].
  rewrite <-not_full_empty_cell, <-all_filled_full.
  by destruct (all_filled (g_board g)).
Qed.

Lemma C4_solve_greedy_result_witness :
  wf (board (init easy)) ∧ count_empty (board (init easy)) < 82 ∧
  ∃ r s', solve_greedy 82 (init easy) = Some (r, s').
Proof.
  assert (wf (board (init easy))) as Hwf by by_compute.
  assert (count_empty (board (init easy)) < 82) as Hc.
  { pose proof (count_empty_le (board (init easy))). lia. }
  split; [exact Hwf|]. split; [exact Hc|].
  destruct (C4_solve_greedy_result (init easy) 82 Hwf Hc)
    as (g & r & s' & _ & _ & _ & E & _).
  exists r, s'. exact E.
Defined.

(** C5: the propagation loop of [solve_greedy] terminates.  It goes on
    only after a pass that reported progress; every placement fills one
    of the at most 81 empty cells; so after [k] passes with progress, [k]
    at most the number of empty cells, pass [k + 1] places nothing and the
    loop ends on a fixed point of [pass]. *)
Theorem C5_greedy_loop_terminates (s : solverSudoku) :
  wf (board s) →
  (∀ fuel s0, greedy_loop (S fuel) s0 =
     if g_progress (pass s0) then greedy_loop fuel (pass s0)
     else Some (pass s0)) ∧
  ∃ k g,
    k ≤ count_empty (board s) ∧ count_empty (board s) ≤ 81 ∧
    (∀ fuel, fuel ≤ k → greedy_loop fuel (greedy_start s) = None) ∧
    (∀ fuel, k < fuel → greedy_loop fuel (greedy_start s) = Some g) ∧
    g_progress g = false ∧ pass g = g ∧
    g_steps g + count_empty (g_board g) = steps s + count_empty (board s).
Proof.
  intros Hwf. split; [apply greedy_loop_S|].
  destruct (greedy_loop_passes 81 (greedy_start s))
    as (k & g & Hk & E & Hnone & Hp & Hfix & Hc).
  { by apply ginv_greedy_start. }
  { apply count_empty_le. }
  exists k, g. split; [exact Hk|]. split; [apply count_empty_le|].
  split; [exact Hnone|]. split; [|done].
  intros fuel Hf. apply (greedy_loop_fuel_mono (S k)); [exact E|lia].
Qed.

Lemma C5_greedy_loop_terminates_witness :
  wf (board (init easy)) ∧
  ∃ g, greedy_loop 82 (greedy_start (init easy)) = Some g ∧ pass g = g.
Proof.
  assert (wf (board (init easy))) as Hwf by by_compute.
  split; [exact Hwf|].
  destruct (C5_greedy_loop_terminates (init easy) Hwf)
    as (_ & k & g & Hk & Hle & _ & E & _ & Hfix & _).
  exists g. split; [apply E; lia|exact Hfix].
Defined.

(** C6: [find_most_constrained_cell] returns none exactly when the board
    has no empty cell; otherwise it returns an empty cell whose number of
    digits passing [is_valid] is minimal among the empty cells, and among
    the empty cells with that minimal number the first one in row-major
    order. *)
Theorem C6_find_most_constrained_cell (b : grid) :
  wf b →
  (find_most_constrained_cell b = None ↔ full b) ∧
  ((∃ i j, i < 9 ∧ j < 9 ∧ cell b i j = 0%Z) →
     is_Some (find_most_constrained_cell b)) ∧
  ∀ r c, find_most_constrained_cell b = Some (r, c) →
    r < 9 ∧ c < 9 ∧ cell b r c = 0%Z ∧
    ∀ i j, i < 9 → j < 9 → cell b i j = 0%Z →
      count_valid b r c ≤ count_valid b i j ∧
      (count_valid b i j = count_valid b r c → r < i ∨ (r = i ∧ c ≤ j)).
Proof.
  intros _. split; [apply find_most_constrained_cell_None|]. split.
  - intros Hex%not_full_empty_cell.
    destruct (find_most_constrained_cell b) eqn:E; [by eexists|].
    destruct Hex. exact (proj1 (find_most_constrained_cell_None b) E).
  - intros r c E.
    apply find_most_constrained_cell_Some in E as (Hr & Hc & Hz & Hmin).
    repeat (split; [done|]). intros i j Hi Hj Hz'.
    destruct (Hmin i j Hi Hj Hz') as [H1 H2]. split; [done|].
    intros Heq. specialize (H2 Heq). lia.
Qed.

Lemma C6_find_most_constrained_cell_witness :
  wf easy ∧ find_most_constrained_cell easy = Some (4, 4) ∧
  count_valid easy 4 4 ≤ count_valid easy 0 2.
Proof.
  assert (wf easy) as Hwf by by_compute.
  assert (find_most_constrained_cell easy = Some (4, 4)) as E
    by (vm_compute; reflexivity).
  split; [exact Hwf|]. split; [exact E|].
  destruct (C6_find_most_constrained_cell easy Hwf) as (_ & _ & H).
  destruct (H 4 4 E) as (_ & _ & _ & Hmin).
  apply (Hmin 0 2); [lia|lia|reflexivity].
Defined.

Lemma update_possibilities_idemp p r c d :
  wf p →
  update_possibilities (update_possibilities p r c d) r c d =
    update_possibilities p r c d.
Proof.
  intros Hwf. apply wf_ext; [by do 2 apply wf_update_possibilities
                            |by apply wf_update_possibilities|].
  intros i j _ _. rewrite !lookup2_update_possibilities.
  destruct (lookup2 p i j) as [X|]; [|by repeat case_decide].
  repeat case_decide; try done. cbn. f_equal. set_solver.
Qed.

(** C7: [update_possibilities(matrix, r, c, d)] leaves a matrix in which
    [d] is in no set of row [r], of column [c] or of the box of [(r, c)],
    the set at [(r, c)] is empty, the sets of the other cells of these
    groups have lost [d] and nothing else, and every other set is
    unchanged; a second application changes nothing. *)
Theorem C7_update_possibilities (p : cands) (r c : nat) (d : Z) :
  wf p → r < 9 → c < 9 →
  (∀ i j, i < 9 → j < 9 → peer r c i j →
     d ∉ pset (update_possibilities p r c d) i j) ∧
  pset (update_possibilities p r c d) r c = ∅ ∧
  (∀ i j, i < 9 → j < 9 → peer r c i j → (i, j) ≠ (r, c) →
     pset (update_possibilities p r c d) i j = pset p i j ∖ {[d]}) ∧
  (∀ i j, i < 9 → j < 9 → ¬ peer r c i j →
     pset (update_possibilities p r c d) i j = pset p i j) ∧
  (∀ i j, i < 9 → j < 9 → d ∉ pset p i j → (i, j) ≠ (r, c) →
     pset (update_possibilities p r c d) i j = pset p i j) ∧
  update_possibilities (update_possibilities p r c d) r c d =
    update_possibilities p r c d.
Proof.
  intros Hwf Hr Hc.
  assert (peer r c r c) as Hself by by left.
  split; [|split; [|split; [|split; [|split]]]].
  - intros i j Hi Hj Hp. rewrite pset_update_possibilities by done.
    rewrite (decide_True _ _ Hp). case_decide; set_solver.
  - rewrite pset_update_possibilities by done. by rewrite decide_True.
  - intros i j Hi Hj Hp Hne. rewrite pset_update_possibilities by done.
    rewrite (decide_True _ _ Hp). rewrite decide_False; [done|].
    intros [-> ->]. done.
  - intros i j Hi Hj Hp. rewrite pset_update_possibilities by done.
    rewrite (decide_False _ _ Hp). rewrite decide_False; [done|].
    intros [-> ->]. done.
  - intros i j Hi Hj Hd Hne. rewrite pset_update_possibilities by done.
    rewrite decide_False by (intros [-> ->]; done).
    case_decide; [|done]. set_solver.
  - by apply update_possibilities_idemp.
Qed.

Lemma C7_update_possibilities_witness :
  wf (initialize_possibilities easy) ∧ 0 < 9 ∧ 2 < 9 ∧
  pset (update_possibilities (initialize_possibilities easy) 0 2 4%Z) 0 2 = ∅.
Proof.
  assert (wf (initialize_possibilities easy)) as Hwf by by_compute.
  assert (0 < 9) as Hr by lia. assert (2 < 9) as Hc by lia.
  repeat (split; [assumption|]).
  apply (C7_update_possibilities _ 0 2 4%Z Hwf Hr Hc).
Defined.

(** Every invocation of the search counts at least one step. *)
Lemma try_digits_steps rec row col nums s r s' :
  (∀ s r s', rec s = Some (r, s') → steps s < steps s') →
  try_digits rec row col nums s = Some (r, s') → steps s ≤ steps s'.
Proof.
  intros Hrec. revert s. induction nums as [|num nums IH]; intros s E.
  { apply (inj Some) in E. apply pair_equal_spec in E as [_ <-]. done. }
  rewrite try_digits_cons in E.
  destruct (is_valid (board s) row col num); [|by apply IH].
  destruct (rec _) as [[[] s1]|] eqn:Erec; [| |done].
  - apply (inj Some) in E. apply pair_equal_spec in E as [_ <-].
    apply Hrec in Erec. cbn [with_board steps] in Erec. lia.
  - apply Hrec in Erec. cbn [with_board steps] in Erec.
    apply IH in E. cbn [steps] in E. lia.
Qed.

Lemma solve_smart_backtracking_steps fuel s r s' :
  solve_smart_backtracking fuel s = Some (r, s') → steps s < steps s'.
Proof.
  revert s r s'. induction fuel as [|fuel IH]; intros s r s' E; [done|].
  rewrite solve_smart_backtracking_S in E. cbv zeta in E.
  destruct (find_most_constrained_cell _) as [[row col]|].
  - apply try_digits_steps in E; [|exact IH]. cbn [steps] in E. lia.
  - apply (inj Some) in E. apply pair_equal_spec in E as [_ <-].
    cbn [steps]. lia.
Qed.

Lemma solve_greedy_full fuel s :
  wf (board s) → full (board s) → 0 < fuel →
  solve_greedy fuel s = Some (true, s).
Proof.
  intros Hwf Hfull Hfuel. destruct fuel as [|fuel]; [lia|].
  pose proof (rtc_gstep_full (clear_progress (greedy_start s)) _ Hfull
                (pass_steps (greedy_start s))) as Hpass.
  rewrite (solve_greedy_unfold _ _ (clear_progress (greedy_start s))).
  - cbn [clear_progress greedy_start g_board g_steps].
    rewrite (proj2 (all_filled_full _) Hfull). by destruct s.
  - rewrite greedy_loop_S, Hpass. reflexivity.
Qed.

(** C8: on a board that is already solved [solve_combined] returns true
    and changes nothing: the board and both counters are as before, so no
    digit was placed and the search, each invocation of which counts a
    step, was not entered. *)
Theorem C8_solve_combined_solved (s : solverSudoku) (fuel : nat) :
  wf (board s) → solved (board s) → 0 < fuel →
  solve_combined fuel s = Some (true, s) ∧
  solve_greedy fuel s = Some (true, s) ∧
  ∀ f s0 r s1, solve_smart_backtracking f s0 = Some (r, s1) →
    steps s0 < steps s1.
Proof.
  intros Hwf Hsolved Hfuel.
  pose proof (solve_greedy_full fuel s Hwf (solved_full _ Hsolved) Hfuel) as E.
  split; [|split; [exact E|apply solve_smart_backtracking_steps]].
  unfold solve_combined. rewrite E. reflexivity.
Qed.

Lemma C8_solve_combined_solved_witness :
  wf (board (init easy_solved)) ∧ solved (board (init easy_solved)) ∧ 0 < 1 ∧
  solve_combined 1 (init easy_solved) = Some (true, init easy_solved).
Proof.
  assert (wf (board (init easy_solved))) as Hwf by by_compute.
  assert (solved (board (init easy_solved))) as Hs by by_compute.
  assert (0 < 1) as Hf by lia.
  repeat (split; [assumption|]).
  apply (C8_solve_combined_solved (init easy_solved) 1 Hwf Hs Hf).
Defined.

(** C10: when an invocation of [solve_smart_backtracking] returns false,
    the board is the one the invocation started from. *)
Theorem C10_failed_search_restores (fuel : nat) (s s' : solverSudoku) :
  wf (board s) →
  solve_smart_backtracking fuel s = Some (false, s') →
  board s' = board s.
Proof.
  intros Hwf E. by destruct (solve_smart_backtracking_ok fuel s false s' Hwf E).
Qed.

(** The run on [dead_pair] places 8 at row 0, column 7, fails one level
    down and resets the cell: two invocations, one backtrack. *)
Lemma C10_failed_search_restores_witness :
  wf (board (init dead_pair)) ∧
  solve_smart_backtracking 82 (init dead_pair) =
    Some (false, {| board := dead_pair; steps := 2; backtracks := 1 |}) ∧
  board {| board := dead_pair; steps := 2; backtracks := 1 |} =
    board (init dead_pair).
Proof.
  assert (wf (board (init dead_pair))) as Hwf by by_compute.
  assert (solve_smart_backtracking 82 (init dead_pair) =
    Some (false, {| board := dead_pair; steps := 2; backtracks := 1 |})) as E
    by (vm_compute; reflexivity).
  split; [exact Hwf|]. split; [exact E|].
  apply (C10_failed_search_restores 82 (init dead_pair) _ Hwf E).
Defined.

(** * Soundness and completeness of [solve_combined] on consistent givens *)

Lemma solve_greedy_sound fuel s r s' :
  wf (board s) → entries_ok (board s) → consistent (board s) →
  solve_greedy fuel s = Some (r, s') →
  wf (board s') ∧ extends (board s) (board s') ∧
  consistent (board s') ∧ entries_ok (board s') ∧
  (r = true ↔ full (board s')).
Proof.
  intros Hwf Hent Hcons E.
  apply solve_greedy_inv in E as (g & Eg & -> & Hb & _ & _). rewrite Hb.
  pose proof (greedy_loop_ginv _ _ _ (ginv_greedy_start s Hwf) Eg) as (Hwfg & _).
  pose proof (greedy_loop_sinv (board s) _ _ _ (ginv_greedy_start s Hwf)
                (sinv_greedy_start s Hcons Hent) Eg) as (Hc & He & Hx & _).
  repeat (split; [assumption|]). apply all_filled_full.
Qed.

Lemma solve_combined_sound fuel s s' :
  wf (board s) → entries_ok (board s) → consistent (board s) →
  solve_combined fuel s = Some (true, s') →
  wf (board s') ∧ extends (board s) (board s') ∧ solved (board s').
Proof.
  intros Hwf Hent Hcons E. unfold solve_combined in E.
  destruct (solve_greedy fuel s) as [[r1 s1]|] eqn:Eg; [|discriminate E].
  apply solve_greedy_sound in Eg as (Hwf1 & Hx1 & Hc1 & He1 & Hf1); try done.
  destruct r1.
  - apply (inj Some) in E. apply pair_equal_spec in E as [_ <-].
    split; [done|]. split; [done|].
    apply consistent_full_solved; [done..|]. by apply Hf1.
  - apply solve_smart_backtracking_ok in E as (Hwf2 & Hx2 & Hf2 & Hpres);
      [|done].
    destruct (Hpres Hc1 He1) as [Hc2 He2]. split; [done|].
    split; [by eapply extends_trans|]. by apply consistent_full_solved.
Qed.

Lemma solve_combined_total fuel s :
  wf (board s) → 82 ≤ fuel → is_Some (solve_combined fuel s).
Proof.
  intros Hwf Hfuel. unfold solve_combined.
  destruct (greedy_loop_terminates fuel (greedy_start s))
    as (g & Eg & (Hwfg & _) & _); [by apply ginv_greedy_start|..].
  { pose proof (count_empty_le (board s)). cbn [greedy_start g_board]. lia. }
  rewrite (solve_greedy_unfold _ _ _ Eg).
  destruct (all_filled (g_board g)); [by eexists|].
  apply solve_smart_backtracking_total; cbn [board]; [done|].
  pose proof (count_empty_le (g_board g)). lia.
Qed.

(** C1, amended: for a nine by nine input grid with entries in
    [{0, ..., 9}] whose givens are consistent (no non-zero digit twice in a
    row, a column or a box), if [solve_combined] returns true then every
    cell holds a digit 1-9 and every row, every column and every box
    holds each digit 1-9 exactly once. *)
Theorem C1_solve_combined_sound (b : grid) (fuel : nat) (s' : solverSudoku) :
  wf b → entries_ok b → consistent b →
  solve_combined fuel (init b) = Some (true, s') →
  solved (board s').
Proof.
  intros Hwf Hent Hcons E.
  apply solve_combined_sound in E as (_ & _ & Hs); rewrite ?board_init; done.
Qed.

Lemma C1_solve_combined_sound_witness :
  wf easy ∧ entries_ok easy ∧ consistent easy ∧
  solve_combined 82 (init easy) =
    Some (true, {| board := easy_solved; steps := 51; backtracks := 0 |}) ∧
  solved (board {| board := easy_solved; steps := 51; backtracks := 0 |}).
Proof.
  assert (wf easy) as Hwf by by_compute.
  assert (entries_ok easy) as Hent by by_compute.
  assert (consistent easy) as Hcons by by_compute.
  assert (solve_combined 82 (init easy) =
    Some (true, {| board := easy_solved; steps := 51; backtracks := 0 |})) as E
    by (vm_compute; reflexivity).
  repeat (split; [assumption|]).
  apply (C1_solve_combined_sound easy 82 _ Hwf Hent Hcons E).
Defined.

(** C1 as stated fails: on the full grid of fives, whose entries are in
    range, [solve_combined] returns true (no cell is empty, so the
    propagation loop places nothing and the final check succeeds), and the
    board is not solved. *)
Lemma C1_counterexample :
  wf fives ∧ entries_ok fives ∧
  solve_combined 82 (init fives) =
    Some (true, {| board := fives; steps := 0; backtracks := 0 |}) ∧
  ¬ solved (board {| board := fives; steps := 0; backtracks := 0 |}).
Proof.
  split; [by_compute|]. split; [by_compute|].
  split; [vm_compute; reflexivity|].
  apply (proj1 (bool_decide_eq_false _)). vm_compute. reflexivity.
Qed.

(** In a solved board two cells of a row differ, and so do two cells of a
    column. *)
Lemma count_in_pos d l : d ∈ l → 1 ≤ count_in d l.
Proof.
  intros Hin. unfold count_in.
  assert (d ∈ filter (λ x, x = d) l) as Hf by by apply list_elem_of_filter.
  destruct (filter _ l); [by apply elem_of_nil in Hf|cbn; lia].
Qed.

Lemma count_in_cons d x l :
  count_in d (x :: l) = (if decide (x = d) then 1 else 0) + count_in d l.
Proof. unfold count_in. rewrite filter_cons. by case_decide. Qed.

Lemma count_in_two d l p q :
  p < q → l !! p = Some d → l !! q = Some d → 2 ≤ count_in d l.
Proof.
  revert p q. induction l as [|x l IH]; intros p q Hlt Hp Hq; [done|].
  rewrite count_in_cons. destruct q as [|q]; [lia|]. destruct p as [|p].
  - cbn in Hp, Hq. apply (inj Some) in Hp as ->. rewrite decide_True by done.
    apply list_elem_of_lookup_2, count_in_pos in Hq. lia.
  - cbn in Hp, Hq. assert (p < q) as Hlt' by lia.
    specialize (IH p q Hlt' Hp Hq). case_decide; lia.
Qed.

Lemma solved_group b g j j' :
  solved b → g ∈ groups → j < j' →
  is_Some (g !! j) → is_Some (g !! j') →
  (∀ i c, g !! j = Some (i, c) → i < 9 ∧ c < 9) →
  group_vals b g !! j ≠ group_vals b g !! j'.
Proof.
  intros [Hdig Hg] Hin Hlt [[i c] Ej] [[i' c'] Ej'] Hrange E.
  rewrite Forall_forall in Hg. specialize (Hg g Hin).
  rewrite Forall_forall in Hg. rewrite Forall_forall in Hdig.
  destruct (Hrange i c Ej) as [Hi Hc].
  specialize (Hdig (i, c) (proj2 (elem_of_all_cells i c) (conj Hi Hc))).
  cbn [fst snd] in Hdig. apply elem_of_digits in Hdig.
  specialize (Hg _ Hdig).
  unfold group_vals in E. rewrite !list_lookup_fmap, Ej, Ej' in E.
  cbn in E. apply (inj Some) in E.
  assert (2 ≤ count_in (cell b i c) (group_vals b g)); [|lia].
  apply (count_in_two _ _ j j' Hlt); unfold group_vals;
    rewrite list_lookup_fmap; [by rewrite Ej|by rewrite Ej', E].
Qed.

Lemma row_cells_lookup i j : j < 9 → row_cells i !! j = Some (i, j).
Proof.
  intros Hj. unfold row_cells. rewrite list_lookup_fmap.
  by rewrite lookup_seq_lt.
Qed.

Lemma col_cells_lookup j i : i < 9 → col_cells j !! i = Some (i, j).
Proof.
  intros Hi. unfold col_cells. rewrite list_lookup_fmap.
  by rewrite lookup_seq_lt.
Qed.

Lemma solved_row_distinct b i j j' :
  solved b → i < 9 → j < j' → j' < 9 → cell b i j ≠ cell b i j'.
Proof.
  intros Hs Hi Hlt Hj' E.
  apply (solved_group b (row_cells i) j j' Hs); try done.
  - apply elem_of_app. left. apply list_elem_of_fmap. exists i.
    split; [done|apply elem_of_seq; lia].
  - rewrite row_cells_lookup by lia. by eexists.
  - rewrite row_cells_lookup by lia. by eexists.
  - intros i0 c. rewrite row_cells_lookup by lia. intros [= <- <-]. lia.
  - unfold group_vals. rewrite !list_lookup_fmap, !row_cells_lookup by lia.
    cbn. by rewrite E.
Qed.

Lemma solved_col_distinct b j i i' :
  solved b → j < 9 → i < i' → i' < 9 → cell b i j ≠ cell b i' j.
Proof.
  intros Hs Hj Hlt Hi' E.
  apply (solved_group b (col_cells j) i i' Hs); try done.
  - apply elem_of_app. right. apply elem_of_app. left.
    apply list_elem_of_fmap. exists j. split; [done|apply elem_of_seq; lia].
  - rewrite col_cells_lookup by lia. by eexists.
  - rewrite col_cells_lookup by lia. by eexists.
  - intros i0 c. rewrite col_cells_lookup by lia. intros [= <- <-]. lia.
  - unfold group_vals. rewrite !list_lookup_fmap, !col_cells_lookup by lia.
    cbn. by rewrite E.
Qed.

Lemma solved_digit b i j : solved b → i < 9 → j < 9 → (1 ≤ cell b i j ≤ 9)%Z.
Proof.
  intros [Hdig _] Hi Hj. rewrite Forall_forall in Hdig.
  apply (Hdig (i, j)). by apply elem_of_all_cells.
Qed.

(** C2, amended: for a nine by nine input grid with entries in
    [{0, ..., 9}] whose givens are consistent and which admits no legal
    completion (no nine by nine board that keeps its givens is solved),
    [solve_combined] returns false: it returns for every fuel from 82 on
    (the loop makes at most 82 passes, the recursion is at most 82 deep),
    and what it returns is false.  Every index the methods use is below
    nine and the board stays nine by nine, so no access is out of
    range. *)
Theorem C2_solve_combined_complete (b : grid) (fuel : nat) :
  wf b → entries_ok b → consistent b →
  (∀ b', wf b' → extends b b' → ¬ solved b') →
  82 ≤ fuel →
  ∃ s', solve_combined fuel (init b) = Some (false, s').
Proof.
  intros Hwf Hent Hcons Hnone Hfuel.
  destruct (solve_combined_total fuel (init b)) as [[r s'] E].
  { by rewrite board_init. }
  { done. }
  destruct r; [|by exists s'].
  apply solve_combined_sound in E as (Hwf' & Hx & Hs);
    rewrite ?board_init in *; try done.
  by destruct (Hnone (board s')).
Qed.

Lemma stuck_no_completion b' : wf b' → extends stuck b' → ¬ solved b'.
Proof.
  intros _ Hx Hs.
  assert (∀ j, j < 8 → cell b' 0 j = Z.of_nat (S j)) as Hrow.
  { intros j Hj. rewrite (Hx 0 j) by
      (try lia; do 8 (destruct j as [|j]; [by vm_compute|]); lia).
    do 8 (destruct j as [|j]; [reflexivity|]). lia. }
  assert (cell b' 1 8 = 9%Z) as Hnine.
  { by rewrite (Hx 1 8) by (try lia; by vm_compute). }
  pose proof (solved_digit b' 0 8 Hs) as Hd.
  assert (∀ j, j < 8 → cell b' 0 8 ≠ Z.of_nat (S j)) as Hne.
  { intros j Hj E.
    assert (cell b' 0 j = cell b' 0 8) as E' by by rewrite Hrow, E.
    revert E'. apply (solved_row_distinct b' 0 j 8 Hs); lia. }
  assert (cell b' 0 8 = 9%Z) as E.
  { pose proof (Hne 0). pose proof (Hne 1). pose proof (Hne 2).
    pose proof (Hne 3). pose proof (Hne 4). pose proof (Hne 5).
    pose proof (Hne 6). pose proof (Hne 7). lia. }
  assert (cell b' 0 8 = cell b' 1 8) as E' by by rewrite E, Hnine.
  revert E'. apply (solved_col_distinct b' 8 0 1 Hs); lia.
Qed.

Lemma C2_solve_combined_complete_witness :
  wf stuck ∧ entries_ok stuck ∧ consistent stuck ∧
  (∀ b', wf b' → extends stuck b' → ¬ solved b') ∧ 82 ≤ 82 ∧
  ∃ s', solve_combined 82 (init stuck) = Some (false, s').
Proof.
  assert (wf stuck) as Hwf by by_compute.
  assert (entries_ok stuck) as Hent by by_compute.
  assert (consistent stuck) as Hcons by by_compute.
  assert (82 ≤ 82) as Hfuel by lia.
  split; [exact Hwf|]. split; [exact Hent|]. split; [exact Hcons|].
  split; [exact stuck_no_completion|]. split; [exact Hfuel|].
  apply (C2_solve_combined_complete stuck 82 Hwf Hent Hcons
           stuck_no_completion Hfuel).
Defined.

(** C2 as stated fails: the full grid of fives has entries in range and no
    legal completion, since any board that keeps its givens repeats 5 in
    the first row, and [solve_combined] returns true on it. *)
Lemma C2_counterexample :
  wf fives ∧ entries_ok fives ∧
  (∀ b', wf b' → extends fives b' → ¬ solved b') ∧
  solve_combined 82 (init fives) =
    Some (true, {| board := fives; steps := 0; backtracks := 0 |}).
Proof.
  split; [by_compute|]. split; [by_compute|].
  split; [|vm_compute; reflexivity].
  intros b' _ Hx Hs.
  assert (cell b' 0 0 = cell b' 0 1) as E.
  { rewrite (Hx 0 0), (Hx 0 1) by (try lia; by vm_compute). reflexivity. }
  revert E. apply (solved_row_distinct b' 0 0 1 Hs); lia.
Qed.

(** * The methods keep the board nine by nine and return *)

Lemma solve_greedy_wf fuel s r s' :
  wf (board s) → solve_greedy fuel s = Some (r, s') → wf (board s').
Proof.
  intros Hwf E. apply solve_greedy_inv in E as (g & Eg & _ & -> & _).
  by destruct (greedy_loop_ginv _ _ _ (ginv_greedy_start s Hwf) Eg).
Qed.

Lemma solve_smart_backtracking_wf fuel s r s' :
  wf (board s) → solve_smart_backtracking fuel s = Some (r, s') →
  wf (board s').
Proof.
  intros Hwf E. by destruct (solve_smart_backtracking_ok fuel s r s' Hwf E).
Qed.

Lemma solve_combined_wf fuel s r s' :
  wf (board s) → solve_combined fuel s = Some (r, s') → wf (board s').
Proof.
  intros Hwf E. unfold solve_combined in E.
  destruct (solve_greedy fuel s) as [[r1 s1]|] eqn:Eg; [|discriminate E].
  apply solve_greedy_wf in Eg; [|done]. destruct r1.
  - apply (inj Some) in E. by apply pair_equal_spec in E as [_ <-].
  - by eapply solve_smart_backtracking_wf.
Qed.

Lemma solve_greedy_total fuel s :
  wf (board s) → 82 ≤ fuel → is_Some (solve_greedy fuel s).
Proof.
  intros Hwf Hfuel.
  destruct (greedy_loop_terminates fuel (greedy_start s))
    as (g & Eg & _); [by apply ginv_greedy_start|..].
  { pose proof (count_empty_le (board s)). cbn [greedy_start g_board]. lia. }
  rewrite (solve_greedy_unfold _ _ _ Eg). by eexists.
Qed.


(** * The caller's grid and the solver's copy

    Python lists are objects: the caller's grid is a list object whose
    elements refer to nine row objects, and [__init__] stores in
    [self.board] a new list of copies [row[:]] of these rows.  The heap
    below holds list objects by location; the solver refers to its board
    by location, and every read or write of [self.board[i][j]] goes
    through that reference. *)

Module Heap.

Inductive obj :=
  | ORow (r : list Z)          (* a list of integers *)
  | OList (rs : list nat).     (* a list of references to rows *)

Abbreviation heap := (gmap nat obj).

Definition alloc (h : heap) (o : obj) : heap * nat :=
  let l := fresh (dom h) in (<[l := o]> h, l).

Definition read_row (h : heap) (l : nat) : option (list Z) :=
  match h !! l with Some (ORow r) => Some r | _ => None end.

Definition read_list (h : heap) (l : nat) : option (list nat) :=
  match h !! l with Some (OList rs) => Some rs | _ => None end.

(** The grid seen through the reference [o]. *)
Definition load (h : heap) (o : nat) : option grid :=
  rs ← read_list h o; mapM (read_row h) rs.

(** [[row[:] for row in board]]: one new row object per row. *)
Fixpoint copy_rows (h : heap) (rs : list nat) : option (heap * list nat) :=
  match rs with
  | [] => Some (h, [])
  | l :: rs =>
      r ← read_row h l;
      let '(h1, l') := alloc h (ORow r) in
      '(h2, ls) ← copy_rows h1 rs;
      Some (h2, l' :: ls)
  end.

(** The solver object: [self.board] is a reference. *)
Record hsolver := HSolver {
  h_board : nat;
  h_steps : nat;
  h_backtracks : nat
}.

(** [__init__(board)], [input] being the reference the caller passes. *)
Definition h_init (h : heap) (input : nat) : option (heap * hsolver) :=
  rs ← read_list h input;
  '(h1, ls) ← copy_rows h rs;
  let '(h2, o) := alloc h1 (OList ls) in
  Some (h2, {| h_board := o; h_steps := 0; h_backtracks := 0 |}).

(** [self.board[i][j] = v]: the row object [self.board[i]] is updated in
    place. *)
Definition h_set_cell (h : heap) (o : nat) (i j : nat) (v : Z) : option heap :=
  rs ← read_list h o;
  l ← rs !! i;
  r ← read_row h l;
  if decide (j < length r) then Some (<[l := ORow (<[j := v]> r)]> h) else None.

(** The rows of the solver's board after a method has run. *)
Fixpoint write_rows (h : heap) (ls : list nat) (b : grid) : heap :=
  match ls, b with
  | l :: ls, r :: b => write_rows (<[l := ORow r]> h) ls b
  | _, _ => h
  end.

(** [getFinishedBoard]: the cells are appended one by one to a new list,
    which is then cut into nine rows of nine.  The array holds the
    integers themselves as long as they fit in 64 bits; statements about
    the returned value assume that they do. *)
Definition getFinishedBoard (b : grid) : grid :=
  let newBoard :=
    i ← seq 0 (length b); j ← seq 0 (length b); [cell b i j] in
  (λ k, take 9 (drop (9 * k) newBoard)) <$> seq 0 9.

Inductive op :=
  | Op_solve_combined
  | Op_solve_greedy
  | Op_solve_smart_backtracking
  | Op_getFinishedBoard.

Inductive result :=
  | RBool (r : bool)
  | RBoard (b : grid).

(** A method call on the solver object: the board is read through
    [self.board], the method runs, and its writes, all of the form
    [self.board[i][j] = v], end up in the rows [self.board] refers to.
    [getFinishedBoard] writes to a new object only. *)
Definition run_op (fuel : nat) (o : op) (st : heap * hsolver)
    : option (result * (heap * hsolver)) :=
  let '(h, hs) := st in
  rs ← read_list h (h_board hs);
  b ← mapM (read_row h) rs;
  let s := {| board := b; steps := h_steps hs;
              backtracks := h_backtracks hs |} in
  let finish (res : option (bool * solverSudoku)) :=
    '(r, s') ← res;
    Some (RBool r,
          (write_rows h rs (board s'),
           {| h_board := h_board hs; h_steps := steps s';
              h_backtracks := backtracks s' |})) in
  match o with
  | Op_solve_combined => finish (solve_combined fuel s)
  | Op_solve_greedy => finish (solve_greedy fuel s)
  | Op_solve_smart_backtracking => finish (solve_smart_backtracking fuel s)
  | Op_getFinishedBoard => Some (RBoard (getFinishedBoard b), (h, hs))
  end.

Fixpoint run_ops (fuel : nat) (os : list op) (st : heap * hsolver)
    : option (list result * (heap * hsolver)) :=
  match os with
  | [] => Some ([], st)
  | o :: os =>
      '(r, st1) ← run_op fuel o st;
      '(rs, st2) ← run_ops fuel os st1;
      Some (r :: rs, st2)
  end.

(** ** Frame properties of the heap operations *)

Lemma read_row_Some h l r : read_row h l = Some r ↔ h !! l = Some (ORow r).
Proof.
  unfold read_row. destruct (h !! l) as [[]|]; split; intros E;
    by simplify_eq.
Qed.

Lemma read_list_Some h l rs : read_list h l = Some rs ↔ h !! l = Some (OList rs).
Proof.
  unfold read_list. destruct (h !! l) as [[]|]; split; intros E;
    by simplify_eq.
Qed.

Lemma alloc_fresh h o h' l :
  alloc h o = (h', l) → (l ∉ dom h) ∧ (h' = <[l := o]> h).
Proof.
  unfold alloc. intros [= <- <-]. split; [apply is_fresh|done].
Qed.

(** The copies are new, pairwise distinct objects with the contents of
    the rows they were copied from; no existing object changes. *)
Lemma copy_rows_spec h rs b :
  Forall2 (λ l r, read_row h l = Some r) rs b →
  ∃ h' ls, copy_rows h rs = Some (h', ls) ∧
    dom h ⊆ dom h' ∧
    (∀ l, l ∈ dom h → h' !! l = h !! l) ∧
    (∀ l, l ∈ ls → l ∉ dom h) ∧
    NoDup ls ∧
    Forall2 (λ l r, read_row h' l = Some r) ls b.
Proof.
  intros H. revert h H. revert b.
  induction rs as [|l rs IH]; intros b h H.
  { apply Forall2_nil_inv_l in H as ->. exists h, []. cbn.
    split; [done|]. split; [done|]. split; [done|].
    split; [by intros l ?%elem_of_nil|]. split; constructor. }
  apply Forall2_cons_inv_l in H as (r & b' & Hl & Hrest & ->).
  cbn [copy_rows]. rewrite Hl. cbn [mbind option_bind].
  destruct (alloc h (ORow r)) as [h1 l'] eqn:Ea.
  apply alloc_fresh in Ea as [Hfresh ->].
  destruct (IH b' (<[l' := ORow r]> h)) as (h2 & ls & E & Hdom & Hfr & Hnew & Hnd & Hb).
  { eapply Forall2_impl; [exact Hrest|]. intros x y Hx. cbn.
    apply read_row_Some. apply read_row_Some in Hx.
    rewrite lookup_insert_ne; [done|]. intros <-.
    apply Hfresh. apply elem_of_dom. by eexists. }
  rewrite E. cbn [mbind option_bind]. exists h2, (l' :: ls).
  split; [done|].
  assert (l' ∈ dom (<[l' := ORow r]> h)) as Hin by set_solver.
  split; [set_solver|]. split.
  { intros x Hx. rewrite Hfr by set_solver.
    rewrite lookup_insert_ne; [done|]. by intros <-. }
  split.
  { intros x [->|Hx]%elem_of_cons; [done|]. specialize (Hnew x Hx). set_solver. }
  split.
  { apply NoDup_cons. split; [|done]. intros Hx. by apply (Hnew l'). }
  apply Forall2_cons. split; [|done].
  apply read_row_Some. rewrite Hfr by done. apply lookup_insert_eq.
Qed.

Lemma write_rows_other h ls b l :
  l ∉ ls → write_rows h ls b !! l = h !! l.
Proof.
  revert h b. induction ls as [|x ls IH]; intros h b Hl; [done|].
  destruct b as [|r b]; [done|]. cbn [write_rows].
  apply not_elem_of_cons in Hl as [Hne Hl].
  rewrite IH by done. by rewrite lookup_insert_ne.
Qed.

Lemma write_rows_read h ls b :
  NoDup ls → length ls = length b →
  Forall2 (λ l r, read_row (write_rows h ls b) l = Some r) ls b.
Proof.
  revert h b. induction ls as [|x ls IH]; intros h b Hnd Hlen.
  { destruct b; [constructor|done]. }
  destruct b as [|r b]; [done|]. cbn [write_rows].
  apply NoDup_cons in Hnd as [Hx Hnd]. apply Forall2_cons. split.
  - apply read_row_Some. rewrite write_rows_other by done.
    apply lookup_insert_eq.
  - apply IH; [done|]. cbn in Hlen. lia.
Qed.

Lemma load_Some h o b :
  load h o = Some b ↔
    ∃ rs, read_list h o = Some rs ∧
      Forall2 (λ l r, read_row h l = Some r) rs b.
Proof.
  unfold load. destruct (read_list h o) as [rs|]; cbn.
  - rewrite mapM_Some. split; [by exists rs|]. by intros (? & [= <-] & ?).
  - split; [done|]. by intros (? & ? & _).
Qed.

Lemma load_frame h h' o b :
  (∀ l, l ∈ dom h → h' !! l = h !! l) →
  load h o = Some b → load h' o = Some b.
Proof.
  intros Hfr. rewrite !load_Some. intros (rs & Hrs & Hb). exists rs. split.
  - apply read_list_Some. apply read_list_Some in Hrs.
    rewrite Hfr; [done|]. apply elem_of_dom. by eexists.
  - eapply Forall2_impl; [exact Hb|]. intros l r Hl. cbn.
    apply read_row_Some. apply read_row_Some in Hl.
    rewrite Hfr; [done|]. apply elem_of_dom. by eexists.
Qed.

(** The solver's board [b] lives in objects that did not exist in the
    caller's heap [h0], and every object of [h0] is as it was. *)
Definition owns (h0 : heap) (st : heap * hsolver) (b : grid) : Prop :=
  (∀ l, l ∈ dom h0 → st.1 !! l = h0 !! l) ∧
  wf b ∧
  ∃ ls, read_list st.1 (h_board st.2) = Some ls ∧
    (h_board st.2 ∉ dom h0) ∧ (h_board st.2 ∉ ls) ∧
    (∀ l, l ∈ ls → l ∉ dom h0) ∧ NoDup ls ∧
    Forall2 (λ l r, read_row st.1 l = Some r) ls b.

Lemma h_init_owns h input b :
  load h input = Some b → wf b →
  ∃ st, h_init h input = Some st ∧ owns h st b.
Proof.
  intros (rs & Hrs & Hb)%load_Some Hwf. unfold h_init. rewrite Hrs.
  cbn [mbind option_bind].
  destruct (copy_rows_spec h rs b Hb) as (h1 & ls & E & Hdom & Hfr & Hnew & Hnd & Hb1).
  rewrite E. cbn [mbind option_bind].
  destruct (alloc h1 (OList ls)) as [h2 o] eqn:Ea.
  apply alloc_fresh in Ea as [Hfresh ->].
  eexists. split; [reflexivity|]. unfold owns. cbn [fst snd h_board].
  assert (o ∉ dom h) as Ho by set_solver.
  split.
  { intros l Hl. rewrite lookup_insert_ne by (by intros <-). by apply Hfr. }
  split; [done|]. exists ls.
  split; [apply read_list_Some, lookup_insert_eq|]. split; [done|].
  assert (∀ l r, read_row h1 l = Some r → l ≠ o) as Hne.
  { intros l r Hl%read_row_Some <-. apply Hfresh, elem_of_dom. by eexists. }
  split.
  { intros Hin. apply list_elem_of_lookup in Hin as [k Hk].
    destruct (Forall2_lookup_l _ _ _ _ _ Hb1 Hk) as (r & _ & Hr).
    by apply (Hne o r). }
  split; [done|]. split; [done|].
  eapply Forall2_impl; [exact Hb1|]. intros l r Hl. cbn.
  pose proof (Hne l r Hl). apply read_row_Some. apply read_row_Some in Hl.
  by rewrite lookup_insert_ne.
Qed.

(** The solving method behind an operation; [getFinishedBoard] leaves the
    solver as it is. *)
Definition pure_op (fuel : nat) (o : op) (s : solverSudoku)
    : option (bool * solverSudoku) :=
  match o with
  | Op_solve_combined => solve_combined fuel s
  | Op_solve_greedy => solve_greedy fuel s
  | Op_solve_smart_backtracking => solve_smart_backtracking fuel s
  | Op_getFinishedBoard => Some (true, s)
  end.

Lemma pure_op_wf fuel o s r s' :
  wf (board s) → pure_op fuel o s = Some (r, s') → wf (board s').
Proof.
  intros Hwf. destruct o; cbn [pure_op].
  - by apply solve_combined_wf.
  - by apply solve_greedy_wf.
  - by apply solve_smart_backtracking_wf.
  - intros E. apply (inj Some) in E. by apply pair_equal_spec in E as [_ <-].
Qed.

Lemma pure_op_total fuel o s :
  wf (board s) → 82 ≤ fuel → is_Some (pure_op fuel o s).
Proof.
  intros Hwf Hfuel. destruct o; cbn [pure_op].
  - by apply solve_combined_total.
  - by apply solve_greedy_total.
  - apply solve_smart_backtracking_total; [done|].
    pose proof (count_empty_le (board s)). lia.
  - by eexists.
Qed.

Lemma run_op_pure fuel o h hs ls b :
  read_list h (h_board hs) = Some ls →
  Forall2 (λ l r, read_row h l = Some r) ls b →
  run_op fuel o (h, hs) =
    match o with
    | Op_getFinishedBoard => Some (RBoard (getFinishedBoard b), (h, hs))
    | _ =>
        '(r, s') ← pure_op fuel o
          {| board := b; steps := h_steps hs; backtracks := h_backtracks hs |};
        Some (RBool r,
              (write_rows h ls (board s'),
               {| h_board := h_board hs; h_steps := steps s';
                  h_backtracks := backtracks s' |}))
    end.
Proof.
  intros Hls Hb%mapM_Some. unfold run_op. rewrite Hls.
  cbn [mbind option_bind]. rewrite Hb. cbn [mbind option_bind].
  by destruct o.
Qed.

Lemma run_op_owns h0 fuel o st b res st' :
  owns h0 st b → run_op fuel o st = Some (res, st') → ∃ b', owns h0 st' b'.
Proof.
  destruct st as [h hs].
  intros (Hfr & Hwf & ls & Hls & Ho & Hols & Hnew & Hnd & Hb) E.
  cbn [fst snd] in *. rewrite (run_op_pure _ _ _ _ _ _ Hls Hb) in E.
  assert (∀ s', pure_op fuel o
      {| board := b; steps := h_steps hs; backtracks := h_backtracks hs |}
        = Some s' →
    owns h0 (write_rows h ls (board s'.2),
             {| h_board := h_board hs; h_steps := steps s'.2;
                h_backtracks := backtracks s'.2 |}) (board s'.2)) as Hop.
  { intros [r s'] Es. cbn [snd].
    apply pure_op_wf in Es; [|done]. cbn [board] in Es.
    split; [|split; [done|exists ls]]; cbn [fst snd h_board].
    - intros l Hl. rewrite write_rows_other; [by apply Hfr|].
      intros Hin. by apply (Hnew l).
    - split. { apply read_list_Some. rewrite write_rows_other by done.
               by apply read_list_Some. }
      repeat (split; [done|]). apply write_rows_read; [done|].
      rewrite (Forall2_length _ _ _ Hb). destruct Hwf as [-> _].
      by destruct Es as [-> _]. }
  destruct o.
  4: { apply (inj Some) in E. apply pair_equal_spec in E as [_ <-].
       exists b. split; [done|]. split; [done|]. by exists ls. }
  all: destruct (pure_op _ _ _) as [[r s']|] eqn:Es; [|discriminate E].
  all: cbn [mbind option_bind] in E; apply (inj Some) in E.
  all: apply pair_equal_spec in E as [_ <-].
  all: exists (board s'); apply (Hop (r, s') eq_refl).
Qed.

Lemma run_op_total h0 fuel o st b :
  owns h0 st b → 82 ≤ fuel → is_Some (run_op fuel o st).
Proof.
  destruct st as [h hs].
  intros (Hfr & Hwf & ls & Hls & Ho & Hols & Hnew & Hnd & Hb) Hfuel.
  cbn [fst snd] in *. rewrite (run_op_pure _ _ _ _ _ _ Hls Hb).
  destruct (pure_op_total fuel o
    {| board := b; steps := h_steps hs; backtracks := h_backtracks hs |})
    as [[r s'] Es]; [done..|].
  destruct o; try (rewrite Es; by eexists). by eexists.
Qed.

Lemma run_ops_owns h0 fuel os st b rs st' :
  owns h0 st b → run_ops fuel os st = Some (rs, st') → ∃ b', owns h0 st' b'.
Proof.
  revert st b rs. induction os as [|o os IH]; intros st b rs Hown E.
  { apply (inj Some) in E. apply pair_equal_spec in E as [_ <-]. by exists b. }
  cbn [run_ops] in E.
  destruct (run_op fuel o st) as [[r st1]|] eqn:Eo; [|discriminate E].
  cbn [mbind option_bind] in E.
  destruct (run_op_owns _ _ _ _ _ _ _ Hown Eo) as [b1 Hown1].
  destruct (run_ops fuel os st1) as [[rs1 st2]|] eqn:Eos; [|discriminate E].
  cbn [mbind option_bind] in E. apply (inj Some) in E.
  apply pair_equal_spec in E as [_ <-]. by apply (IH st1 b1 rs1).
Qed.

Lemma run_ops_total h0 fuel os st b :
  owns h0 st b → 82 ≤ fuel → is_Some (run_ops fuel os st).
Proof.
  intros Hown Hfuel. revert st b Hown.
  induction os as [|o os IH]; intros st b Hown; [by eexists|].
  cbn [run_ops].
  destruct (run_op_total _ _ o _ _ Hown Hfuel) as [[r st1] Eo]. rewrite Eo.
  cbn [mbind option_bind].
  destruct (run_op_owns _ _ _ _ _ _ _ Hown Eo) as [b1 Hown1].
  destruct (IH st1 b1 Hown1) as [[rs1 st2] Eos]. rewrite Eos. by eexists.
Qed.

Lemma owns_load h0 st b : owns h0 st b → load st.1 (h_board st.2) = Some b.
Proof.
  intros (_ & _ & ls & Hls & _ & _ & _ & _ & Hb). apply load_Some. by exists ls.
Qed.

Lemma write_rows_lookup h ls b p l r :
  NoDup ls → length ls = length b →
  ls !! p = Some l → b !! p = Some r →
  write_rows h ls b !! l = Some (ORow r).
Proof.
  intros Hnd Hlen Hl Hr. apply read_row_Some.
  apply (Forall2_lookup_lr _ _ _ p l r (write_rows_read h ls b Hnd Hlen) Hl Hr).
Qed.

(** One assignment [self.board[i][j] = v] through the solver's reference
    leaves the heap that [write_rows] gives for the board with that cell
    set: storing the final board of a method is the sum of its
    assignments. *)
Lemma h_set_cell_write h o ls b i j v :
  read_list h o = Some ls → NoDup ls →
  Forall2 (λ l r, read_row h l = Some r) ls b →
  wf b → i < 9 → j < 9 →
  h_set_cell h o i j v = Some (write_rows h ls (set2 b i j v)).
Proof.
  intros Hls Hnd Hb [Hlen Hrows] Hi Hj.
  pose proof (Forall2_length _ _ _ Hb) as Hlen'.
  destruct (lookup_lt_is_Some_2 ls i) as [l Hl]; [lia|].
  destruct (lookup_lt_is_Some_2 b i) as [r Hr]; [lia|].
  pose proof (Forall2_lookup_lr _ _ _ _ _ _ Hb Hl Hr) as Hlr. cbn in Hlr.
  pose proof (Forall_lookup_1 _ _ _ _ Hrows Hr) as Hrlen. cbn in Hrlen.
  unfold h_set_cell. rewrite Hls. cbn [mbind option_bind]. rewrite Hl.
  cbn [mbind option_bind]. rewrite Hlr. cbn [mbind option_bind].
  rewrite decide_True by lia. f_equal. symmetry. apply map_eq. intros k.
  assert (length ls = length (set2 b i j v)) as Hlen2.
  { unfold set2. rewrite length_alter. lia. }
  destruct (decide (k ∈ ls)) as [Hin|Hnin].
  - apply list_elem_of_lookup in Hin as [p Hp].
    destruct (lookup_lt_is_Some_2 b p) as [rp Hrp].
    { apply lookup_lt_Some in Hp. lia. }
    destruct (decide (p = i)) as [->|Hne].
    + assert (k = l) as -> by congruence.
      rewrite lookup_insert_eq.
      apply (write_rows_lookup _ _ _ i); [done..|].
      unfold set2. rewrite list_lookup_alter_eq, Hr. done.
    + assert (k ≠ l) as Hkl.
      { intros ->. apply Hne. by apply (NoDup_lookup ls p i l). }
      rewrite lookup_insert_ne by done.
      rewrite (write_rows_lookup _ _ _ p k rp); [|done..|].
      * symmetry. apply read_row_Some.
        apply (Forall2_lookup_lr _ _ _ _ _ _ Hb Hp Hrp).
      * unfold set2. by rewrite list_lookup_alter_ne.
  - rewrite write_rows_other by done. rewrite lookup_insert_ne; [done|].
    intros <-. apply Hnin. by eapply list_elem_of_lookup_2.
Qed.

(** C9: the constructor copies the caller's rows into new objects, so
    whatever sequence of [solve_combined], [solve_greedy],
    [solve_smart_backtracking] and [getFinishedBoard] runs on the solver,
    every object of the caller's heap, the grid passed to the constructor
    and its rows among them, is afterwards what it was before; the calls
    return for every fuel from 82 on. *)
Theorem C9_caller_grid_unchanged (h : heap) (input : nat) (b : grid)
    (fuel : nat) (os : list op) :
  load h input = Some b → wf b →
  ∃ st, h_init h input = Some st ∧
    load st.1 (h_board st.2) = Some (board (init b)) ∧
    (∀ l, l ∈ dom h → st.1 !! l = h !! l) ∧
    (∀ rs st', run_ops fuel os st = Some (rs, st') →
       (∀ l, l ∈ dom h → st'.1 !! l = h !! l) ∧
       load st'.1 input = Some b) ∧
    (82 ≤ fuel → is_Some (run_ops fuel os st)).
Proof.
  intros Hload Hwf.
  destruct (h_init_owns h input b Hload Hwf) as (st & E & Hown).
  exists st. split; [exact E|].
  split; [rewrite board_init; by eapply owns_load|].
  split; [by destruct Hown|]. split.
  - intros rs st' Er.
    destruct (run_ops_owns _ _ _ _ _ _ _ Hown Er) as (b' & Hfr & _).
    split; [exact Hfr|]. by apply (load_frame h).
  - intros Hfuel. by eapply run_ops_total.
Qed.

(** A caller's heap: the grid [easy] as nine row objects and the list
    that refers to them. *)
Definition caller_heap : heap :=
  <[9 := OList (seq 0 9)]> (write_rows ∅ (seq 0 9) easy).

Lemma C9_caller_grid_unchanged_witness :
  load caller_heap 9 = Some easy ∧ wf easy ∧
  ∃ st, h_init caller_heap 9 = Some st ∧
    ∀ rs st',
      run_ops 82 [Op_solve_combined; Op_getFinishedBoard] st = Some (rs, st') →
      load st'.1 9 = Some easy.
Proof.
  assert (load caller_heap 9 = Some easy) as Hload by (vm_compute; reflexivity).
  assert (wf easy) as Hwf by by_compute.
  split; [exact Hload|]. split; [exact Hwf|].
  destruct (C9_caller_grid_unchanged caller_heap 9 easy 82
              [Op_solve_combined; Op_getFinishedBoard] Hload Hwf)
    as (st & E & _ & _ & Hrun & _).
  exists st. split; [exact E|]. intros rs st' Er. by destruct (Hrun rs st' Er).
Defined.

End Heap.

(** * Further properties of the board and of the possibility matrix *)

(** ** [find_empty] *)

(** The inner loop [for j in range(9)] of [find_empty], over the columns
    still to be visited. *)
Fixpoint find_empty_row (b : grid) (i : nat) (js : list nat)
    : option (nat * nat) :=
  match js with
  | [] => None
  | j :: js =>
      if Z.eqb (cell b i j) 0 then Some (i, j) else find_empty_row b i js
  end.

(** The outer loop [for i in range(9)]. *)
Fixpoint find_empty_rows (b : grid) (rows : list nat) : option (nat * nat) :=
  match rows with
  | [] => None
  | i :: rows =>
      match find_empty_row b i (seq 0 9) with
      | Some ij => Some ij
      | None => find_empty_rows b rows
      end
  end.

Definition find_empty (b : grid) : option (nat * nat) :=
  find_empty_rows b (seq 0 9).

Lemma find_empty_row_spec b i a n :
  match find_empty_row b i (seq a n) with
  | None => ∀ j, a ≤ j < a + n → cell b i j ≠ 0%Z
  | Some (r, c) =>
      r = i ∧ a ≤ c < a + n ∧ cell b i c = 0%Z ∧
      ∀ j, a ≤ j < c → cell b i j ≠ 0%Z
  end.
Proof.
  revert a. induction n as [|n IH]; intros a; cbn [seq find_empty_row].
  { intros j Hj. lia. }
  destruct (Z.eqb_spec (cell b i a) 0) as [Hz|Hz].
  { split; [done|]. split; [lia|]. split; [done|]. intros j Hj. lia. }
  specialize (IH (S a)).
  destruct (find_empty_row b i (seq (S a) n)) as [[r c]|].
  - destruct IH as (-> & Hc & Hzc & Hmin).
    split; [done|]. split; [lia|]. split; [done|].
    intros j Hj. destruct (decide (j = a)) as [->|]; [done|]. apply Hmin. lia.
  - intros j Hj. destruct (decide (j = a)) as [->|]; [done|]. apply IH. lia.
Qed.

Lemma find_empty_rows_spec b a n :
  a + n ≤ 9 →
  match find_empty_rows b (seq a n) with
  | None => ∀ i j, a ≤ i < a + n → j < 9 → cell b i j ≠ 0%Z
  | Some (r, c) =>
      a ≤ r < a + n ∧ c < 9 ∧ cell b r c = 0%Z ∧
      ∀ i j, a ≤ i → j < 9 → i < r ∨ (i = r ∧ j < c) → cell b i j ≠ 0%Z
  end.
Proof.
  revert a. induction n as [|n IH]; intros a Han.
  { intros i j Hi. lia. }
  change (seq a (S n)) with (a :: seq (S a) n). cbn [find_empty_rows].
  pose proof (find_empty_row_spec b a 0 9) as Hrow.
  destruct (find_empty_row b a (seq 0 9)) as [[r c]|].
  - destruct Hrow as (-> & Hc & Hz & Hmin).
    split; [lia|]. split; [lia|]. split; [done|].
    intros i j Hi Hj [Hlt|[-> Hlt]]; [lia|]. apply Hmin. lia.
  - specialize (IH (S a)).
    destruct (find_empty_rows b (seq (S a) n)) as [[r c]|].
    + destruct IH as (Hr & Hc & Hz & Hmin); [lia|].
      split; [lia|]. split; [lia|]. split; [done|].
      intros i j Hi Hj Hlt. destruct (decide (i = a)) as [->|Hne].
      * apply Hrow. lia.
      * apply Hmin; [lia|done|done].
    + intros i j Hi Hj. destruct (decide (i = a)) as [->|Hne].
      * apply Hrow. lia.
      * apply IH; [lia|lia|done].
Qed.

(** X1: on a nine by nine board [find_empty] returns none exactly when
    the board has no empty cell, and otherwise the first empty cell in
    row-major order; it answers none exactly when
    [find_most_constrained_cell] does. *)
Theorem X1_find_empty (b : grid) :
  wf b →
  (find_empty b = None ↔ full b) ∧
  (find_empty b = None ↔ find_most_constrained_cell b = None) ∧
  ∀ r c, find_empty b = Some (r, c) →
    r < 9 ∧ c < 9 ∧ cell b r c = 0%Z ∧
    ∀ i j, i < 9 → j < 9 → i < r ∨ (i = r ∧ j < c) → cell b i j ≠ 0%Z.
Proof.
  intros _. pose proof (find_empty_rows_spec b 0 9) as H. fold (find_empty b) in H.
  assert (find_empty b = None ↔ full b) as Hnone.
  { destruct (find_empty b) as [[r c]|].
    - destruct H as (Hr & Hc & Hz & _); [lia|]. split; [done|].
      intros Hfull. destruct (Hfull r c); [lia|done|done].
    - split; [|done]. intros _ i j Hi Hj. apply H; lia. }
  split; [exact Hnone|]. split.
  { rewrite Hnone. symmetry. apply find_most_constrained_cell_None. }
  intros r c E. rewrite E in H. destruct H as (Hr & Hc & Hz & Hmin); [lia|].
  split; [lia|]. split; [lia|]. split; [done|].
  intros i j Hi Hj Hlt. apply Hmin; [lia|done|done].
Qed.

Lemma X1_find_empty_witness :
  wf easy ∧ find_empty easy = Some (0, 2) ∧
  cell easy 0 2 = 0%Z ∧ cell easy 0 1 ≠ 0%Z ∧ ¬ full easy.
Proof.
  assert (wf easy) as Hwf by by_compute.
  assert (find_empty easy = Some (0, 2)) as E by reflexivity.
  destruct (X1_find_empty easy Hwf) as (Hnone & _ & Hsome).
  destruct (Hsome 0 2 E) as (_ & _ & Hz & Hmin).
  split; [exact Hwf|]. split; [exact E|]. split; [exact Hz|]. split.
  - apply (Hmin 0 1); lia.
  - intros Hfull. apply Hnone in Hfull. rewrite E in Hfull. discriminate Hfull.
Defined.

(** ** Validity after a placement *)

Lemma is_valid_set2 b i j v r c d :
  wf b → i < 9 → j < 9 → r < 9 → c < 9 → cell b i j ≠ d →
  is_valid (set2 b i j v) r c d = true ↔
    is_valid b r c d = true ∧ ¬ (peer r c i j ∧ v = d).
Proof.
  intros Hwf Hi Hj Hr Hc Hold. rewrite !is_valid_true_iff by done. split.
  - intros H. split.
    + intros x y Hx Hy Hp. specialize (H x y Hx Hy Hp).
      rewrite cell_set2 in H by done. case_decide as Heq; [|done].
      by destruct Heq as [<- <-].
    + intros [Hp ->]. specialize (H i j Hi Hj Hp).
      rewrite cell_set2 in H by done. by rewrite decide_True in H.
  - intros [H Hn] x y Hx Hy Hp. rewrite cell_set2 by done.
    case_decide as Heq; [|by apply H]. destruct Heq as [<- <-].
    intros ->. by apply Hn.
Qed.


(** ** What [initialize_possibilities] computes *)

(** The digits that pass [is_valid] at [(i, j)] when the cell is empty,
    nothing when it is filled. *)
Definition valid_digits (b : grid) (i j : nat) : gset Z :=
  if Z.eqb (cell b i j) 0
  then list_to_set (filter (λ num, is_valid b i j num = true) digits)
  else ∅.

Lemma elem_of_valid_digits b i j d :
  d ∈ valid_digits b i j ↔
    cell b i j = 0%Z ∧ (1 ≤ d ≤ 9)%Z ∧ is_valid b i j d = true.
Proof.
  unfold valid_digits. destruct (Z.eqb_spec (cell b i j) 0) as [Hz|Hz].
  - rewrite elem_of_list_to_set, list_elem_of_filter, elem_of_digits. tauto.
  - rewrite elem_of_empty. tauto.
Qed.

Lemma init_digits_spec b i j (p : cands) (l : list Z) :
  wf p → i < 9 → j < 9 →
  let p' := foldl (λ p num,
    if is_valid b i j num then alter2 (λ s, {[num]} ∪ s) p i j else p) p l in
  wf p' ∧
  ∀ i' j', i' < 9 → j' < 9 →
    pset p' i' j' =
      if decide (i' = i ∧ j' = j)
      then pset p i' j' ∪ list_to_set (filter (λ num, is_valid b i j num = true) l)
      else pset p i' j'.
Proof.
  intros Hwf Hi Hj. revert p Hwf. induction l as [|num l IH]; intros p Hwf.
  { split; [done|]. intros i' j' _ _. case_decide; [|done].
    rewrite filter_nil, list_to_set_nil. set_solver. }
  cbn [foldl]. destruct (is_valid b i j num) eqn:Hv.
  - destruct (IH (alter2 (λ s, {[num]} ∪ s) p i j)) as [Hwf' Hp'];
      [by apply wf_alter2|].
    split; [exact Hwf'|]. intros i' j' Hi' Hj'. rewrite Hp' by done.
    rewrite pset_alter2 by done. rewrite filter_cons_True by done.
    rewrite list_to_set_cons.
    destruct (decide (i' = i ∧ j' = j)) as [[-> ->]|Hne].
    + rewrite decide_True by done. set_solver.
    + rewrite decide_False; [done|]. intros [-> ->]. by apply Hne.
  - destruct (IH p Hwf) as [Hwf' Hp']. split; [exact Hwf'|].
    intros i' j' Hi' Hj'. rewrite Hp' by done.
    rewrite filter_cons_False; [done|]. by rewrite Hv.
Qed.

Lemma init_row_spec b i (p : cands) a n :
  wf p → i < 9 → a + n ≤ 9 →
  let p' := foldl (λ p j,
    if Z.eqb (cell b i j) 0 then
      foldl (λ p num,
        if is_valid b i j num then alter2 (λ s, {[num]} ∪ s) p i j else p)
        p digits
    else p) p (seq a n) in
  wf p' ∧
  ∀ i' j', i' < 9 → j' < 9 →
    pset p' i' j' =
      if decide (i' = i ∧ a ≤ j' < a + n)
      then pset p i' j' ∪ valid_digits b i' j'
      else pset p i' j'.
Proof.
  intros Hwf Hi. revert a p Hwf. induction n as [|n IH]; intros a p Hwf Han.
  { split; [done|]. intros i' j' _ _. rewrite decide_False by lia. done. }
  rewrite foldl_seq_S.
  set (q := if Z.eqb (cell b i a) 0 then _ else p).
  assert (wf q ∧ ∀ i' j', i' < 9 → j' < 9 →
    pset q i' j' = if decide (i' = i ∧ j' = a)
                   then pset p i' j' ∪ valid_digits b i' j' else pset p i' j')
    as [Hwfq Hq].
  { subst q. unfold valid_digits.
    destruct (Z.eqb (cell b i a) 0) eqn:Hz.
    - destruct (init_digits_spec b i a p digits Hwf Hi) as [Hw Hp]; [lia|].
      split; [exact Hw|]. intros i' j' Hi' Hj'. rewrite Hp by done.
      case_decide as Heq; [|done]. destruct Heq as [-> ->]. by rewrite Hz.
    - split; [done|]. intros i' j' Hi' Hj'.
      case_decide as Heq; [|done]. destruct Heq as [-> ->]. rewrite Hz.
      cbv iota. by rewrite (right_id_L ∅ (∪)). }
  destruct (IH (S a) q Hwfq) as [Hwf' Hp']; [lia|]. split; [exact Hwf'|].
  intros i' j' Hi' Hj'. rewrite Hp', Hq by done.
  destruct (decide (i' = i ∧ j' = a)) as [[-> ->]|H1].
  - rewrite decide_False by lia. rewrite decide_True by lia. done.
  - destruct (decide (i' = i ∧ S a ≤ j' < S a + n)) as [H2|H2].
    + rewrite decide_True by lia. done.
    + rewrite decide_False by lia. done.
Qed.

Lemma init_rows_spec b (p : cands) a n :
  wf p → a + n ≤ 9 →
  let p' := foldl (λ p i,
    foldl (λ p j,
      if Z.eqb (cell b i j) 0 then
        foldl (λ p num,
          if is_valid b i j num then alter2 (λ s, {[num]} ∪ s) p i j else p)
          p digits
      else p) p (seq 0 9)) p (seq a n) in
  wf p' ∧
  ∀ i' j', i' < 9 → j' < 9 →
    pset p' i' j' =
      if decide (a ≤ i' < a + n)
      then pset p i' j' ∪ valid_digits b i' j'
      else pset p i' j'.
Proof.
  intros Hwf. revert a p Hwf. induction n as [|n IH]; intros a p Hwf Han.
  { split; [done|]. intros i' j' _ _. rewrite decide_False by lia. done. }
  rewrite foldl_seq_S.
  destruct (init_row_spec b a p 0 9 Hwf) as [Hwfq Hq]; [lia..|].
  destruct (IH (S a) _ Hwfq) as [Hwf' Hp']; [lia|]. split; [exact Hwf'|].
  intros i' j' Hi' Hj'. rewrite Hp', Hq by done.
  destruct (decide (i' = a ∧ 0 ≤ j' < 0 + 9)) as [[-> _]|H1].
  - rewrite decide_False by lia. rewrite decide_True by lia. done.
  - destruct (decide (S a ≤ i' < S a + n)) as [H2|H2].
    + rewrite decide_True by lia. done.
    + rewrite decide_False by lia. done.
Qed.

Lemma pset_initialize_possibilities b i j :
  i < 9 → j < 9 → pset (initialize_possibilities b) i j = valid_digits b i j.
Proof.
  intros Hi Hj.
  assert (wf (replicate 9 (replicate 9 (∅ : gset Z)))) as Hwf0
    by by_compute.
  assert (0 + 9 ≤ 9) as Hle by lia.
  pose proof (init_rows_spec b _ 0 9 Hwf0 Hle) as H. cbv zeta in H.
  destruct H as [_ Hp]. specialize (Hp i j Hi Hj).
  rewrite decide_True in Hp by lia. rewrite pset_replicate in Hp.
  rewrite (left_id_L ∅ (∪)) in Hp. exact Hp.
Qed.

(** X2: after [initialize_possibilities] on a nine by nine board, a digit
    is in the set of a cell exactly when the cell is empty, the digit is
    one of 1-9 and it passes [is_valid] there; the sets of filled cells are
    empty. *)
Theorem X2_initialize_possibilities (b : grid) (i j : nat) (d : Z) :
  wf b → i < 9 → j < 9 →
  (d ∈ pset (initialize_possibilities b) i j ↔
     cell b i j = 0%Z ∧ (1 ≤ d ≤ 9)%Z ∧ is_valid b i j d = true) ∧
  (cell b i j ≠ 0%Z → pset (initialize_possibilities b) i j = ∅) ∧
  wf (initialize_possibilities b).
Proof.
  intros _ Hi Hj. rewrite pset_initialize_possibilities by done.
  split; [apply elem_of_valid_digits|]. split.
  - intros Hz. unfold valid_digits. by destruct (Z.eqb_spec (cell b i j) 0).
  - apply initialize_possibilities_spec.
Qed.

Lemma X2_initialize_possibilities_witness :
  wf easy ∧ 0 < 9 ∧ 2 < 9 ∧ 4%Z ∈ pset (initialize_possibilities easy) 0 2.
Proof.
  assert (wf easy) as Hwf by by_compute.
  assert (0 < 9) as Hi by lia. assert (2 < 9) as Hj by lia.
  split; [exact Hwf|]. split; [exact Hi|]. split; [exact Hj|].
  apply (X2_initialize_possibilities easy 0 2 4%Z Hwf Hi Hj).
  split; [reflexivity|]. split; [lia|reflexivity].
Defined.

(** ** The matrix kept by the propagation loop *)

Lemma lookup2_pset (p : cands) i j :
  wf p → i < 9 → j < 9 → lookup2 p i j = Some (pset p i j).
Proof.
  intros Hwf Hi Hj. unfold pset.
  by destruct (wf_lookup2 p i j Hwf Hi Hj) as [x ->].
Qed.

Lemma wf_pset_ext (p q : cands) :
  wf p → wf q →
  (∀ i j, i < 9 → j < 9 → pset p i j = pset q i j) → p = q.
Proof.
  intros Hp Hq H. apply wf_ext; [done..|]. intros i j Hi Hj.
  rewrite !lookup2_pset by done. f_equal. by apply H.
Qed.

Lemma valid_digits_set2 b r c num i j :
  wf b → r < 9 → c < 9 → cell b r c = 0%Z → num ≠ 0%Z → i < 9 → j < 9 →
  valid_digits (set2 b r c num) i j =
    if decide (i = r ∧ j = c) then ∅
    else if decide (peer r c i j) then valid_digits b i j ∖ {[num]}
    else valid_digits b i j.
Proof.
  intros Hwf Hr Hc Hz Hnum Hi Hj. apply set_eq. intros d.
  rewrite elem_of_valid_digits. rewrite cell_set2 by done.
  destruct (decide (i = r ∧ j = c)) as [[-> ->]|Hne].
  { rewrite decide_True by done. rewrite elem_of_empty. tauto. }
  rewrite decide_False by (intros [-> ->]; by apply Hne).
  assert ((1 ≤ d ≤ 9)%Z →
    (is_valid (set2 b r c num) i j d = true ↔
     is_valid b i j d = true ∧ ¬ (peer i j r c ∧ num = d))) as Hv.
  { intros Hd. apply is_valid_set2; try done. lia. }
  assert (peer i j r c ↔ peer r c i j) as Hsym
    by (split; apply peer_sym).
  case_decide as Hp.
  - rewrite elem_of_difference, elem_of_singleton, elem_of_valid_digits.
    split.
    + intros (H0 & Hd & H1). apply (Hv Hd) in H1 as [H1 H2].
      split; [done|]. intros ->. apply H2. by rewrite Hsym.
    + intros ((H0 & Hd & H1) & Hdn). split; [done|]. split; [done|].
      apply (Hv Hd). split; [done|]. intros [_ ->]. done.
  - rewrite elem_of_valid_digits. split.
    + intros (H0 & Hd & H1). apply (Hv Hd) in H1 as [H1 H2]. done.
    + intros (H0 & Hd & H1). split; [done|]. split; [done|].
      apply (Hv Hd). split; [done|]. intros [Hp' _]. by apply Hp, Hsym.
Qed.

Lemma pset_update_initialize b r c num i j :
  wf b → r < 9 → c < 9 → cell b r c = 0%Z → num ≠ 0%Z → i < 9 → j < 9 →
  pset (update_possibilities (initialize_possibilities b) r c num) i j =
    pset (initialize_possibilities (set2 b r c num)) i j.
Proof.
  intros Hwf Hr Hc Hz Hnum Hi Hj.
  rewrite pset_update_possibilities;
    [|apply initialize_possibilities_spec|done..].
  rewrite !pset_initialize_possibilities by done.
  by rewrite valid_digits_set2.
Qed.

(** X3: updating the matrix after a placement gives the matrix that
    [initialize_possibilities] computes from the new board: for an empty
    cell [(r, c)] and a non-zero [num], [update_possibilities] applied to
    the matrix of [b] is the matrix of [b] with [num] at [(r, c)]. *)
Theorem X3_update_is_recompute (b : grid) (r c : nat) (num : Z) :
  wf b → r < 9 → c < 9 → cell b r c = 0%Z → num ≠ 0%Z →
  update_possibilities (initialize_possibilities b) r c num =
    initialize_possibilities (set2 b r c num).
Proof.
  intros Hwf Hr Hc Hz Hnum.
  pose proof (proj1 (initialize_possibilities_spec b)) as Hw1.
  pose proof (proj1 (initialize_possibilities_spec (set2 b r c num))) as Hw2.
  apply wf_pset_ext; [by apply wf_update_possibilities|done|].
  intros i j Hi Hj. by apply pset_update_initialize.
Qed.

Lemma X3_update_is_recompute_witness :
  wf easy ∧ 0 < 9 ∧ 2 < 9 ∧ cell easy 0 2 = 0%Z ∧ 4%Z ≠ 0%Z ∧
  update_possibilities (initialize_possibilities easy) 0 2 4%Z =
    initialize_possibilities (set2 easy 0 2 4%Z).
Proof.
  assert (wf easy) as Hwf by by_compute.
  assert (0 < 9) as Hr by lia. assert (2 < 9) as Hc by lia.
  assert (cell easy 0 2 = 0%Z) as Hz by reflexivity.
  assert (4%Z ≠ 0%Z) as Hn by lia.
  repeat (split; [assumption|]).
  apply (X3_update_is_recompute easy 0 2 4%Z Hwf Hr Hc Hz Hn).
Defined.

(** The matrix of the loop state is the one [initialize_possibilities]
    computes from its board. *)
Definition tracked (s : gstate) : Prop :=
  g_poss s = initialize_possibilities (g_board s).

Lemma gstep_tracked s s' : ginv s → tracked s → gstep s s' → tracked s'.
Proof.
  intros (Hb & Hp & Hd) Ht (i & j & num & Hi & Hj & Hz & Hnum & ->).
  unfold tracked, place in *. cbn [g_board g_poss]. rewrite Ht.
  pose proof (Hd i j num Hi Hj Hnum) as Hrange.
  apply wf_pset_ext.
  - apply wf_update_possibilities, initialize_possibilities_spec.
  - apply initialize_possibilities_spec.
  - intros i' j' Hi' Hj'. apply pset_update_initialize; try done. lia.
Qed.

Lemma rtc_gstep_tracked s s' : ginv s → tracked s → rtc gstep s s' → tracked s'.
Proof.
  intros Hg Ht Hr. induction Hr; eauto using gstep_tracked, gstep_ginv.
Qed.

Lemma pass_tracked s : ginv s → tracked s → tracked (pass s).
Proof.
  intros Hg Ht.
  apply (rtc_gstep_tracked (clear_progress s)); [exact Hg|exact Ht|].
  apply pass_steps.
Qed.

Lemma iter_pass_inv n s :
  ginv s → tracked s →
  ginv (Nat.iter n pass s) ∧ tracked (Nat.iter n pass s).
Proof.
  intros Hg Ht. induction n as [|n [IHg IHt]]; [by split|].
  rewrite Nat.iter_succ. split; [by apply pass_ginv|by apply pass_tracked].
Qed.

Lemma greedy_loop_iter fuel s g :
  greedy_loop fuel s = Some g → ∃ n, g = Nat.iter n pass s.
Proof.
  revert s. induction fuel as [|fuel IH]; intros s E; [discriminate E|].
  rewrite greedy_loop_S in E. destruct (g_progress (pass s)).
  - destruct (IH _ E) as [n ->]. exists (S n).
    symmetry. apply Nat.iter_succ_r.
  - apply (inj Some) in E. subst g. exists 1. symmetry.
    apply (Nat.iter_succ 0 pass s).
Qed.

(** X4: during [solve_greedy] the matrix stays what
    [initialize_possibilities] would compute from the current board:
    this holds after every pass of the loop, and so for the state the loop
    ends in. *)
Theorem X4_matrix_tracks_board (s : solverSudoku) :
  wf (board s) →
  (∀ n, g_poss (Nat.iter n pass (greedy_start s)) =
        initialize_possibilities (g_board (Nat.iter n pass (greedy_start s)))) ∧
  (∀ fuel g, greedy_loop fuel (greedy_start s) = Some g →
     g_poss g = initialize_possibilities (g_board g)).
Proof.
  intros Hwf.
  assert (∀ n, tracked (Nat.iter n pass (greedy_start s))) as Hn.
  { intros n. by apply iter_pass_inv; [apply ginv_greedy_start|]. }
  split; [exact Hn|]. intros fuel g E.
  destruct (greedy_loop_iter _ _ _ E) as [n ->]. apply Hn.
Qed.

Lemma X4_matrix_tracks_board_witness :
  wf (board (init easy)) ∧
  g_poss (Nat.iter 1 pass (greedy_start (init easy))) =
    initialize_possibilities (g_board (Nat.iter 1 pass (greedy_start (init easy)))).
Proof.
  assert (wf (board (init easy))) as Hwf by by_compute.
  split; [exact Hwf|].
  apply (proj1 (X4_matrix_tracks_board (init easy) Hwf) 1).
Defined.

(** ** Every placement of the propagation loop is forced *)

(** [num] at [(i, j)] is a naked single, or a hidden single of one of the
    groups of [(i, j)]. *)
Definition forced (s : gstate) (i j : nat) (num : Z) : Prop :=
  size (pset (g_poss s) i j) = 1 ∨
  ((1 ≤ num ≤ 9)%Z ∧
   ∃ g, g ∈ groups ∧ (i, j) ∈ g ∧
     ∀ x : nat * nat, x ∈ g → candidate s num x.1 x.2 = true → x = (i, j)).

Definition fstep (s s' : gstate) : Prop :=
  ∃ i j num, i < 9 ∧ j < 9 ∧ cell (g_board s) i j = 0%Z ∧
    num ∈ pset (g_poss s) i j ∧ forced s i j num ∧ s' = place s i j num.

Lemma fstep_gstep s s' : fstep s s' → gstep s s'.
Proof.
  intros (i & j & num & Hi & Hj & Hz & Hnum & _ & ->). by exists i, j, num.
Qed.

Lemma row_cells_groups i : i < 9 → row_cells i ∈ groups.
Proof.
  intros Hi. apply elem_of_app. left. apply list_elem_of_fmap. exists i.
  split; [done|apply elem_of_seq; lia].
Qed.

Lemma col_cells_groups j : j < 9 → col_cells j ∈ groups.
Proof.
  intros Hj. apply elem_of_app. right. apply elem_of_app. left.
  apply list_elem_of_fmap. exists j. split; [done|apply elem_of_seq; lia].
Qed.

Lemma box_cells_groups k : k < 9 → box_cells k ∈ groups.
Proof.
  intros Hk. apply elem_of_app. right. apply elem_of_app. right.
  apply list_elem_of_fmap. exists k. split; [done|apply elem_of_seq; lia].
Qed.

Lemma elem_of_row_cells i x : x ∈ row_cells i ↔ ∃ j, j < 9 ∧ x = (i, j).
Proof.
  unfold row_cells. rewrite list_elem_of_fmap. split.
  - intros (j & -> & Hj%elem_of_seq). exists j. split; [lia|done].
  - intros (j & Hj & ->). exists j. split; [done|apply elem_of_seq; lia].
Qed.

Lemma elem_of_col_cells j x : x ∈ col_cells j ↔ ∃ i, i < 9 ∧ x = (i, j).
Proof.
  unfold col_cells. rewrite list_elem_of_fmap. split.
  - intros (i & -> & Hi%elem_of_seq). exists i. split; [lia|done].
  - intros (i & Hi & ->). exists i. split; [done|apply elem_of_seq; lia].
Qed.

Lemma filter_singleton_unique {A} (P : A → Prop) `{!∀ x, Decision (P x)}
    (l : list A) x y :
  filter P l = [x] → y ∈ l → P y → y = x.
Proof.
  intros E Hy Py.
  assert (y ∈ filter P l) as Hin by by apply list_elem_of_filter.
  rewrite E in Hin. by apply list_elem_of_singleton in Hin.
Qed.

Lemma naked_singles_fsteps s : rtc fstep s (naked_singles s).
Proof.
  unfold naked_singles. apply rtc_foldl. intros s1 i Hi%elem_of_seq.
  apply rtc_foldl. intros s2 j Hj%elem_of_seq.
  destruct (_ && _) eqn:E; [|done].
  apply andb_true_iff in E as [E1%Z.eqb_eq E2%Nat.eqb_eq].
  apply rtc_once. exists i, j, (next_iter (pset (g_poss s2) i j)).
  split; [lia|]. split; [lia|]. split; [done|].
  split; [by apply next_iter_elem|]. split; [by left|done].
Qed.

Lemma hidden_rows_fsteps s : rtc fstep s (hidden_rows s).
Proof.
  unfold hidden_rows. apply rtc_foldl. intros s1 i Hi%elem_of_seq.
  apply rtc_foldl. intros s2 num Hnum%elem_of_digits. cbv beta zeta.
  destruct (filter _ _) as [|j [|??]] eqn:E; try done.
  assert (j ∈ filter (λ j, candidate s2 num i j = true) (seq 0 9)) as Hin.
  { rewrite E. left. }
  apply list_elem_of_filter in Hin as [[Hc Hp]%candidate_true Hj%elem_of_seq].
  apply rtc_once. exists i, j, num.
  split; [lia|]. split; [lia|]. split; [done|]. split; [done|].
  split; [|done]. right. split; [done|]. exists (row_cells i).
  split; [apply row_cells_groups; lia|].
  split; [apply elem_of_row_cells; exists j; split; [lia|done]|].
  intros x (j' & Hj' & ->)%elem_of_row_cells Hx. cbn [fst snd] in Hx.
  f_equal. apply (filter_singleton_unique _ _ _ _ E); [|done].
  apply elem_of_seq. lia.
Qed.

Lemma hidden_cols_fsteps s : rtc fstep s (hidden_cols s).
Proof.
  unfold hidden_cols. apply rtc_foldl. intros s1 j Hj%elem_of_seq.
  apply rtc_foldl. intros s2 num Hnum%elem_of_digits. cbv beta zeta.
  destruct (filter _ _) as [|i [|??]] eqn:E; try done.
  assert (i ∈ filter (λ i, candidate s2 num i j = true) (seq 0 9)) as Hin.
  { rewrite E. left. }
  apply list_elem_of_filter in Hin as [[Hc Hp]%candidate_true Hi%elem_of_seq].
  apply rtc_once. exists i, j, num.
  split; [lia|]. split; [lia|]. split; [done|]. split; [done|].
  split; [|done]. right. split; [done|]. exists (col_cells j).
  split; [apply col_cells_groups; lia|].
  split; [apply elem_of_col_cells; exists i; split; [lia|done]|].
  intros x (i' & Hi' & ->)%elem_of_col_cells Hx. cbn [fst snd] in Hx.
  f_equal. apply (filter_singleton_unique _ _ _ _ E); [|done].
  apply elem_of_seq. lia.
Qed.

Lemma hidden_boxes_fsteps s : rtc fstep s (hidden_boxes s).
Proof.
  unfold hidden_boxes. apply rtc_foldl. intros s1 box Hbox%elem_of_seq.
  apply rtc_foldl. intros s2 num Hnum%elem_of_digits. cbv beta zeta.
  fold (box_cells box).
  destruct (filter _ _) as [|[i j] [|??]] eqn:E; try done.
  match type of E with filter ?P ?l = _ => assert ((i, j) ∈ filter P l) as Hin end.
  { rewrite E. left. }
  apply list_elem_of_filter in Hin as [[Hc Hp]%candidate_true Hin].
  pose proof (proj1 (Forall_forall _ _) groups_shape _
                (box_cells_groups box ltac:(lia))) as (_ & _ & Hsh).
  rewrite Forall_forall in Hsh. destruct (Hsh _ Hin) as (Hi & Hj & _).
  cbn [fst snd] in Hi, Hj.
  apply rtc_once. exists i, j, num.
  split; [lia|]. split; [lia|]. split; [done|]. split; [done|].
  split; [|done]. right. split; [done|]. exists (box_cells box).
  split; [apply box_cells_groups; lia|]. split; [done|].
  intros x Hx Hcand. by apply (filter_singleton_unique _ _ _ _ E).
Qed.

Lemma pass_fsteps s : rtc fstep (clear_progress s) (pass s).
Proof.
  unfold pass.
  etrans; [apply naked_singles_fsteps|].
  etrans; [apply hidden_rows_fsteps|].
  etrans; [apply hidden_cols_fsteps|].
  apply hidden_boxes_fsteps.
Qed.

(** Two peers lie in a common group. *)
Lemma groups_cover :
  Forall (λ x : nat * nat, Forall (λ y : nat * nat,
    peer x.1 x.2 y.1 y.2 → Exists (λ g, x ∈ g ∧ y ∈ g) groups)
    all_cells) all_cells.
Proof. apply (bool_decide_unpack _). by vm_compute. Qed.

Lemma group_cell_range g x : g ∈ groups → x ∈ g → x.1 < 9 ∧ x.2 < 9.
Proof.
  intros Hg Hx.
  pose proof (proj1 (Forall_forall _ _) groups_shape g Hg) as (_ & _ & Hsh).
  rewrite Forall_forall in Hsh. by destruct (Hsh x Hx) as (? & ? & _).
Qed.

Lemma group_cells_peer g x y :
  g ∈ groups → x ∈ g → y ∈ g → peer x.1 x.2 y.1 y.2.
Proof.
  intros Hg Hx Hy.
  pose proof (proj1 (Forall_forall _ _) groups_shape g Hg) as (_ & _ & Hsh).
  rewrite Forall_forall in Hsh. destruct (Hsh x Hx) as (_ & _ & Hp).
  rewrite Forall_forall in Hp. by apply Hp.
Qed.

(** In a solved board two distinct peers hold different digits. *)
Lemma solved_consistent b : solved b → consistent b.
Proof.
  intros Hs i j i' j' Hi Hj Hi' Hj' Hpeer Hne _ E.
  pose proof groups_cover as Hcov. rewrite Forall_forall in Hcov.
  specialize (Hcov (i, j) (proj2 (elem_of_all_cells i j) (conj Hi Hj))).
  rewrite Forall_forall in Hcov.
  specialize (Hcov (i', j') (proj2 (elem_of_all_cells i' j') (conj Hi' Hj')) Hpeer).
  apply Exists_exists in Hcov as (g & Hg & Hx & Hy).
  apply list_elem_of_lookup in Hx as [p Hp].
  apply list_elem_of_lookup in Hy as [q Hq].
  assert (p ≠ q) as Hpq by (intros ->; congruence).
  assert (∀ k x, g !! k = Some x → ∀ a c, g !! k = Some (a, c) → a < 9 ∧ c < 9)
    as Hrange.
  { intros k x Hk a c Hk'. apply (group_cell_range g (a, c) Hg).
    by eapply list_elem_of_lookup_2. }
  assert (group_vals b g !! p = group_vals b g !! q) as Eg.
  { unfold group_vals. rewrite !list_lookup_fmap, Hp, Hq. cbn. by rewrite E. }
  destruct (decide (p < q)) as [Hlt|Hge].
  - revert Eg. apply (solved_group b g p q Hs Hg Hlt); [by eexists..|].
    by apply (Hrange p (i, j)).
  - symmetry in Eg. revert Eg.
    apply (solved_group b g q p Hs Hg); [lia|by eexists..|].
    by apply (Hrange q (i', j')).
Qed.

(** In a solved board every group holds every digit somewhere. *)
Lemma solved_group_has b g d :
  solved b → g ∈ groups → (1 ≤ d ≤ 9)%Z →
  ∃ x : nat * nat, x ∈ g ∧ cell b x.1 x.2 = d.
Proof.
  intros [_ Hg] Hin Hd. rewrite Forall_forall in Hg. specialize (Hg g Hin).
  rewrite Forall_forall in Hg. specialize (Hg d (proj2 (elem_of_digits d) Hd)).
  unfold count_in in Hg.
  destruct (filter (λ x, x = d) (group_vals b g)) as [|v l] eqn:E; [done|].
  assert (v ∈ filter (λ x, x = d) (group_vals b g)) as Hv by (rewrite E; left).
  apply list_elem_of_filter in Hv as [-> Hv]. unfold group_vals in Hv.
  apply list_elem_of_fmap in Hv as (x & Hx & Hxin). by exists x.
Qed.

(** The digit a completion puts into an empty cell passes [is_valid]. *)
Lemma completion_valid b b' r c :
  solved b' → extends b b' → r < 9 → c < 9 → cell b r c = 0%Z →
  is_valid b r c (cell b' r c) = true.
Proof.
  intros Hs Hx Hr Hc Hz. apply is_valid_true_iff; [done..|].
  intros x y Hxr Hyr Hpeer E.
  pose proof (solved_digit b' r c Hs Hr Hc) as Hd.
  assert (cell b x y ≠ 0%Z) as Hnz by lia.
  assert ((r, c) ≠ (x, y)) as Hne by (intros [= -> ->]; done).
  rewrite <-(Hx x y Hxr Hyr Hnz) in E. symmetry in E. revert E.
  apply (solved_consistent b' Hs r c x y); try done. lia.
Qed.

Lemma extends_place b b' i j num :
  wf b → i < 9 → j < 9 → extends b b' → cell b' i j = num →
  extends (set2 b i j num) b'.
Proof.
  intros Hwf Hi Hj Hx E x y Hxr Hyr. rewrite cell_set2 by done.
  case_decide as Heq; [|by apply Hx]. by destruct Heq as [<- <-].
Qed.

(** A forced placement agrees with every completion of the board. *)
Lemma fstep_completion b' s s' :
  ginv s → tracked s → fstep s s' →
  solved b' → extends (g_board s) b' → extends (g_board s') b'.
Proof.
  intros (Hb & Hp & Hd) Ht (i & j & num & Hi & Hj & Hz & Hnum & Hf & ->) Hs Hx.
  cbn [place g_board]. apply extends_place; try done.
  assert (∀ x y d, x < 9 → y < 9 →
    d ∈ pset (g_poss s) x y ↔
      cell (g_board s) x y = 0%Z ∧ (1 ≤ d ≤ 9)%Z ∧
      is_valid (g_board s) x y d = true) as Hps.
  { intros x y d Hxr Hyr. rewrite Ht, pset_initialize_possibilities by done.
    apply elem_of_valid_digits. }
  destruct Hf as [Hsize|(Hrange & g & Hg & Hin & Huniq)].
  - apply size_1_elem_of in Hsize as [v Hv].
    assert (cell b' i j ∈ pset (g_poss s) i j) as Hc.
    { apply Hps; [done..|]. split; [done|].
      split; [by apply solved_digit|by apply completion_valid]. }
    apply (proj1 (set_equiv _ _) Hv) in Hc, Hnum.
    apply elem_of_singleton in Hc, Hnum. congruence.
  - destruct (solved_group_has b' g num Hs Hg Hrange) as ([x y] & Hxy & E).
    cbn [fst snd] in E.
    destruct (group_cell_range g (x, y) Hg Hxy) as [Hxr Hyr].
    cbn [fst snd] in Hxr, Hyr.
    destruct (decide (cell (g_board s) x y = 0%Z)) as [Hz'|Hnz].
    + assert ((x, y) = (i, j)) as [= -> ->]; [|done].
      apply Huniq; [done|]. cbn [fst snd]. apply candidate_true.
      split; [done|]. apply Hps; [done..|]. split; [done|]. split; [done|].
      rewrite <-E. by apply completion_valid.
    + exfalso. apply Hps in Hnum as (_ & _ & Hv); [|done..].
      rewrite is_valid_true_iff in Hv by done.
      apply (Hv x y Hxr Hyr).
      * apply (group_cells_peer g (i, j) (x, y) Hg Hin Hxy).
      * rewrite <-E. symmetry. by apply Hx.
Qed.

(** What the loop keeps true with respect to a completion [b'] of the
    board. *)
Definition cinv (b' : grid) (s : gstate) : Prop :=
  ginv s ∧ tracked s ∧ extends (g_board s) b'.

Lemma rtc_fstep_cinv b' s s' : solved b' → cinv b' s → rtc fstep s s' → cinv b' s'.
Proof.
  intros Hs Hc Hr. induction Hr as [|s s1 s2 Hstep _ IH]; [done|].
  apply IH. destruct Hc as (Hg & Ht & Hx).
  pose proof (fstep_gstep _ _ Hstep) as Hgs.
  split; [by eapply gstep_ginv|]. split; [by eapply gstep_tracked|].
  by eapply fstep_completion.
Qed.

Lemma pass_cinv b' s : solved b' → cinv b' s → cinv b' (pass s).
Proof.
  intros Hs Hc. apply (rtc_fstep_cinv b' (clear_progress s)); [done|exact Hc|].
  apply pass_fsteps.
Qed.

Lemma greedy_loop_cinv b' fuel s g :
  solved b' → cinv b' s → greedy_loop fuel s = Some g → cinv b' g.
Proof.
  intros Hs. revert s. induction fuel as [|fuel IH]; intros s Hc E.
  { discriminate E. }
  rewrite greedy_loop_S in E. destruct (g_progress (pass s)).
  - apply (IH (pass s)); [by apply pass_cinv|exact E].
  - apply (inj Some) in E. subst g. by apply pass_cinv.
Qed.

Lemma cinv_greedy_start b' s :
  wf (board s) → extends (board s) b' → cinv b' (greedy_start s).
Proof.
  intros Hwf Hx. split; [by apply ginv_greedy_start|]. split; [|exact Hx].
  reflexivity.
Qed.

Lemma full_extends_eq b b' : wf b → wf b' → full b → extends b b' → b' = b.
Proof.
  intros Hwf Hwf' Hfull Hx. apply wf_ext; [done..|]. intros i j Hi Hj.
  rewrite !lookup2_cell by done. f_equal. apply Hx; [done..|].
  by apply Hfull.
Qed.

Lemma solve_greedy_completion fuel s r s' b' :
  wf (board s) → solve_greedy fuel s = Some (r, s') →
  wf b' → solved b' → extends (board s) b' →
  extends (board s') b' ∧ (r = true → b' = board s').
Proof.
  intros Hwf E Hwf' Hs Hx.
  apply solve_greedy_inv in E as (g & Eg & -> & Hb & _ & _). rewrite Hb.
  destruct (greedy_loop_cinv b' _ _ _ Hs (cinv_greedy_start b' s Hwf Hx) Eg)
    as ((Hwfg & _) & _ & Hxg).
  split; [exact Hxg|]. intros Hfull%all_filled_full.
  by apply full_extends_eq.
Qed.

(** X5: [solve_greedy] places forced digits only.  On a nine by nine
    board with consistent givens in range, every legal completion of the
    board it starts from is a completion of the board it leaves; and when
    propagation alone fills the grid (it returns true), the board it leaves
    is solved, keeps the givens, and is the only legal completion of the
    input. *)
Theorem X5_solve_greedy_forced (fuel : nat) (s s' : solverSudoku) (r : bool) :
  wf (board s) → entries_ok (board s) → consistent (board s) →
  solve_greedy fuel s = Some (r, s') →
  (∀ b', wf b' → solved b' → extends (board s) b' → extends (board s') b') ∧
  (r = true →
     wf (board s') ∧ solved (board s') ∧ extends (board s) (board s') ∧
     ∀ b', wf b' → solved b' → extends (board s) b' → b' = board s').
Proof.
  intros Hwf Hent Hcons E. split.
  - intros b' Hwf' Hs Hx.
    exact (proj1 (solve_greedy_completion fuel s r s' b' Hwf E Hwf' Hs Hx)).
  - intros Hr.
    destruct (solve_greedy_sound fuel s r s' Hwf Hent Hcons E)
      as (Hwfs & Hxs & Hcs & Hes & Hfull).
    split; [exact Hwfs|]. split.
    { apply consistent_full_solved; [exact Hcs|exact Hes|].
      apply Hfull, Hr. }
    split; [exact Hxs|]. intros b' Hwf' Hs Hx.
    exact (proj2 (solve_greedy_completion fuel s r s' b' Hwf E Hwf' Hs Hx) Hr).
Qed.

Lemma X5_solve_greedy_forced_witness :
  wf (board (init easy)) ∧ entries_ok (board (init easy)) ∧
  consistent (board (init easy)) ∧
  solve_greedy 82 (init easy) =
    Some (true, {| board := easy_solved; steps := 51; backtracks := 0 |}) ∧
  solved (board {| board := easy_solved; steps := 51; backtracks := 0 |}) ∧
  ∀ b', wf b' → solved b' → extends (board (init easy)) b' →
    b' = board {| board := easy_solved; steps := 51; backtracks := 0 |}.
Proof.
  assert (wf (board (init easy))) as Hwf by by_compute.
  assert (entries_ok (board (init easy))) as Hent by by_compute.
  assert (consistent (board (init easy))) as Hcons by by_compute.
  assert (solve_greedy 82 (init easy) =
    Some (true, {| board := easy_solved; steps := 51; backtracks := 0 |})) as E
    by (vm_compute; reflexivity).
  repeat (split; [assumption|]).
  destruct (proj2 (X5_solve_greedy_forced 82 _ _ true Hwf Hent Hcons E)
              eq_refl) as (_ & Hs & _ & Huniq).
  split; [exact Hs|exact Huniq].
Defined.

(** ** Completeness of the search *)

Lemma try_digits_complete rec row col nums s b' fuel :
  bt_ok rec →
  (∀ s, wf (board s) → count_empty (board s) < fuel → is_Some (rec s)) →
  (∀ s, wf (board s) → count_empty (board s) < fuel → extends (board s) b' →
     ∃ s', rec s = Some (true, s')) →
  row < 9 → col < 9 →
  (∀ num, num ∈ nums → (1 ≤ num ≤ 9)%Z) →
  wf (board s) → cell (board s) row col = 0%Z →
  count_empty (board s) ≤ fuel →
  solved b' → extends (board s) b' →
  cell b' row col ∈ nums →
  ∃ s', try_digits rec row col nums s = Some (true, s').
Proof.
  intros Hrec Htot Hcomp Hrow Hcol. revert s.
  induction nums as [|num nums IH]; intros s Hnums Hwf Hz Hc Hs Hx Hin.
  { by apply elem_of_nil in Hin. }
  rewrite try_digits_cons.
  pose proof (completion_valid _ _ _ _ Hs Hx Hrow Hcol Hz) as Hv.
  pose proof (Hnums num (list_elem_of_here _ _)) as Hnum.
  assert (∀ n, n ∈ nums → (1 ≤ n ≤ 9)%Z) as Hnums'.
  { intros n Hn. apply Hnums. by right. }
  assert (count_empty (set2 (board s) row col num) < fuel) as Hlt.
  { rewrite (count_empty_set2 (board s) row col num) in Hc by (done || lia).
    lia. }
  destruct (decide (num = cell b' row col)) as [Heq|Hne].
  - rewrite Heq, Hv. rewrite Heq in Hlt.
    destruct (Hcomp (with_board s (set2 (board s) row col (cell b' row col))))
      as [s1 E1]; cbn [with_board board].
    { by apply wf_set2. }
    { done. }
    { by apply extends_place. }
    rewrite E1. by exists s1.
  - apply elem_of_cons in Hin as [Heq|Hin]; [congruence|].
    destruct (is_valid (board s) row col num); [|by apply IH].
    destruct (Htot (with_board s (set2 (board s) row col num))) as [[r s1] E1];
      cbn [with_board board].
    { by apply wf_set2. }
    { done. }
    rewrite E1. destruct r; [by exists s1|].
    apply Hrec in E1; [|by apply wf_set2]. cbn [with_board board] in E1.
    destruct E1 as [_ Eb].
    apply IH; cbn [board]; try rewrite Eb, set2_undo by done; done.
Qed.

Lemma solve_smart_backtracking_complete fuel s b' :
  wf (board s) → count_empty (board s) < fuel →
  solved b' → extends (board s) b' →
  ∃ s', solve_smart_backtracking fuel s = Some (true, s').
Proof.
  revert s. induction fuel as [|fuel IH]; intros s Hwf Hc Hs Hx; [lia|].
  rewrite solve_smart_backtracking_S. cbv zeta. cbn [board].
  destruct (find_most_constrained_cell (board s)) as [[row col]|] eqn:Ec;
    [|by eexists].
  apply find_most_constrained_cell_Some in Ec as (Hrow & Hcol & Hz & _).
  apply (try_digits_complete _ row col digits _ b' fuel); cbn [board];
    try done.
  - apply solve_smart_backtracking_ok.
  - intros s1 Hwf1 Hc1. by apply solve_smart_backtracking_total.
  - intros s1 Hwf1 Hc1 Hx1. by apply IH.
  - intros num. apply elem_of_digits.
  - lia.
  - apply elem_of_digits. by apply solved_digit.
Qed.

(** A board with a legal completion has consistent givens in range. *)
Lemma completion_consistent b b' :
  solved b' → extends b b' → consistent b ∧ entries_ok b.
Proof.
  intros Hs Hx. split.
  - intros i j i' j' Hi Hj Hi' Hj' Hp Hne Hnz E.
    assert (cell b i' j' ≠ 0%Z) as Hnz' by congruence.
    rewrite <-(Hx i j), <-(Hx i' j') in E by done. revert E.
    apply (solved_consistent b' Hs); try done.
    pose proof (solved_digit b' i j Hs Hi Hj). lia.
  - intros i j Hi Hj. destruct (decide (cell b i j = 0%Z)) as [->|Hnz]; [lia|].
    rewrite <-(Hx i j) by done. pose proof (solved_digit b' i j Hs Hi Hj). lia.
Qed.

(** X6: the search is complete.  From a nine by nine board that has a
    legal completion, [solve_smart_backtracking] returns true, for every
    fuel above the number of empty cells, and the board it leaves is a
    legal completion of the board it started from. *)
Theorem X6_search_complete (fuel : nat) (s : solverSudoku) (b' : grid) :
  wf (board s) → count_empty (board s) < fuel →
  solved b' → extends (board s) b' →
  ∃ s', solve_smart_backtracking fuel s = Some (true, s') ∧
    wf (board s') ∧ extends (board s) (board s') ∧ solved (board s').
Proof.
  intros Hwf Hc Hs Hx.
  destruct (solve_smart_backtracking_complete fuel s b' Hwf Hc Hs Hx)
    as [s' E].
  exists s'. split; [exact E|].
  destruct (completion_consistent _ _ Hs Hx) as [Hcons Hent].
  apply solve_smart_backtracking_ok in E as (Hwf' & Hx' & Hfull & Hpres);
    [|done].
  destruct (Hpres Hcons Hent) as [Hc' He'].
  split; [done|]. split; [done|]. by apply consistent_full_solved.
Qed.

Lemma extends_easy_solved : extends easy easy_solved.
Proof.
  assert (Forall (λ x : nat * nat,
    cell easy x.1 x.2 ≠ 0%Z →
    cell easy_solved x.1 x.2 = cell easy x.1 x.2) all_cells) as H by by_compute.
  intros i j Hi Hj.
  exact (proj1 (Forall_forall _ _) H (i, j)
           (proj2 (elem_of_all_cells i j) (conj Hi Hj))).
Qed.

Lemma X6_search_complete_witness :
  wf (board {| board := easy; steps := 0; backtracks := 0 |}) ∧
  count_empty (board {| board := easy; steps := 0; backtracks := 0 |}) < 82 ∧
  solved easy_solved ∧
  extends (board {| board := easy; steps := 0; backtracks := 0 |}) easy_solved ∧
  ∃ s', solve_smart_backtracking 82
          {| board := easy; steps := 0; backtracks := 0 |} = Some (true, s').
Proof.
  assert (wf (board {| board := easy; steps := 0; backtracks := 0 |})) as Hwf
    by by_compute.
  assert (count_empty
    (board {| board := easy; steps := 0; backtracks := 0 |}) < 82) as Hc.
  { pose proof (count_empty_le easy). cbn [board]. lia. }
  assert (solved easy_solved) as Hs by by_compute.
  pose proof extends_easy_solved as Hx.
  split; [exact Hwf|]. split; [exact Hc|]. split; [exact Hs|].
  split; [exact Hx|].
  destruct (X6_search_complete 82 _ easy_solved Hwf Hc Hs Hx) as (s' & E & _).
  by exists s'.
Defined.

(** X7: [solve_combined] is complete.  For a nine by nine input grid that
    has a legal completion it returns true, for every fuel from 82 on, and
    the board it leaves is a legal completion of the input. *)
Theorem X7_solve_combined_complete (b b' : grid) (fuel : nat) :
  wf b → wf b' → solved b' → extends b b' → 82 ≤ fuel →
  ∃ s', solve_combined fuel (init b) = Some (true, s') ∧
    wf (board s') ∧ extends b (board s') ∧ solved (board s').
Proof.
  intros Hwf Hwf' Hs Hx Hfuel.
  destruct (completion_consistent _ _ Hs Hx) as [Hcons Hent].
  assert (∃ s', solve_combined fuel (init b) = Some (true, s')) as [s' E].
  { assert (wf (board (init b))) as Hwfi by by rewrite board_init.
    assert (extends (board (init b)) b') as Hxi by by rewrite board_init.
    unfold solve_combined.
    destruct (solve_greedy_total fuel (init b) Hwfi Hfuel) as [[r s1] Eg].
    rewrite Eg. destruct r; [by exists s1|].
    pose proof (solve_greedy_wf _ _ _ _ Hwfi Eg) as Hwf1.
    apply (solve_smart_backtracking_complete fuel s1 b'); try done.
    - pose proof (count_empty_le (board s1)). lia.
    - by apply (solve_greedy_completion fuel (init b) false s1 b'). }
  exists s'. split; [exact E|].
  apply solve_combined_sound in E as (H1 & H2 & H3);
    rewrite ?board_init in *; done.
Qed.

Lemma X7_solve_combined_complete_witness :
  wf easy ∧ wf easy_solved ∧ solved easy_solved ∧ extends easy easy_solved ∧
  82 ≤ 82 ∧ ∃ s', solve_combined 82 (init easy) = Some (true, s').
Proof.
  assert (wf easy) as Hwf by by_compute.
  assert (wf easy_solved) as Hwf' by by_compute.
  assert (solved easy_solved) as Hs by by_compute.
  pose proof extends_easy_solved as Hx.
  assert (82 ≤ 82) as Hf by lia.
  repeat (split; [assumption|]).
  destruct (X7_solve_combined_complete easy easy_solved 82 Hwf Hwf' Hs Hx Hf)
    as (s' & E & _).
  by exists s'.
Defined.

(** X8: on a nine by nine board with consistent givens in range the
    search decides solvability: with fuel above the number of empty cells
    it returns true exactly when the board has a legal completion, and
    false exactly when it has none. *)
Theorem X8_search_decides (fuel : nat) (s : solverSudoku) :
  wf (board s) → entries_ok (board s) → consistent (board s) →
  count_empty (board s) < fuel →
  ((∃ s', solve_smart_backtracking fuel s = Some (true, s')) ↔
     ∃ b', wf b' ∧ extends (board s) b' ∧ solved b') ∧
  ((∃ s', solve_smart_backtracking fuel s = Some (false, s')) ↔
     ¬ ∃ b', wf b' ∧ extends (board s) b' ∧ solved b').
Proof.
  intros Hwf Hent Hcons Hc.
  assert (∀ s', solve_smart_backtracking fuel s = Some (true, s') →
    ∃ b', wf b' ∧ extends (board s) b' ∧ solved b') as Hsound.
  { intros s' E.
    apply solve_smart_backtracking_ok in E as (Hwf' & Hx & Hfull & Hpres);
      [|done].
    destruct (Hpres Hcons Hent) as [Hc' He']. exists (board s').
    split; [done|]. split; [done|]. by apply consistent_full_solved. }
  assert ((∃ b', wf b' ∧ extends (board s) b' ∧ solved b') →
    ∃ s', solve_smart_backtracking fuel s = Some (true, s')) as Hcomp.
  { intros (b' & Hwf' & Hx & Hs).
    by apply (solve_smart_backtracking_complete fuel s b'). }
  split; [split; [intros [s' E]; by eapply Hsound|exact Hcomp]|].
  split.
  - intros [s' E] Hex. destruct (Hcomp Hex) as [s'' E']. congruence.
  - intros Hno.
    destruct (solve_smart_backtracking_total fuel s Hwf Hc) as [[r s'] E].
    destruct r; [|by exists s']. destruct Hno. by eapply Hsound.
Qed.

Lemma X8_search_decides_witness :
  wf (board (init stuck)) ∧ entries_ok (board (init stuck)) ∧
  consistent (board (init stuck)) ∧ count_empty (board (init stuck)) < 82 ∧
  ¬ ∃ b', wf b' ∧ extends (board (init stuck)) b' ∧ solved b'.
Proof.
  assert (wf (board (init stuck))) as Hwf by by_compute.
  assert (entries_ok (board (init stuck))) as Hent by by_compute.
  assert (consistent (board (init stuck))) as Hcons by by_compute.
  assert (count_empty (board (init stuck)) < 82) as Hc.
  { pose proof (count_empty_le (board (init stuck))). lia. }
  repeat (split; [assumption|]).
  apply (proj2 (X8_search_decides 82 (init stuck) Hwf Hent Hcons Hc)).
  exists {| board := stuck; steps := 1; backtracks := 0 |}.
  vm_compute. reflexivity.
Defined.

(** ** The counters *)

(** The counters of one invocation of the search: steps gained, minus
    one, are the placements it made; those are the backtracks gained plus
    the cells it left filled. *)
Definition counted (k : nat) (s s' : solverSudoku) : Prop :=
  steps s' + backtracks s + count_empty (board s') =
    steps s + k + backtracks s' + count_empty (board s) ∧
  backtracks s ≤ backtracks s'.

Lemma try_digits_counted rec row col nums s r s' :
  bt_ok rec →
  (∀ s r s', wf (board s) → rec s = Some (r, s') → counted 1 s s') →
  row < 9 → col < 9 →
  (∀ num, num ∈ nums → (1 ≤ num ≤ 9)%Z) →
  wf (board s) → cell (board s) row col = 0%Z →
  try_digits rec row col nums s = Some (r, s') →
  counted 0 s s'.
Proof.
  intros Hrec Hcnt Hrow Hcol. revert s.
  induction nums as [|num nums IH]; intros s Hnums Hwf Hz E.
  { apply (inj Some) in E. apply pair_equal_spec in E as [_ <-].
    split; lia. }
  rewrite try_digits_cons in E.
  pose proof (Hnums num (list_elem_of_here _ _)) as Hnum.
  assert (∀ n, n ∈ nums → (1 ≤ n ≤ 9)%Z) as Hnums'.
  { intros n Hn. apply Hnums. by right. }
  destruct (is_valid (board s) row col num); [|by apply IH].
  destruct (rec _) as [[r1 s1]|] eqn:E1; [|discriminate E].
  assert (wf (board (with_board s (set2 (board s) row col num)))) as Hwf1
    by by apply wf_set2.
  pose proof (Hcnt _ _ _ Hwf1 E1) as [Hc1 Hb1].
  cbn [with_board board steps backtracks] in Hc1, Hb1.
  pose proof (count_empty_set2 (board s) row col num Hwf Hrow Hcol Hz) as Hce.
  apply Hrec in E1; [|by apply wf_set2]. cbn [with_board board] in E1.
  destruct r1.
  - apply (inj Some) in E. apply pair_equal_spec in E as [_ <-].
    split; lia.
  - destruct E1 as [_ Eb].
    apply IH in E; [|done|cbn [board]; rewrite Eb, set2_undo by done; done..].
    destruct E as [Hc2 Hb2]. cbn [board steps backtracks] in Hc2, Hb2.
    rewrite Eb, set2_undo in Hc2 by done. rewrite Eb in Hc1.
    split; lia.
Qed.

Lemma solve_smart_backtracking_counted fuel s r s' :
  wf (board s) → solve_smart_backtracking fuel s = Some (r, s') →
  counted 1 s s'.
Proof.
  revert s r s'. induction fuel as [|fuel IH]; intros s r s' Hwf E; [done|].
  rewrite solve_smart_backtracking_S in E. cbv zeta in E. cbn [board] in E.
  destruct (find_most_constrained_cell (board s)) as [[row col]|] eqn:Ec.
  - apply find_most_constrained_cell_Some in Ec as (Hrow & Hcol & Hz & _).
    apply try_digits_counted in E; try done.
    + destruct E as [Hc Hb]. cbn [board steps backtracks] in Hc, Hb.
      split; lia.
    + apply solve_smart_backtracking_ok.
    + intros num. apply elem_of_digits.
  - apply (inj Some) in E. apply pair_equal_spec in E as [_ <-].
    split; cbn [board steps backtracks]; lia.
Qed.

(** X9: the counters of [solve_smart_backtracking] add up.  Whatever it
    returns, the steps it counted are one, plus the backtracks it counted,
    plus the cells it left filled; a failed call therefore counts one step
    more than backtracks, a successful one also the cells it filled.  The
    backtrack counter never decreases. *)
Theorem X9_search_counters (fuel : nat) (s s' : solverSudoku) (r : bool) :
  wf (board s) → solve_smart_backtracking fuel s = Some (r, s') →
  backtracks s ≤ backtracks s' ∧
  (r = false →
     steps s' - steps s = 1 + (backtracks s' - backtracks s)) ∧
  (r = true →
     steps s' - steps s =
       1 + (backtracks s' - backtracks s) + count_empty (board s)).
Proof.
  intros Hwf E.
  pose proof (solve_smart_backtracking_counted fuel s r s' Hwf E) as [Hc Hb].
  apply solve_smart_backtracking_ok in E as [Hwf' Hpost]; [|done].
  split; [exact Hb|]. split; intros ->.
  - rewrite Hpost in Hc. lia.
  - destruct Hpost as (_ & Hfull & _).
    assert (count_empty (board s') = 0) as Hz; [|lia].
    unfold count_empty.
    destruct (filter _ all_cells) as [|[i j] l] eqn:Ef; [done|].
    assert ((i, j) ∈ filter (λ ij : nat * nat, cell (board s') ij.1 ij.2 = 0%Z)
              all_cells) as Hin by (rewrite Ef; left).
    apply list_elem_of_filter in Hin as [Hzero [Hi Hj]%elem_of_all_cells].
    by destruct (Hfull i j).
Qed.

(** Two runs that backtrack.  On [dead_pair] the search fails after one
    placement and one backtrack: two steps, one more than backtracks.  On
    [wrong_first] it succeeds after four backtracks: 77 steps, which is
    one, plus four, plus the 72 cells that were empty. *)
Lemma X9_search_counters_witness :
  (wf (board (init dead_pair)) ∧
   solve_smart_backtracking 82 (init dead_pair) =
     Some (false, {| board := dead_pair; steps := 2; backtracks := 1 |}) ∧
   steps {| board := dead_pair; steps := 2; backtracks := 1 |} -
       steps (init dead_pair) =
     1 + (backtracks {| board := dead_pair; steps := 2; backtracks := 1 |} -
          backtracks (init dead_pair))) ∧
  (wf (board (init wrong_first)) ∧
   solve_smart_backtracking 82 (init wrong_first) =
     Some (true,
           {| board := wrong_first_solved; steps := 77; backtracks := 4 |}) ∧
   steps {| board := wrong_first_solved; steps := 77; backtracks := 4 |} -
       steps (init wrong_first) =
     1 + (backtracks
            {| board := wrong_first_solved; steps := 77; backtracks := 4 |} -
          backtracks (init wrong_first)) +
     count_empty (board (init wrong_first))).
Proof.
  assert (wf (board (init dead_pair))) as Hwf by by_compute.
  assert (solve_smart_backtracking 82 (init dead_pair) =
    Some (false, {| board := dead_pair; steps := 2; backtracks := 1 |})) as E
    by (vm_compute; reflexivity).
  assert (wf (board (init wrong_first))) as Hwf2 by by_compute.
  assert (solve_smart_backtracking 82 (init wrong_first) =
    Some (true,
          {| board := wrong_first_solved; steps := 77; backtracks := 4 |}))
    as E2 by (vm_compute; reflexivity).
  split.
  - split; [exact Hwf|]. split; [exact E|].
    exact (proj1 (proj2
             (X9_search_counters 82 (init dead_pair) _ false Hwf E)) eq_refl).
  - split; [exact Hwf2|]. split; [exact E2|].
    exact (proj2 (proj2
             (X9_search_counters 82 (init wrong_first) _ true Hwf2 E2))
             eq_refl).
Defined.

(** ** What [solve_greedy] and [solve_combined] leave behind *)

Lemma greedy_loop_inv (P : gstate → Prop) fuel s g :
  (∀ s s', ginv s → P s → gstep s s' → P s') →
  (∀ s, P s → P (clear_progress s)) →
  ginv s → P s → greedy_loop fuel s = Some g → P g.
Proof.
  intros Hstep Hclear.
  assert (∀ s s', ginv s → P s → rtc gstep s s' → P s') as Hrtc.
  { intros s1 s2 Hg Hp Hr. induction Hr; eauto using gstep_ginv. }
  revert s. induction fuel as [|fuel IH]; intros s Hg Hp E.
  { discriminate E. }
  assert (P (pass s)) as Hpass.
  { apply (Hrtc (clear_progress s)); [exact Hg|by apply Hclear|].
    apply pass_steps. }
  rewrite greedy_loop_S in E. destruct (g_progress (pass s)).
  - apply (IH (pass s)); [by apply pass_ginv|exact Hpass|exact E].
  - apply (inj Some) in E. subst g. exact Hpass.
Qed.

Lemma solve_greedy_effect fuel s r s' :
  wf (board s) → solve_greedy fuel s = Some (r, s') →
  backtracks s' = backtracks s ∧
  steps s' + count_empty (board s') = steps s + count_empty (board s) ∧
  extends (board s) (board s') ∧ wf (board s').
Proof.
  intros Hwf E.
  apply solve_greedy_inv in E as (g & Eg & _ & Hb & Hst & Hbt).
  rewrite Hb, Hst. split; [exact Hbt|].
  pose proof (ginv_greedy_start s Hwf) as Hg0.
  split; [|split].
  - apply (greedy_loop_inv
      (λ x, g_steps x + count_empty (g_board x) =
            steps s + count_empty (board s)) fuel (greedy_start s) g);
      [|done|exact Hg0|reflexivity|exact Eg].
    intros s1 s2 Hg1 Hp Hs. destruct (gstep_count s1 s2 Hg1 Hs) as (H1 & H2 & _).
    lia.
  - apply (greedy_loop_inv (λ x, extends (board s) (g_board x))
             fuel (greedy_start s) g);
      [|done|exact Hg0|apply extends_refl|exact Eg].
    intros s1 s2 (Hw1 & _) Hp (i & j & num & Hi & Hj & Hz & _ & ->).
    cbn [place g_board]. by apply extends_set2.
  - by destruct (greedy_loop_ginv _ _ _ Hg0 Eg).
Qed.

(** X10: [solve_greedy] writes into empty cells only and counts one step
    per cell it fills: the board it leaves keeps every non-zero entry of
    the board it started from, [steps] has grown by the number of cells
    filled, and [backtracks] is unchanged. *)
Theorem X10_solve_greedy_effect (fuel : nat) (s s' : solverSudoku) (r : bool) :
  wf (board s) → solve_greedy fuel s = Some (r, s') →
  extends (board s) (board s') ∧
  count_empty (board s') ≤ count_empty (board s) ∧
  steps s' = steps s + (count_empty (board s) - count_empty (board s')) ∧
  backtracks s' = backtracks s.
Proof.
  intros Hwf E.
  destruct (solve_greedy_effect fuel s r s' Hwf E) as (Hbt & Hc & Hx & _).
  assert (steps s ≤ steps s') as Hle.
  { apply solve_greedy_inv in E as (g & Eg & _ & _ & -> & _).
    apply (greedy_loop_inv (λ x, steps s ≤ g_steps x) fuel (greedy_start s) g);
      [|done|by apply ginv_greedy_start|reflexivity|exact Eg].
    intros s1 s2 Hg1 Hp Hs. destruct (gstep_count s1 s2 Hg1 Hs) as (_ & H2 & _).
    lia. }
  split; [exact Hx|]. split; [lia|]. split; [lia|exact Hbt].
Qed.

Lemma X10_solve_greedy_effect_witness :
  wf (board (init easy)) ∧
  solve_greedy 82 (init easy) =
    Some (true, {| board := easy_solved; steps := 51; backtracks := 0 |}) ∧
  backtracks {| board := easy_solved; steps := 51; backtracks := 0 |} =
    backtracks (init easy).
Proof.
  assert (wf (board (init easy))) as Hwf by by_compute.
  assert (solve_greedy 82 (init easy) =
    Some (true, {| board := easy_solved; steps := 51; backtracks := 0 |})) as E
    by (vm_compute; reflexivity).
  split; [exact Hwf|]. split; [exact E|].
  exact (proj2 (proj2 (proj2 (X10_solve_greedy_effect 82 _ _ true Hwf E)))).
Defined.



(** ** Dead ends *)

Lemma try_digits_none_valid rec row col nums s :
  (∀ num, num ∈ nums → is_valid (board s) row col num = false) →
  try_digits rec row col nums s = Some (false, s).
Proof.
  induction nums as [|num nums IH]; intros H; [done|].
  rewrite try_digits_cons. rewrite (H num) by left.
  apply IH. intros n Hn. apply H. by right.
Qed.

(** X12: a nine by nine board with an empty cell that no digit fits makes
    the search fail at once.  [find_most_constrained_cell] picks a cell
    without candidates, no digit is tried, and the call returns false
    having counted one step, with the board and [backtracks] unchanged. *)
Theorem X12_dead_end (fuel : nat) (s : solverSudoku) (i j : nat) :
  wf (board s) →
  i < 9 → j < 9 → cell (board s) i j = 0%Z →
  count_valid (board s) i j = 0 → 0 < fuel →
  solve_smart_backtracking fuel s =
    Some (false, {| board := board s; steps := S (steps s);
                    backtracks := backtracks s |}).
Proof.
  intros _ Hi Hj Hz Hcount Hfuel. destruct fuel as [|fuel]; [lia|].
  rewrite solve_smart_backtracking_S. cbv zeta. cbn [board].
  destruct (find_most_constrained_cell (board s)) as [[row col]|] eqn:Ec.
  - apply find_most_constrained_cell_Some in Ec as (Hrow & Hcol & Hz' & Hmin).
    destruct (Hmin i j Hi Hj Hz) as [Hle _].
    apply try_digits_none_valid. cbn [board]. intros num Hnum.
    destruct (is_valid (board s) row col num) eqn:Hv; [|done].
    assert (num ∈ filter (λ num, is_valid (board s) row col num = true) digits)
      as Hin by by apply list_elem_of_filter.
    assert (count_valid (board s) row col = 0) as Hzero by lia.
    unfold count_valid in Hzero. apply nil_length_inv in Hzero.
    rewrite Hzero in Hin. by apply elem_of_nil in Hin.
  - pose proof (proj1 (find_most_constrained_cell_None _) Ec) as Hfull.
    by destruct (Hfull i j).
Qed.

Lemma X12_dead_end_witness :
  wf (board (init stuck)) ∧
  0 < 9 ∧ 8 < 9 ∧ cell (board (init stuck)) 0 8 = 0%Z ∧
  count_valid (board (init stuck)) 0 8 = 0 ∧ 0 < 1 ∧
  solve_smart_backtracking 1 (init stuck) =
    Some (false, {| board := board (init stuck); steps := S (steps (init stuck));
                    backtracks := backtracks (init stuck) |}).
Proof.
  assert (wf (board (init stuck))) as Hwf by by_compute.
  assert (0 < 9) as Hi by lia. assert (8 < 9) as Hj by lia.
  assert (cell (board (init stuck)) 0 8 = 0%Z) as Hz by reflexivity.
  assert (count_valid (board (init stuck)) 0 8 = 0) as Hc
    by (vm_compute; reflexivity).
  assert (0 < 1) as Hf by lia.
  repeat (split; [assumption|]).
  apply (X12_dead_end 1 (init stuck) 0 8 Hwf Hi Hj Hz Hc Hf).
Defined.

(** ** [getFinishedBoard] *)

Lemma list9_inv {A} (l : list A) :
  length l = 9 → ∃ x0 x1 x2 x3 x4 x5 x6 x7 x8, l = [x0; x1; x2; x3; x4; x5; x6; x7; x8].
Proof.
  intros H. do 9 (destruct l as [|? l]; [discriminate H|]).
  destruct l; [|discriminate H]. by repeat eexists.
Qed.

(** [np.array] stores a list of Python integers that fit in 64 bits as
    an integer array holding the same values; a larger entry would turn it
    into an array of another type. *)
Definition int64_entries (b : grid) : Prop :=
  Forall (Forall (λ v : Z, (- 2 ^ 63 ≤ v < 2 ^ 63)%Z)) b.

#[global] Instance int64_entries_dec b : Decision (int64_entries b).
Proof. unfold int64_entries. apply _. Defined.

(** X13: on a nine by nine board whose entries fit in 64 bits
    [getFinishedBoard] returns the board: flattening the 81 cells row by
    row and cutting the list into nine rows of nine gives back the rows. *)
Theorem X13_getFinishedBoard (b : grid) :
  wf b → int64_entries b → Heap.getFinishedBoard b = b.
Proof.
  intros [Hlen Hrows] _.
  destruct (list9_inv b Hlen) as (r0 & r1 & r2 & r3 & r4 & r5 & r6 & r7 & r8 & ->).
  repeat match goal with
  | H : Forall _ (_ :: _) |- _ => apply Forall_cons in H as [?%list9_inv H]
  end.
  destruct_and?. repeat match goal with
  | H : ∃ _, _ |- _ => destruct H as [? H]
  end.
  subst. reflexivity.
Qed.

Lemma X13_getFinishedBoard_witness :
  wf easy ∧ int64_entries easy ∧ Heap.getFinishedBoard easy = easy.
Proof.
  assert (wf easy) as Hwf by by_compute.
  assert (int64_entries easy) as Hint by by_compute.
  split; [exact Hwf|]. split; [exact Hint|].
  apply (X13_getFinishedBoard easy Hwf Hint).
Defined.

(** ** Writes through the solver's reference *)

(** X14: after the constructor has run on a caller's nine by nine grid
    [b], an assignment [self.board[i][j] = v] changes that one cell of the
    solver's board and nothing of the caller's grid, also when the
    caller's grid uses one row object for several rows. *)
Theorem X14_write_after_init (h : Heap.heap) (input : nat) (b : grid)
    (st : Heap.heap * Heap.hsolver) (i j : nat) (v : Z) :
  Heap.load h input = Some b → wf b →
  Heap.h_init h input = Some st → i < 9 → j < 9 →
  ∃ h2, Heap.h_set_cell st.1 (Heap.h_board st.2) i j v = Some h2 ∧
    Heap.load h2 (Heap.h_board st.2) = Some (set2 b i j v) ∧
    Heap.load h2 input = Some b ∧
    ∀ l, l ∈ dom h → h2 !! l = h !! l.
Proof.
  intros Hload Hwf Einit Hi Hj.
  destruct (Heap.h_init_owns h input b Hload Hwf) as (st0 & E0 & Hown).
  assert (st0 = st) as -> by congruence.
  destruct Hown as (Hfr & _ & ls & Hls & Ho & Hols & Hnew & Hnd & Hb).
  exists (Heap.write_rows st.1 ls (set2 b i j v)).
  split; [by apply Heap.h_set_cell_write|].
  assert (∀ l, l ∈ dom h →
    Heap.write_rows st.1 ls (set2 b i j v) !! l = h !! l) as Hfr2.
  { intros l Hl. rewrite Heap.write_rows_other; [by apply Hfr|].
    intros Hin. by apply (Hnew l). }
  split; [|split; [by apply (Heap.load_frame h)|exact Hfr2]].
  apply Heap.load_Some. exists ls. split.
  - apply Heap.read_list_Some. rewrite Heap.write_rows_other by done.
    by apply Heap.read_list_Some.
  - apply Heap.write_rows_read; [done|].
    rewrite (Forall2_length _ _ _ Hb). unfold set2. by rewrite length_alter.
Qed.

(** A caller's heap in which one row object serves as all nine rows. *)
Definition aliased_heap : Heap.heap :=
  <[1 := Heap.OList (replicate 9 0)]> {[ 0 := Heap.ORow (replicate 9 0%Z) ]}.

Lemma X14_write_after_init_witness :
  Heap.load aliased_heap 1 = Some empty_board ∧ wf empty_board ∧
  ∃ st, Heap.h_init aliased_heap 1 = Some st ∧ 0 < 9 ∧ 0 < 9 ∧
    ∃ h2, Heap.h_set_cell st.1 (Heap.h_board st.2) 0 0 5%Z = Some h2 ∧
      Heap.load h2 (Heap.h_board st.2) = Some (set2 empty_board 0 0 5%Z) ∧
      Heap.load h2 1 = Some empty_board.
Proof.
  assert (Heap.load aliased_heap 1 = Some empty_board) as Hload
    by (vm_compute; reflexivity).
  assert (wf empty_board) as Hwf by by_compute.
  split; [exact Hload|]. split; [exact Hwf|].
  destruct (Heap.h_init_owns aliased_heap 1 empty_board Hload Hwf)
    as (st & E & _).
  exists st. split; [exact E|].
  assert (0 < 9) as Hi by lia. split; [exact Hi|]. split; [exact Hi|].
  destruct (X14_write_after_init aliased_heap 1 empty_board st 0 0 5%Z
              Hload Hwf E Hi Hi) as (h2 & E2 & L2 & L1 & _).
  exists h2. split; [exact E2|]. split; [exact L2|exact L1].
Defined.

(** ** More on [is_valid] and [update_possibilities] *)

(** X15: a write to a cell that shares no group with [(r, c)] does not
    change [is_valid] at [(r, c)], and filling an empty cell never makes a
    rejected non-zero digit valid. *)
Theorem X15_is_valid_after_write (b : grid) (i j r c : nat) (v d : Z) :
  wf b → i < 9 → j < 9 → r < 9 → c < 9 →
  (¬ peer r c i j → is_valid (set2 b i j v) r c d = is_valid b r c d) ∧
  (cell b i j = 0%Z → d ≠ 0%Z →
     is_valid (set2 b i j v) r c d = true → is_valid b r c d = true).
Proof.
  intros Hwf Hi Hj Hr Hc. split.
  - intros Hnp. apply Bool.eq_iff_eq_true. rewrite !is_valid_true_iff by done.
    assert (∀ x y, x < 9 → y < 9 → peer r c x y →
      cell (set2 b i j v) x y = cell b x y) as Hsame.
    { intros x y Hx Hy Hp. rewrite cell_set2 by done.
      rewrite decide_False; [done|]. intros [<- <-]. done. }
    split; intros H x y Hx Hy Hp.
    + rewrite <-Hsame by done. by apply H.
    + rewrite Hsame by done. by apply H.
  - intros Hz Hd Hv. apply is_valid_set2 in Hv; [tauto|done..|].
    rewrite Hz. done.
Qed.

Lemma X15_is_valid_after_write_witness :
  wf easy ∧ 0 < 9 ∧ 2 < 9 ∧ 8 < 9 ∧ 8 < 9 ∧
  is_valid (set2 easy 0 2 4%Z) 8 8 4%Z = is_valid easy 8 8 4%Z.
Proof.
  assert (wf easy) as Hwf by by_compute.
  assert (0 < 9) as H0 by lia. assert (2 < 9) as H2 by lia.
  assert (8 < 9) as H8 by lia.
  split; [exact Hwf|]. split; [exact H0|]. split; [exact H2|].
  split; [exact H8|]. split; [exact H8|].
  apply (proj1 (X15_is_valid_after_write easy 0 2 8 8 4%Z 4%Z
                  Hwf H0 H2 H8 H8)).
  unfold peer. cbn. lia.
Defined.

(** X16: [update_possibilities] only removes: no set grows, whatever the
    matrix held; and two updates can be applied in either order. *)
Theorem X16_update_possibilities_order (p : cands) (r c r' c' : nat)
    (d d' : Z) :
  wf p → r < 9 → c < 9 → r' < 9 → c' < 9 →
  (∀ i j, i < 9 → j < 9 →
     pset (update_possibilities p r c d) i j ⊆ pset p i j) ∧
  update_possibilities (update_possibilities p r c d) r' c' d' =
    update_possibilities (update_possibilities p r' c' d') r c d.
Proof.
  intros Hwf Hr Hc Hr' Hc'. split.
  { intros i j Hi Hj. by apply pset_update_subseteq. }
  apply wf_pset_ext; [by do 2 apply wf_update_possibilities..|].
  intros i j Hi Hj.
  rewrite !pset_update_possibilities
    by (done || by apply wf_update_possibilities).
  destruct (decide (i = r ∧ j = c)); destruct (decide (i = r' ∧ j = c'));
    destruct (decide (peer r c i j)); destruct (decide (peer r' c' i j));
    set_solver.
Qed.

Lemma X16_update_possibilities_order_witness :
  wf (initialize_possibilities easy) ∧ 0 < 9 ∧ 2 < 9 ∧ 1 < 9 ∧ 1 < 9 ∧
  update_possibilities
    (update_possibilities (initialize_possibilities easy) 0 2 4%Z) 1 1 7%Z =
  update_possibilities
    (update_possibilities (initialize_possibilities easy) 1 1 7%Z) 0 2 4%Z.
Proof.
  assert (wf (initialize_possibilities easy)) as Hwf by by_compute.
  assert (0 < 9) as H0 by lia. assert (2 < 9) as H2 by lia.
  assert (1 < 9) as H1 by lia.
  split; [exact Hwf|]. split; [exact H0|]. split; [exact H2|].
  split; [exact H1|]. split; [exact H1|].
  exact (proj2 (X16_update_possibilities_order _ 0 2 1 1 4%Z 7%Z
                  Hwf H0 H2 H1 H1)).
Defined.

(** ** The fixed point of the propagation loop *)

Lemma rtc_gstep_steps s s' :
  ginv s → rtc gstep s s' →
  g_steps s ≤ g_steps s' ∧ (g_steps s' = g_steps s → s' = s).
Proof.
  intros Hg Hr. destruct (rtc_gstep_count s s' Hg Hr) as [_ [->|[_ Hlt]]];
    [done|]. split; lia.
Qed.

Lemma foldl_progress {B} (f : gstate → B → gstate) (l : list B) x s :
  (∀ s y, y ∈ l → rtc gstep s (f s y)) → ginv s → x ∈ l →
  (g_steps s < g_steps (f s x)) →
  g_steps s < g_steps (foldl f s l).
Proof.
  intros Hf Hg Hx Htrig.
  apply list_elem_of_split in Hx as (l1 & l2 & ->).
  rewrite foldl_app. cbn [foldl].
  assert (rtc gstep s (foldl f s l1)) as H1.
  { apply rtc_foldl. intros s0 y Hy. apply Hf. apply elem_of_app. by left. }
  assert (x ∈ l1 ++ x :: l2) as Hxin by (apply elem_of_app; right; left).
  pose proof (rtc_gstep_ginv _ _ Hg H1) as Hg1.
  pose proof (Hf (foldl f s l1) x Hxin) as H2.
  pose proof (rtc_gstep_ginv _ _ Hg1 H2) as Hg2.
  assert (rtc gstep (f (foldl f s l1) x) (foldl f (f (foldl f s l1) x) l2))
    as H3.
  { apply rtc_foldl. intros s0 y Hy. apply Hf. apply elem_of_app.
    right. by right. }
  destruct (rtc_gstep_steps _ _ Hg H1) as [Hle1 Heq1].
  destruct (rtc_gstep_steps _ _ Hg1 H2) as [Hle2 _].
  destruct (rtc_gstep_steps _ _ Hg2 H3) as [Hle3 _].
  destruct (decide (g_steps (foldl f s l1) = g_steps s)) as [E|Hne]; [|lia].
  rewrite (Heq1 E) in Hle3 |- *. lia.
Qed.

Lemma foldl2_progress {B C} (body : gstate → B → C → gstate)
    (lb : list B) (lc : list C) x y s :
  (∀ s b c, b ∈ lb → c ∈ lc → rtc gstep s (body s b c)) →
  ginv s → x ∈ lb → y ∈ lc →
  g_steps s < g_steps (body s x y) →
  g_steps s < g_steps (foldl (λ s b, foldl (λ s c, body s b c) s lc) s lb).
Proof.
  intros Hbody Hg Hx Hy Htrig.
  apply (foldl_progress (λ s b, foldl (λ s c, body s b c) s lc) lb x);
    [|done..|].
  - intros s0 b Hb. apply rtc_foldl. intros s1 c Hc. by apply Hbody.
  - by apply (foldl_progress (λ s c, body s x c) lc y);
      [intros s0 c Hc; apply Hbody|..].
Qed.

Lemma fstep_rtc_gstep s s' : rtc fstep s s' → rtc gstep s s'.
Proof.
  intros Hr. induction Hr as [|s s1 s2 H _ IH]; [done|].
  eapply rtc_l; [by apply fstep_gstep|exact IH].
Qed.

Lemma naked_singles_progress s i j :
  ginv s → i < 9 → j < 9 →
  cell (g_board s) i j = 0%Z → size (pset (g_poss s) i j) = 1 →
  g_steps s < g_steps (naked_singles s).
Proof.
  intros Hg Hi Hj Hz Hsize. unfold naked_singles.
  apply (foldl2_progress
    (λ s i j,
      if Z.eqb (cell (g_board s) i j) 0 && Nat.eqb (size (pset (g_poss s) i j)) 1
      then place s i j (next_iter (pset (g_poss s) i j)) else s)
    (seq 0 9) (seq 0 9) i j); [|done|apply elem_of_seq; lia..|].
  - intros s0 a c Ha%elem_of_seq Hc%elem_of_seq.
    destruct (_ && _) eqn:E; [|done].
    apply andb_true_iff in E as [E1%Z.eqb_eq E2%Nat.eqb_eq].
    apply rtc_once. exists a, c, (next_iter (pset (g_poss s0) a c)).
    split; [lia|]. split; [lia|]. split; [done|].
    split; [by apply next_iter_elem|done].
  - rewrite (proj2 (Z.eqb_eq _ _) Hz), (proj2 (Nat.eqb_eq _ _) Hsize).
    cbn [andb place g_steps]. lia.
Qed.

Lemma single_candidate_steps {A} (s : gstate) (cands : list A)
    (put : A → gstate) :
  (∀ x, x ∈ cands → gstep s (put x)) →
  rtc gstep s (match cands with [x] => put x | _ => s end).
Proof.
  intros H. destruct cands as [|x [|??]]; try done.
  apply rtc_once, H. left.
Qed.

Lemma hidden_rows_progress s i num :
  ginv s → i < 9 → (1 ≤ num ≤ 9)%Z →
  length (filter (λ j, candidate s num i j = true) (seq 0 9)) = 1 →
  g_steps s < g_steps (hidden_rows s).
Proof.
  intros Hg Hi Hnum Hlen. unfold hidden_rows.
  apply (foldl2_progress
    (λ s i num,
      match filter (λ j, candidate s num i j = true) (seq 0 9) with
      | [j] => place s i j num
      | _ => s
      end) (seq 0 9) digits i num);
    [|done|apply elem_of_seq; lia|by apply elem_of_digits|].
  - intros s0 a d Ha%elem_of_seq _.
    apply (single_candidate_steps s0 _ (λ j, place s0 a j d)).
    intros j [[Hc Hp]%candidate_true Hj%elem_of_seq]%list_elem_of_filter.
    exists a, j, d. repeat split; try lia; done.
  - destruct (filter _ (seq 0 9)) as [|j [|??]]; try done.
    cbn [place g_steps]. lia.
Qed.

Lemma hidden_cols_progress s j num :
  ginv s → j < 9 → (1 ≤ num ≤ 9)%Z →
  length (filter (λ i, candidate s num i j = true) (seq 0 9)) = 1 →
  g_steps s < g_steps (hidden_cols s).
Proof.
  intros Hg Hj Hnum Hlen. unfold hidden_cols.
  apply (foldl2_progress
    (λ s j num,
      match filter (λ i, candidate s num i j = true) (seq 0 9) with
      | [i] => place s i j num
      | _ => s
      end) (seq 0 9) digits j num);
    [|done|apply elem_of_seq; lia|by apply elem_of_digits|].
  - intros s0 a d Ha%elem_of_seq _.
    apply (single_candidate_steps s0 _ (λ i, place s0 i a d)).
    intros i [[Hc Hp]%candidate_true Hi%elem_of_seq]%list_elem_of_filter.
    exists i, a, d. repeat split; try lia; done.
  - destruct (filter _ (seq 0 9)) as [|i [|??]]; try done.
    cbn [place g_steps]. lia.
Qed.

Lemma hidden_boxes_progress s box num :
  ginv s → box < 9 → (1 ≤ num ≤ 9)%Z →
  length (filter (λ ij : nat * nat, candidate s num ij.1 ij.2 = true)
            (box_cells box)) = 1 →
  g_steps s < g_steps (hidden_boxes s).
Proof.
  intros Hg Hbox Hnum Hlen. unfold hidden_boxes.
  apply (foldl2_progress
    (λ s box num,
      match filter (λ ij : nat * nat, candidate s num ij.1 ij.2 = true)
              (box_cells box) with
      | [(i, j)] => place s i j num
      | _ => s
      end) (seq 0 9) digits box num);
    [|done|apply elem_of_seq; lia|by apply elem_of_digits|].
  - intros s0 a d Ha%elem_of_seq _.
    destruct (filter _ (box_cells a)) as [|[i j] [|??]] eqn:E; try done.
    assert ((i, j) ∈ filter (λ ij : nat * nat, candidate s0 d ij.1 ij.2 = true)
              (box_cells a)) as Hin by (rewrite E; left).
    apply list_elem_of_filter in Hin as [[Hc Hp]%candidate_true Hin].
    destruct (group_cell_range _ _ (box_cells_groups a ltac:(lia)) Hin)
      as [Hi Hj].
    apply rtc_once. exists i, j, d. repeat split; try done.
  - destruct (filter _ (box_cells box)) as [|[i j] [|??]]; try done.
    cbn [place g_steps]. lia.
Qed.

Lemma greedy_loop_fixed fuel s g :
  greedy_loop fuel s = Some g → g_progress g = false ∧ pass g = g.
Proof.
  revert s. induction fuel as [|fuel IH]; intros s E; [discriminate E|].
  rewrite greedy_loop_S in E. destruct (g_progress (pass s)) eqn:Hp.
  - exact (IH _ E).
  - apply (inj Some) in E. subst g. split; [exact Hp|].
    exact (proj2 (pass_no_progress s Hp)).
Qed.

Lemma clear_progress_id g : g_progress g = false → clear_progress g = g.
Proof. destruct g as [b p pr st]. cbn. by intros ->. Qed.

Lemma chain_fixed (f1 f2 f3 f4 : gstate → gstate) g :
  (∀ s, rtc gstep s (f1 s)) → (∀ s, rtc gstep s (f2 s)) →
  (∀ s, rtc gstep s (f3 s)) → (∀ s, rtc gstep s (f4 s)) →
  ginv g → f4 (f3 (f2 (f1 g))) = g →
  f1 g = g ∧ f2 g = g ∧ f3 g = g ∧ f4 g = g.
Proof.
  intros H1 H2 H3 H4 Hg Hfix.
  pose proof (H1 g) as R1. pose proof (H2 (f1 g)) as R2.
  pose proof (H3 (f2 (f1 g))) as R3. pose proof (H4 (f3 (f2 (f1 g)))) as R4.
  pose proof (rtc_gstep_ginv _ _ Hg R1) as G1.
  pose proof (rtc_gstep_ginv _ _ G1 R2) as G2.
  pose proof (rtc_gstep_ginv _ _ G2 R3) as G3.
  destruct (rtc_gstep_steps _ _ Hg R1) as [L1 E1].
  destruct (rtc_gstep_steps _ _ G1 R2) as [L2 E2].
  destruct (rtc_gstep_steps _ _ G2 R3) as [L3 E3].
  destruct (rtc_gstep_steps _ _ G3 R4) as [L4 _].
  rewrite Hfix in L4.
  assert (f1 g = g) as N by (apply E1; lia).
  rewrite N in *.
  assert (f2 g = g) as R by (apply E2; lia).
  rewrite R in *.
  assert (f3 g = g) as C by (apply E3; lia).
  rewrite C in *. done.
Qed.

Lemma pass_unfold s :
  pass s =
    hidden_boxes (hidden_cols (hidden_rows (naked_singles (clear_progress s)))).
Proof. reflexivity. Qed.

Lemma pass_fixed_phases g :
  ginv g → g_progress g = false → pass g = g →
  naked_singles g = g ∧ hidden_rows g = g ∧ hidden_cols g = g ∧
  hidden_boxes g = g.
Proof.
  intros Hg Hp Hpass. rewrite pass_unfold, (clear_progress_id g Hp) in Hpass.
  exact (chain_fixed naked_singles hidden_rows hidden_cols hidden_boxes g
           naked_singles_steps hidden_rows_steps hidden_cols_steps
           hidden_boxes_steps Hg Hpass).
Qed.

Lemma length_filter_fmap {A B} (f : A → B) (P : B → Prop)
    `{!∀ x, Decision (P x)} (l : list A) :
  length (filter P (f <$> l)) = length (filter (λ x, P (f x)) l).
Proof.
  induction l as [|x l IH]; [done|].
  rewrite fmap_cons, !filter_cons.
  destruct (decide (P (f x))); cbn [length]; by rewrite IH.
Qed.

Lemma fixed_no_single g num grp :
  ginv g → g_progress g = false → pass g = g →
  grp ∈ groups → (1 ≤ num ≤ 9)%Z →
  length (filter (λ ij : nat * nat, candidate g num ij.1 ij.2 = true) grp) ≠ 1.
Proof.
  intros Hg Hp Hpass Hgrp Hnum Hlen.
  destruct (pass_fixed_phases g Hg Hp Hpass) as (_ & R & C & B).
  unfold groups in Hgrp.
  apply elem_of_app in Hgrp as [Hin|Hin];
    [|apply elem_of_app in Hin as [Hin|Hin]];
    apply list_elem_of_fmap in Hin as (k & -> & Hk%elem_of_seq).
  - unfold row_cells in Hlen. rewrite length_filter_fmap in Hlen.
    cbn [fst snd] in Hlen.
    pose proof (hidden_rows_progress g k num Hg ltac:(lia) Hnum Hlen) as Hlt.
    rewrite R in Hlt. lia.
  - unfold col_cells in Hlen. rewrite length_filter_fmap in Hlen.
    cbn [fst snd] in Hlen.
    pose proof (hidden_cols_progress g k num Hg ltac:(lia) Hnum Hlen) as Hlt.
    rewrite C in Hlt. lia.
  - pose proof (hidden_boxes_progress g k num Hg ltac:(lia) Hnum Hlen) as Hlt.
    rewrite B in Hlt. lia.
Qed.

Lemma size_valid_digits b i j :
  cell b i j = 0%Z → size (valid_digits b i j) = count_valid b i j.
Proof.
  intros Hz. unfold valid_digits, count_valid.
  rewrite (proj2 (Z.eqb_eq _ _) Hz).
  apply size_list_to_set, NoDup_filter, NoDup_seqZ.
Qed.

(** X17: when the propagation returns, it has reached a board on which
    neither of its two rules applies any more: no empty cell has exactly one
    digit that [is_valid] accepts, and in no row, column or box is there a
    digit that [is_valid] accepts in exactly one empty cell. *)
Theorem X17_solve_greedy_exhaustive (fuel : nat) (s s' : solverSudoku)
    (r : bool) :
  wf (board s) → solve_greedy fuel s = Some (r, s') →
  (∀ i j, i < 9 → j < 9 → cell (board s') i j = 0%Z →
     count_valid (board s') i j ≠ 1) ∧
  (∀ grp num, grp ∈ groups → (1 ≤ num ≤ 9)%Z →
     length (filter (λ ij : nat * nat,
                cell (board s') ij.1 ij.2 = 0%Z ∧
                is_valid (board s') ij.1 ij.2 num = true) grp) ≠ 1).
Proof.
  intros Hwf E.
  apply solve_greedy_inv in E as (g & Eg & _ & Hb & _ & _).
  pose proof (ginv_greedy_start s Hwf) as Hg0.
  pose proof (greedy_loop_ginv _ _ _ Hg0 Eg) as Hg.
  destruct (greedy_loop_fixed _ _ _ Eg) as [Hp Hpass].
  assert (tracked g) as Ht.
  { destruct (greedy_loop_iter _ _ _ Eg) as [n ->].
    by apply iter_pass_inv. }
  rewrite Hb. split.
  - intros i j Hi Hj Hz Hc.
    destruct (pass_fixed_phases g Hg Hp Hpass) as (N & _).
    assert (size (pset (g_poss g) i j) = 1) as Hsize.
    { rewrite Ht, pset_initialize_possibilities by done.
      by rewrite size_valid_digits. }
    pose proof (naked_singles_progress g i j Hg Hi Hj Hz Hsize) as Hlt.
    rewrite N in Hlt. lia.
  - intros grp num Hgrp Hnum Hlen.
    apply (fixed_no_single g num grp Hg Hp Hpass Hgrp Hnum).
    rewrite <- Hlen. f_equal. apply filter_ext_elem.
    intros [i j] Hin. cbn [fst snd].
    destruct (group_cell_range _ _ Hgrp Hin) as [Hi Hj]. cbn [fst snd] in Hi, Hj.
    rewrite candidate_true, Ht, pset_initialize_possibilities by done.
    rewrite elem_of_valid_digits. tauto.
Qed.

Lemma X17_solve_greedy_exhaustive_witness :
  wf (board (init stuck)) ∧
  solve_greedy 82 (init stuck) =
    Some (false, {| board := stuck; steps := 0; backtracks := 0 |}) ∧
  count_valid stuck 0 8 ≠ 1.
Proof.
  assert (wf (board (init stuck))) as Hwf by by_compute.
  assert (solve_greedy 82 (init stuck) =
    Some (false, {| board := stuck; steps := 0; backtracks := 0 |})) as E
    by (vm_compute; reflexivity).
  split; [exact Hwf|]. split; [exact E|].
  apply (proj1 (X17_solve_greedy_exhaustive 82 _ _ false Hwf E) 0 8);
    [lia|lia|reflexivity].
Defined.
